(** * Radiance: the effect node, its loader and its multi-pass paint

    A shallow embedding of [EffectNode] and [EffectNodeOpenGLWorker], the
    implementation that begins with the include of EffectNode.h in
    src/OutputWindow.h: the line-by-line parser of effect sources, the
    program loader, the intensity/name setters, the per-chain render
    states held behind shared pointers, and the ring-buffer addressing of
    [EffectNode::paint].

    Conventions.
    - [QString] is [string]: the text in UTF-8, so that a character of
      ASCII is one byte and every byte of another character is above
      127. The character classes of the regular expressions are the
      ASCII ones (QRegularExpression without
      UseUnicodePropertiesOption). QRegularExpression matches in UTF
      mode: ignoring case, an ASCII letter stands for its two cases, and
      s and k also for the long s (U+017F) and the Kelvin sign (U+212A).
    - C++ [int] is [Z]; [%] is truncating ([Z.rem]); overflow is not
      modelled (line numbers and pass counts stay far below 2^31).
    - [qreal] is an IEEE binary64 value ([spec_float]), [GLfloat] a
      binary32 value.
    - Objects reached through [QSharedPointer] live in a store and are
      named by their address.
    - Every observable action (mutex, signal, queued call, debug line,
      OpenGL call, field assignment) is appended to an event log, in
      program order.
    - Threads are not modelled: the assertions on the current thread are
      left out, a mutex is the pair of events that take and release it,
      and a queued call to the worker is an event. *)

From Stdlib Require Import ZArith String Ascii List Bool Lia SpecFloat.
From Stdlib Require DecimalString.
From stdpp Require Import base option list gmap strings fin_maps.

Open Scope string_scope.
Open Scope Z_scope.
Import ListNotations.

(** ** Strings *)

Module Text.

Definition LF : ascii := ascii_of_nat 10.
Definition CR : ascii := ascii_of_nat 13.
Definition dquote : string := String (ascii_of_nat 34) EmptyString.
Definition nl : string := String LF EmptyString.

(** [QString::number(int)] / [QString::arg(int)] for a non-negative value. *)
Definition number (n : nat) : string :=
  DecimalString.NilZero.string_of_uint (Nat.to_uint n).

(** [QStringList::join(sep)]. *)
Fixpoint join (sep : string) (l : list string) : string :=
  match l with
  | [] => ""
  | [x] => x
  | x :: rest => x ++ sep ++ join sep rest
  end.

(** PCRE [\s] (ASCII): HT, LF, VT, FF, CR and space. *)
Definition is_space (c : ascii) : bool :=
  let n := nat_of_ascii c in
  ((9 <=? n)%nat && (n <=? 13)%nat) || (n =? 32)%nat.

(** PCRE [\w] (ASCII): letters, digits and underscore. *)
Definition is_word (c : ascii) : bool :=
  let n := nat_of_ascii c in
  ((48 <=? n)%nat && (n <=? 57)%nat) ||
  ((65 <=? n)%nat && (n <=? 90)%nat) ||
  ((97 <=? n)%nat && (n <=? 122)%nat) ||
  (n =? 95)%nat.

Definition to_lower (c : ascii) : ascii :=
  let n := nat_of_ascii c in
  if ((65 <=? n)%nat && (n <=? 90)%nat)%bool then ascii_of_nat (n + 32) else c.

(** The longest prefix of characters satisfying [p], and what follows it:
    a greedy [\s*] or [\w*]. *)
Fixpoint span (p : ascii -> bool) (s : string) : string * string :=
  match s with
  | EmptyString => ("", "")
  | String c s' =>
      if p c then let '(a, b) := span p s' in (String c a, b)
      else ("", s)
  end.

(** The two characters outside ASCII whose case folding is an ASCII
    letter, in UTF-8: the long s (U+017F, the bytes C5 BF) folds to s,
    the Kelvin sign (U+212A, the bytes E2 84 AA) to k. *)
Definition long_s : string :=
  String (ascii_of_nat 197) (String (ascii_of_nat 191) EmptyString).
Definition kelvin_sign : string :=
  String (ascii_of_nat 226) (String (ascii_of_nat 132) (String (ascii_of_nat 170) EmptyString)).

(** The character outside ASCII that a pattern letter also stands for
    when case is ignored. *)
Definition case_partner (a : ascii) : option string :=
  let n := nat_of_ascii (to_lower a) in
  if (n =? 115)%nat then Some long_s
  else if (n =? 107)%nat then Some kelvin_sign
  else None.

(** Matches [p] at the start of [s]; returns what follows. *)
Fixpoint strip_prefix (p s : string) : option string :=
  match p, s with
  | EmptyString, _ => Some s
  | String a p', String b s' => if Ascii.eqb a b then strip_prefix p' s' else None
  | String _ _, EmptyString => None
  end.

(** Matches the literal [lit] at the start of [s], ignoring case
    (CaseInsensitiveOption); returns what follows. A character of [lit]
    matches itself, the same letter in the other case, and its case
    partner outside ASCII when it has one. *)
Fixpoint strip_prefix_ci (lit s : string) : option string :=
  match lit with
  | EmptyString => Some s
  | String a lit' =>
      match s with
      | EmptyString => None
      | String b s' =>
          if Ascii.eqb (to_lower a) (to_lower b) then strip_prefix_ci lit' s'
          else
            match case_partner a with
            | Some u =>
                match strip_prefix u s with
                | Some s'' => strip_prefix_ci lit' s''
                | None => None
                end
            | None => None
            end
      end
  end.

Definition is_empty (s : string) : bool :=
  match s with EmptyString => true | _ => false end.

(** Removes one trailing carriage return: [QTextStream] does not make
    the CR of a CR LF pair, or a CR at the end of the data, part of the
    line. *)
Fixpoint chomp_cr (s : string) : string :=
  match s with
  | EmptyString => ""
  | String c EmptyString => if Ascii.eqb c CR then "" else s
  | String c s' => String c (chomp_cr s')
  end.

(** The lines [QTextStream::readLineInto] delivers, call after call, until
    it returns false: the text is cut at every LF; a last line without LF
    is delivered when it is not empty. [cur] is the line read so far. *)
Fixpoint readLines_from (cur : string) (s : string) : list string :=
  match s with
  | EmptyString => if is_empty cur then [] else [chomp_cr cur]
  | String c s' =>
      if Ascii.eqb c LF then chomp_cr cur :: readLines_from "" s'
      else readLines_from (cur ++ String c "") s'
  end.

Definition readLines (s : string) : list string := readLines_from "" s.

(** [needle] occurs in [s]. *)
Fixpoint contains (needle s : string) : bool :=
  if String.prefix needle s then true
  else match s with
       | EmptyString => false
       | String _ s' => contains needle s'
       end.

End Text.

(** ** The directive grammar of effect sources *)

Module Grammar.
Import Text.

(** [buffershader_reg]: start of line, [\s*], the literal
    [#buffershader], [\s*], end of line; case-insensitive, so that the
    s of the literal is also matched by the long s. *)
Definition buffershader_reg (line : string) : bool :=
  let '(_, r0) := span is_space line in
  match strip_prefix_ci "#buffershader" r0 with
  | Some r1 => let '(_, r2) := span is_space r1 in is_empty r2
  | None => false
  end.

(** [property_reg]: the pattern reads, piece by piece and ignoring case,
    start of line, [\s*], the literal [#property], [\s+], the group
    [name] = [\w+], [\s+], the group [value] = any characters up to the
    end of the line.
    The classes [\s] and [\w] are disjoint and the hash sign is in
    neither, so the greedy choices are the only ones that can succeed:
    each blank run is taken whole, the name is the whole run of word
    characters, and the value is the rest of the line (a line holds no
    LF, the only character the dot does not match).
    Returns the captures [(name, value)]. *)
Definition property_reg (line : string) : option (string * string) :=
  let '(_, r0) := span is_space line in
  match strip_prefix_ci "#property" r0 with
  | None => None
  | Some r1 =>
      let '(ws1, r2) := span is_space r1 in
      let '(name, r3) := span is_word r2 in
      let '(ws2, value) := span is_space r3 in
      if is_empty ws1 || is_empty name || is_empty ws2 then None
      else Some (name, value)
  end.

End Grammar.

(** ** Values: floating point, OpenGL objects, programs *)

Module Values.

(** [qreal] is [double]; comparisons are the IEEE ones (a NaN compares
    false with everything, both zeros are equal). *)
Definition qreal : Type := spec_float.
Definition GLfloat : Type := spec_float.

Definition q_zero : qreal := S754_zero false.
Definition q_one : qreal := S754_finite false 4503599627370496 (-52).
Definition q_lt (x y : qreal) : bool := SFltb x y.
Definition q_eq (x y : qreal) : bool := SFeqb x y.
Definition q_le (x y : qreal) : bool := SFleb x y.
Definition q_sub (x y : qreal) : qreal := SFsub 53 1024 x y.
Definition q_is_nan (x : qreal) : bool :=
  match x with S754_nan => true | _ => false end.

(** The conversion [GLfloat(x)] of a [double]: rounding to binary32. *)
Definition GLfloat_of_qreal (x : qreal) : GLfloat :=
  match x with
  | S754_finite s m e => binary_round 24 128 s m e
  | _ => x
  end.

(** The conversion [GLfloat(i)] of an [int]. *)
Definition GLfloat_of_int (i : Z) : GLfloat := binary_normalize 24 128 i 0 false.

Definition GLuint : Type := Z.

Record QSize : Type := mkQSize { width : Z; height : Z }.

(** A framebuffer object with its colour attachment; [texture()] is the
    name of that texture. *)
Record QOpenGLFramebufferObject : Type :=
  mkFbo { fbo_size : QSize; texture : GLuint }.

(** A linked program: the vertex and fragment sources it was built from. *)
Record QOpenGLShaderProgram : Type :=
  mkProgram { vertex_source : string; fragment_source : string }.

(** A chain reached through [QSharedPointer<Chain>]: its address (the
    key of the render-state map compares pointers) and the immutable
    object behind it. *)
Record Chain : Type :=
  mkChain { chain_ptr : nat; chain_size : QSize; noiseTexture : GLuint }.

Inductive UniformValue : Type :=
| UFloat (x : GLfloat)
| UInt (i : Z)
| UVec2 (x y : GLfloat)
| UVec4 (x y z w : GLfloat)
| UUintArray (a : list GLuint).

Inductive GLcap : Type := GL_DEPTH_TEST | GL_BLEND.

(** The OpenGL and Qt calls of the node and its worker. Arguments that are the
    same constant at every call are left out: the target [GL_TEXTURE_2D]
    of [glBindTexture], the mode [GL_TRIANGLE_STRIP] of [glDrawArrays],
    the format [GL_RGBA] of the framebuffers. [glActiveTexture u] stands
    for [glActiveTexture(GL_TEXTURE0 + u)]. *)
Inductive GLCall : Type :=
| glClearColor (r g b a : Z)
| glDisable (cap : GLcap)
| glViewport (x y w h : Z)
| fbo_create (f : QOpenGLFramebufferObject)
| program_bind (p : QOpenGLShaderProgram)
| program_release (p : QOpenGLShaderProgram)
| fbo_bind (f : QOpenGLFramebufferObject)
| fbo_release (f : QOpenGLFramebufferObject)
| glActiveTexture (unit : Z)
| glBindTexture (tex : GLuint)
| setUniformValue (p : QOpenGLShaderProgram) (name : string) (v : UniformValue)
| glDrawArrays (first count : Z)
| glFlush
| makeCurrent.

(** What the node takes from its surroundings during one paint:
    [timebase->beat()], [timebase->wallTime()], [audio->levels(..)] and
    the constant [FPS] of main.h. *)
Record Ambient : Type := mkAmbient {
  beat : qreal;
  wallTime : qreal;
  audioHi : qreal;
  audioMid : qreal;
  audioLow : qreal;
  audioLevel : qreal;
  FPS : qreal
}.

End Values.

(** ** The node, its render states and the event log *)

Module Node.
Import Values.
Local Open Scope list_scope.

(** Modelled from the spec: the declaration of [EffectNodeRenderState]
    (EffectNode.h) is not among the sources; it is the record of the
    fields that the implementation reads and writes, the ring of
    framebuffers and the ring cursor. *)
Record EffectNodeRenderState : Type := mkRenderState {
  m_intermediate : list QOpenGLFramebufferObject;
  m_textureIndex : Z
}.

(** Modelled from the spec: the default constructor of
    [EffectNodeRenderState] is not among the sources; a fresh state is
    empty, and its cursor is taken to start at 0. *)
Definition EffectNodeRenderState_new : EffectNodeRenderState :=
  mkRenderState [] 0.

(** The fields of [EffectNode] (and of its base [VideoNode]) that the
    implementation uses. [m_renderStates] maps a chain's address to the
    address of its render state. *)
Record EffectNode : Type := mkEffectNode {
  m_inputCount : Z;
  m_name : string;
  m_intensity : qreal;
  m_intensityIntegral : qreal;
  m_realTime : qreal;
  m_realTimeLast : qreal;
  m_programs : list QOpenGLShaderProgram;
  m_ready : bool;
  m_renderStates : gmap nat nat
}.

Inductive Signal : Type :=
| intensityChanged (value : qreal)
| nameChanged (name : string)
| fatal (msg : string)
| initialized.

(** The lines written with [qDebug()]. *)
Inductive DebugLine : Type :=
| dbg_is_not_ready
| dbg_does_not_have_chain (chain : nat)
| dbg_chain_was_deleted_during_rendering
| dbg_load_program_failed
| dbg_setting_property (name value : string).

(** The fields a method assigns; [F_state l] is a write through the
    pointer [l] to a render state. *)
Inductive Field : Type :=
| F_ready | F_name | F_intensity | F_programs
| F_realTime | F_realTimeLast | F_renderStates
| F_state (l : nat).

Inductive Event : Type :=
| EvLock                      (* QMutexLocker locker(&m_stateLock) *)
| EvUnlock                    (* the locker leaves its scope *)
| EvAssign (f : Field)
| EvEmit (s : Signal)
| EvInvoke (method : string)  (* QMetaObject::invokeMethod(m_openGLWorker, method) *)
| EvDebug (d : DebugLine)
| EvGL (c : GLCall).

(** The node a method runs on, the store of render states, and the next
    texture name the OpenGL context hands out. *)
Record Store : Type := mkStore {
  this : EffectNode;
  heap : gmap nat EffectNodeRenderState;
  gl_next : GLuint
}.

(** A method: it may abort ([None]: a failed [Q_ASSERT], an index out of
    range, a null pointer), and otherwise returns a value, the new store
    and the events it produced, oldest first. *)
Definition M (A : Type) : Type := Store -> option (A * Store * list Event).

Definition ret {A} (a : A) : M A := fun s => Some (a, s, []).
Definition bind {A B} (m : M A) (k : A -> M B) : M B :=
  fun s => match m s with
           | None => None
           | Some (a, s1, e1) =>
               match k a s1 with
               | None => None
               | Some (b, s2, e2) => Some (b, s2, e1 ++ e2)
               end
           end.
Definition abort {A} : M A := fun _ => None.
Definition get : M Store := fun s => Some (s, s, []).
Definition put (s : Store) : M unit := fun _ => Some (tt, s, []).
Definition event (e : Event) : M unit := fun s => Some (tt, s, [e]).
Definition lift {A} (o : option A) : M A :=
  fun s => match o with Some a => Some (a, s, []) | None => None end.

Declare Scope node_scope.
Delimit Scope node_scope with node.
Notation "'do' x <- m ; k" := (bind m (fun x => k))
  (at level 10, x name, m at level 100, k at level 200) : node_scope.
Notation "m ;; k" := (bind m (fun _ => k))
  (at level 100, k at level 200, right associativity) : node_scope.
Open Scope node_scope.

Definition get_this : M EffectNode := do s <- get; ret (this s).
Definition set_this (f : Field) (n : EffectNode) : M unit :=
  do s <- get; put (mkStore n (heap s) (gl_next s));; event (EvAssign f).

(** [*p]: a null or dangling pointer aborts. *)
Definition deref (l : nat) : M EffectNodeRenderState :=
  do s <- get; lift (heap s !! l).
(** [*p = r]. *)
Definition store (l : nat) (r : EffectNodeRenderState) : M unit :=
  do s <- get;
  match heap s !! l with
  | None => abort
  | Some _ => put (mkStore (this s) (<[l := r]> (heap s)) (gl_next s));;
              event (EvAssign (F_state l))
  end.
(** [new EffectNodeRenderState(r)]: an address not in use. *)
Definition new_state (r : EffectNodeRenderState) : M nat :=
  do s <- get;
  let l := fresh (dom (heap s)) in
  put (mkStore (this s) (<[l := r]> (heap s)) (gl_next s));; ret l.

Definition gl (c : GLCall) : M unit := event (EvGL c).
Definition qDebug (d : DebugLine) : M unit := event (EvDebug d).
Definition emit (sg : Signal) : M unit := event (EvEmit sg).

(** [QVector::at(i)] / [QList::at(i)]: the index must be in range. *)
Definition at_ {A} (v : list A) (i : Z) : option A :=
  if i <? 0 then None else v !! Z.to_nat i.

(** [for (int i = lo; i < hi; i++) body(i)], given [count = hi - lo]. *)
Fixpoint for_up (lo : Z) (count : nat) (body : Z -> M unit) : M unit :=
  match count with
  | O => ret tt
  | S c => body lo;; for_up (lo + 1) c body
  end.

(** [for (int j = count - 1; j >= 0; j--) body(j)]. *)
Fixpoint for_down (count : nat) (body : Z -> M unit) : M unit :=
  match count with
  | O => ret tt
  | S c => body (Z.of_nat c);; for_down c body
  end.

End Node.

(** ** EffectNode *)

Module EffectNodeImpl.
Import Values Node.
Local Open Scope list_scope.
Local Open Scope node_scope.

Definition with_intensity (v : qreal) (n : EffectNode) : EffectNode :=
  mkEffectNode (m_inputCount n) (m_name n) v (m_intensityIntegral n)
    (m_realTime n) (m_realTimeLast n) (m_programs n) (m_ready n) (m_renderStates n).
Definition with_name (v : string) (n : EffectNode) : EffectNode :=
  mkEffectNode (m_inputCount n) v (m_intensity n) (m_intensityIntegral n)
    (m_realTime n) (m_realTimeLast n) (m_programs n) (m_ready n) (m_renderStates n).
Definition with_ready (v : bool) (n : EffectNode) : EffectNode :=
  mkEffectNode (m_inputCount n) (m_name n) (m_intensity n) (m_intensityIntegral n)
    (m_realTime n) (m_realTimeLast n) (m_programs n) v (m_renderStates n).
Definition with_programs (v : list QOpenGLShaderProgram) (n : EffectNode) : EffectNode :=
  mkEffectNode (m_inputCount n) (m_name n) (m_intensity n) (m_intensityIntegral n)
    (m_realTime n) (m_realTimeLast n) v (m_ready n) (m_renderStates n).
Definition with_realTime (v : qreal) (n : EffectNode) : EffectNode :=
  mkEffectNode (m_inputCount n) (m_name n) (m_intensity n) (m_intensityIntegral n)
    v (m_realTimeLast n) (m_programs n) (m_ready n) (m_renderStates n).
Definition with_realTimeLast (v : qreal) (n : EffectNode) : EffectNode :=
  mkEffectNode (m_inputCount n) (m_name n) (m_intensity n) (m_intensityIntegral n)
    (m_realTime n) v (m_programs n) (m_ready n) (m_renderStates n).
Definition with_renderStates (v : gmap nat nat) (n : EffectNode) : EffectNode :=
  mkEffectNode (m_inputCount n) (m_name n) (m_intensity n) (m_intensityIntegral n)
    (m_realTime n) (m_realTimeLast n) (m_programs n) (m_ready n) v.

(** [EffectNode::EffectNode()]: intensity 0, not ready, one input, no
    program, no chain. The members the constructor leaves to their
    declarations (EffectNode.h, not among the sources) are arguments. *)
Definition EffectNode_new (integral realTime realTimeLast : qreal) : EffectNode :=
  mkEffectNode 1 "" q_zero integral realTime realTimeLast [] false ∅.

(** [EffectNode::onInitialized]. *)
Definition onInitialized : M unit :=
  do n <- get_this; set_this F_ready (with_ready true n).

(** [EffectNode::chainsEdited]. *)
Definition chainsEdited (added removed : list Chain) : M unit :=
  event EvLock;;
  for_up 0 (length added) (fun i =>
    do c <- lift (at_ added i);
    do l <- new_state EffectNodeRenderState_new;
    do n <- get_this;
    set_this F_renderStates
      (with_renderStates (<[chain_ptr c := l]> (m_renderStates n)) n));;
  for_up 0 (length removed) (fun i =>
    do c <- lift (at_ removed i);
    do n <- get_this;
    set_this F_renderStates
      (with_renderStates (delete (chain_ptr c) (m_renderStates n)) n));;
  event EvUnlock.

(** [EffectNode::intensity]. *)
Definition intensity : M qreal :=
  do n <- get_this; ret (m_intensity n).

(** [EffectNode::setIntensity]. *)
Definition setIntensity (value : qreal) : M unit :=
  event EvLock;;
  let value := if q_lt q_one value then q_one else value in
  let value := if q_lt value q_zero then q_zero else value in
  do n <- get_this;
  if q_eq (m_intensity n) value then
    event EvUnlock
  else
    set_this F_intensity (with_intensity value n);;
    event EvUnlock;;
    emit (intensityChanged value).

(** [QMetaObject::invokeMethod(m_openGLWorker.data(), method)]: the call
    is posted to the worker; the worker declares the slot, so the result
    is [true]. *)
Definition invokeMethod (method : string) : M bool :=
  event (EvInvoke method);; ret true.

(** [Q_ASSERT(cond)]. *)
Definition Q_ASSERT (cond : bool) : M unit :=
  if cond then ret tt else abort.

(** [EffectNode::name]. *)
Definition name : M string :=
  do n <- get_this; ret (m_name n).

(** [EffectNode::setName]. *)
Definition setName (name : string) : M unit :=
  do n <- get_this;
  if negb (String.eqb name (m_name n)) then
    set_this F_ready (with_ready false n);;
    event EvLock;;
    (do n <- get_this; set_this F_name (with_name name n));;
    event EvUnlock;;
    do result <- invokeMethod "initialize";
    Q_ASSERT result;;
    emit (nameChanged name)
  else ret tt.

(** [EffectNode::reload]. *)
Definition reload : M unit :=
  (do n <- get_this; set_this F_ready (with_ready false n));;
  do result <- invokeMethod "initialize";
  Q_ASSERT result.

(** [EffectNode::EffectNode(const EffectNode &other)]: the base and the
    members that the initialiser list names (intensity, intensity
    integral, programs, ready) are copied from [other], and every render
    state is cloned into a new object. The list does not name [m_name],
    [m_realTime] and [m_realTimeLast]: the copy gets what their
    declarations give them (EffectNode.h, not among the sources), here
    the arguments [name], [realTime] and [realTimeLast].
    Modelled from the spec: the copy constructor of the base [VideoNode]
    is not among the sources; it copies the input count. *)
Definition copy_construct (name : string) (realTime realTimeLast : qreal)
    (other : EffectNode) : M EffectNode :=
  let k := map_to_list (m_renderStates other) in
  let fix clone (k : list (nat * nat)) (acc : gmap nat nat) : M (gmap nat nat) :=
    match k with
    | [] => ret acc
    | (c, l) :: k' =>
        do otherRenderState <- deref l;
        do l' <- new_state otherRenderState;
        clone k' (<[c := l']> acc)
    end in
  do states <- clone k ∅;
  ret (mkEffectNode (m_inputCount other) name (m_intensity other)
         (m_intensityIntegral other) realTime realTimeLast
         (m_programs other) (m_ready other) states).

(** [EffectNode::createCopyForRendering]; the arguments are those of the
    copy constructor. *)
Definition createCopyForRendering (name : string) (realTime realTimeLast : qreal)
  : M EffectNode :=
  event EvLock;;
  do n <- get_this;
  do v <- copy_construct name realTime realTimeLast n;
  event EvUnlock;;
  ret v.

(** [EffectNode::copyBackRenderState]; [copy] is the node that was
    painted. [QMap::value] of an absent key is a null pointer. *)
Definition copyBackRenderState (chain : Chain) (copy : EffectNode) : M unit :=
  event EvLock;;
  do n <- get_this;
  match m_renderStates n !! chain_ptr chain with
  | Some l =>
      do src <- lift (m_renderStates copy !! chain_ptr chain);
      do r <- deref src;
      store l r
  | None => qDebug dbg_chain_was_deleted_during_rendering
  end;;
  event EvUnlock.

(** [std::iota(first, first + count, start)]. *)
Fixpoint iota (count : nat) (start : Z) : list GLuint :=
  match count with
  | O => []
  | S c => start :: iota c (start + 1)
  end.

(** [QSharedPointer<QOpenGLFramebufferObject>::create(size, fmt)]: the
    context hands out the next texture name. *)
Definition fbo_new (size : QSize) : M QOpenGLFramebufferObject :=
  do s <- get;
  let f := mkFbo size (gl_next s) in
  put (mkStore (this s) (heap s) (gl_next s + 1));;
  gl (fbo_create f);;
  ret f.

(** The ring slot pass [j] renders into, and the ring slot bound as
    channel [k] while pass [j] runs; [ti] is [m_textureIndex] and [P] is
    [m_programs.size()]. *)
Definition fboIndex (ti P j : Z) : Z := Z.rem (ti + j + 1) (P + 1).
Definition chanIndex (ti P j k : Z) : Z :=
  Z.rem (ti + k + (if j <? k then 1 else 0)) (P + 1).

Definition is_nil {A} (l : list A) : bool :=
  match l with [] => true | _ => false end.

(** [EffectNode::paint]. *)
Definition paint (amb : Ambient) (chain : Chain) (inputTextures : list GLuint) : M GLuint :=
  let outTexture := 0 in
  do n <- get_this;
  if negb (m_ready n) then
    qDebug dbg_is_not_ready;; ret outTexture
  else
  match m_renderStates n !! chain_ptr chain with
  | None => qDebug (dbg_does_not_have_chain (chain_ptr chain));; ret outTexture
  | Some renderState =>
    let P := Z.of_nat (length (m_programs n)) in
    do rs <- deref renderState;
    (if is_nil (m_intermediate rs) then
       for_up 0 (Z.to_nat (P + 1)) (fun _ =>
         do fbo <- fbo_new (chain_size chain);
         do rs <- deref renderState;
         store renderState
           (mkRenderState (m_intermediate rs ++ [fbo]) (m_textureIndex rs)))
     else ret tt);;
    gl (glClearColor 0 0 0 0);;
    gl (glDisable GL_DEPTH_TEST);;
    gl (glDisable GL_BLEND);;
    let chanTex := iota (length (m_programs n)) (1 + m_inputCount n) in
    let inputTex := iota (Z.to_nat (m_inputCount n)) 0 in
    let time := beat amb in
    (do n <- get_this; set_this F_realTimeLast (with_realTimeLast (m_realTime n) n));;
    (do n <- get_this; set_this F_realTime (with_realTime (wallTime amb) n));;
    do n <- get_this;
    let step := q_sub (m_realTime n) (m_realTimeLast n) in
    let size := chain_size chain in
    gl (glViewport 0 0 (width size) (height size));;
    for_down (length (m_programs n)) (fun j =>
      do rs <- deref renderState;
      let fboIndex := fboIndex (m_textureIndex rs) P j in
      do p <- lift (at_ (m_programs n) j);
      gl (program_bind p);;
      do fbo <- lift (at_ (m_intermediate rs) fboIndex);
      gl (fbo_bind fbo);;
      for_up 0 (Z.to_nat (m_inputCount n)) (fun k =>
        gl (glActiveTexture k);;
        do t <- lift (at_ inputTextures k);
        gl (glBindTexture t));;
      gl (glActiveTexture (m_inputCount n));;
      gl (glBindTexture (noiseTexture chain));;
      for_up 0 (length (m_programs n)) (fun k =>
        gl (glActiveTexture (1 + m_inputCount n + k));;
        do f <- lift (at_ (m_intermediate rs) (chanIndex (m_textureIndex rs) P j k));
        gl (glBindTexture (texture f)));;
      do intense <- intensity;
      gl (setUniformValue p "iIntensity" (UFloat (GLfloat_of_qreal intense)));;
      gl (setUniformValue p "iIntensityIntegral"
            (UFloat (GLfloat_of_qreal (m_intensityIntegral n))));;
      gl (setUniformValue p "iStep" (UFloat (GLfloat_of_qreal step)));;
      gl (setUniformValue p "iTime" (UFloat (GLfloat_of_qreal time)));;
      gl (setUniformValue p "iFPS" (UFloat (GLfloat_of_qreal (FPS amb))));;
      gl (setUniformValue p "iAudio"
            (UVec4 (GLfloat_of_qreal (audioLow amb)) (GLfloat_of_qreal (audioMid amb))
                   (GLfloat_of_qreal (audioHi amb)) (GLfloat_of_qreal (audioLevel amb))));;
      gl (setUniformValue p "iInputs" (UUintArray inputTex));;
      gl (setUniformValue p "iNoise" (UInt (m_inputCount n)));;
      gl (setUniformValue p "iResolution"
            (UVec2 (GLfloat_of_int (width size)) (GLfloat_of_int (height size))));;
      gl (setUniformValue p "iChannel" (UUintArray chanTex));;
      gl (glDrawArrays 0 4);;
      gl (fbo_release fbo);;
      gl (program_release p);;
      gl (glActiveTexture 0));;
    do rs <- deref renderState;
    do out <- lift (at_ (m_intermediate rs) (Z.rem (m_textureIndex rs + 1) (P + 1)));
    let outTexture := texture out in
    store renderState
      (mkRenderState (m_intermediate rs) (Z.rem (m_textureIndex rs + 1) (P + 1)));;
    ret outTexture
  end.

End EffectNodeImpl.

(** ** EffectNodeOpenGLWorker: the loader *)

Module Loader.
Import Text Grammar Values Node EffectNodeImpl.
Local Open Scope list_scope.
Local Open Scope node_scope.

(** The files the loader can see: whether the path is a regular file
    ([QFileInfo::isFile]), whether [QFile::open(ReadOnly)] succeeds, and
    the text. A path that is not in the map does not exist. *)
Record FileEntry : Type :=
  mkFile { fe_isFile : bool; fe_readable : bool; fe_content : string }.

Definition QFile_open (fs : gmap string FileEntry) (path : string) : option string :=
  match fs !! path with
  | Some e => if fe_isFile e && fe_readable e then Some (fe_content e) else None
  | None => None
  end.

Definition exists_and_isFile (fs : gmap string FileEntry) (path : string) : bool :=
  match fs !! path with
  | Some e => fe_isFile e
  | None => false
  end.

(** The GLSL compiler and linker of the context:
    [addShaderFromSourceCode] and [link] report success or failure. *)
Inductive ShaderStage : Type := Vertex | Fragment.
Record GLCompiler : Type := mkCompiler {
  compiles : ShaderStage -> string -> bool;
  links : string -> string -> bool
}.

Definition header_path : string := "../resources/glsl/effect_header.glsl".

Definition vertexString : string :=
  "#version 130" +:+ nl +:+
  "#extension GL_ARB_shading_language_420pack : enable" +:+ nl +:+
  "const vec2 varray[4] = { vec2( 1., 1.),vec2(1., -1.),vec2(-1., 1.),vec2(-1., -1.)};" +:+ nl +:+
  "out vec2 coords;" +:+ nl +:+
  "void main() {" +:+
  "    vec2 vertex = varray[gl_VertexID];" +:+ nl +:+
  "    gl_Position = vec4(vertex,0.,1.);" +:+ nl +:+
  "    coords = vertex;" +:+ nl +:+
  "}".

(** The message [Could not open %1], the path in double quotes. *)
Definition could_not_open (path : string) : string :=
  "Could not open " +:+ dquote +:+ path +:+ dquote.

(** The message [No shaders found for %1], the name in double quotes. *)
Definition no_shaders_found (name : string) : string :=
  "No shaders found for " +:+ dquote +:+ name +:+ dquote.

(** The marker [#line %1] for a line number. *)
Definition line_marker (lineno : nat) : string := "#line " +:+ number lineno.

(** [passes.back().append(x)]: [back()] needs a non-empty vector. *)
Fixpoint back_append (passes : list (list string)) (x : string)
  : option (list (list string)) :=
  match passes with
  | [] => None
  | [p] => Some [p ++ [x]]
  | p :: rest =>
      match back_append rest x with
      | Some rest' => Some (p :: rest')
      | None => None
      end
  end.

(** The body of the reading loop, over the lines still to be read. *)
Fixpoint parse_lines (lines : list string) (lineno : nat)
    (passes : list (list string)) (props : gmap string string)
  : M (list (list string) * gmap string string) :=
  match lines with
  | [] => ret (passes, props)
  | next_line :: rest =>
      match property_reg next_line with
      | Some (name, value) =>
          let props := <[name := value]> props in
          do passes <- lift (back_append passes (line_marker lineno));
          qDebug (dbg_setting_property name value);;
          parse_lines rest (S lineno) passes props
      | None =>
          if buffershader_reg next_line then
            parse_lines rest (S lineno) (passes ++ [[line_marker lineno]]) props
          else
            do passes <- lift (back_append passes next_line);
            parse_lines rest (S lineno) passes props
      end
  end.

(** The reading loop of [loadProgram] on the text of the effect file,
    from its initial [passes], [props] and [lineno]. *)
Definition parse_source (text : string)
  : M (list (list string) * gmap string string) :=
  let passes := [["#line 0"]] in
  let props : gmap string string := {["inputCount" := "1"]} in
  let lineno := O in
  parse_lines (readLines text) lineno passes props.

(** The loop over the passes; [None] is the early [return false]. *)
Fixpoint build_programs (glc : GLCompiler) (headerString : string)
    (passes : list (list string)) (programs : list QOpenGLShaderProgram)
  : M (option (list QOpenGLShaderProgram)) :=
  match passes with
  | [] => ret (Some programs)
  | pass :: rest =>
      if negb (compiles glc Vertex vertexString) then
        emit (fatal "Could not compile vertex shader");; ret None
      else
        let frag := headerString +:+ nl +:+ join nl pass in
        if negb (compiles glc Fragment frag) then
          emit (fatal "Could not compile fragment shader");; ret None
        else if negb (links glc vertexString frag) then
          emit (fatal "Could not link shader program");; ret None
        else
          build_programs glc headerString rest
            (programs ++ [mkProgram vertexString frag])
  end.

(** [EffectNodeOpenGLWorker::loadProgram]; the node [m_p] is [this]. *)
Definition loadProgram (fs : gmap string FileEntry) (glc : GLCompiler)
    (name : string) : M bool :=
  do n <- get_this;
  Q_ASSERT (negb (m_ready n));;
  match QFile_open fs header_path with
  | None =>
      emit (fatal (could_not_open "../resources/effect_header.glsl"));;
      ret false
  | Some headerString =>
      let filename := "../resources/effects/" +:+ name +:+ ".glsl" in
      if negb (exists_and_isFile fs filename) then
        emit (fatal (could_not_open filename));; ret false
      else
      match QFile_open fs filename with
      | None => emit (fatal (could_not_open filename));; ret false
      | Some text =>
          do parsed <- parse_source text;
          let passes := fst parsed in
          let props := snd parsed in
          do built <- build_programs glc headerString passes [];
          match built with
          | None => ret false
          | Some programs =>
              if is_nil programs then
                emit (fatal (no_shaders_found name));; ret false
              else
                event EvLock;;
                (do n <- get_this; set_this F_programs (with_programs programs n));;
                event EvUnlock;;
                ret true
          end
      end
  end.

(** [EffectNodeOpenGLWorker::initialize]. *)
Definition initialize (fs : gmap string FileEntry) (glc : GLCompiler) : M unit :=
  gl makeCurrent;;
  do n <- get_this;
  do result <- loadProgram fs glc (m_name n);
  if negb result then
    qDebug dbg_load_program_failed
  else
    gl glFlush;;
    emit initialized.

Definition is_initialized (e : Event) : bool :=
  match e with EvEmit initialized => true | _ => false end.

(** A load from the node's side: the worker runs [initialize], and the
    connection of its signal [initialized] to [EffectNode::onInitialized]
    runs that slot when the signal was emitted. *)
Definition load (fs : gmap string FileEntry) (glc : GLCompiler) : M unit :=
  fun s =>
    match initialize fs glc s with
    | None => None
    | Some (_, s1, ev) =>
        if existsb is_initialized ev then
          match onInitialized s1 with
          | Some (_, s2, ev') => Some (tt, s2, ev ++ ev')
          | None => None
          end
        else Some (tt, s1, ev)
    end.

End Loader.

(** ** What an observer sees *)

Module Observe.
Import Values Node EffectNodeImpl.
Local Open Scope list_scope.
Local Open Scope node_scope.

(** The OpenGL calls among the events. *)
Definition gl_calls (ev : list Event) : list GLCall :=
  omap (fun e => match e with EvGL c => Some c | _ => None end) ev.

(** The signals among the events. *)
Definition signals (ev : list Event) : list Signal :=
  omap (fun e => match e with EvEmit sg => Some sg | _ => None end) ev.

(** The fields assigned among the events. *)
Definition assigned (ev : list Event) : list Field :=
  omap (fun e => match e with EvAssign f => Some f | _ => None end) ev.

(** The part of the OpenGL state machine that the calls of [paint]
    act on: the program in use, the framebuffer drawn into, the active
    texture unit, the texture bound to each unit, and the uniforms set
    on the program since it was bound, by name. *)
Record GLState : Type := mkGL {
  gl_program : option QOpenGLShaderProgram;
  gl_framebuffer : option QOpenGLFramebufferObject;
  gl_active : Z;
  gl_units : gmap Z GLuint;
  gl_uniforms : gmap string UniformValue
}.

Definition gl_exec (g : GLState) (c : GLCall) : GLState :=
  match c with
  | program_bind p =>
      mkGL (Some p) (gl_framebuffer g) (gl_active g) (gl_units g) ∅
  | program_release _ =>
      mkGL None (gl_framebuffer g) (gl_active g) (gl_units g) ∅
  | fbo_bind f =>
      mkGL (gl_program g) (Some f) (gl_active g) (gl_units g) (gl_uniforms g)
  | fbo_release _ =>
      mkGL (gl_program g) None (gl_active g) (gl_units g) (gl_uniforms g)
  | glActiveTexture u =>
      mkGL (gl_program g) (gl_framebuffer g) u (gl_units g) (gl_uniforms g)
  | glBindTexture t =>
      mkGL (gl_program g) (gl_framebuffer g) (gl_active g)
           (<[gl_active g := t]> (gl_units g)) (gl_uniforms g)
  | setUniformValue _ name v =>
      mkGL (gl_program g) (gl_framebuffer g) (gl_active g) (gl_units g)
           (<[name := v]> (gl_uniforms g))
  | _ => g
  end.

(** The state of the machine at every [glDrawArrays], in order: what
    each draw reads and where it writes. *)
Fixpoint gl_draws (g : GLState) (calls : list GLCall) : list GLState :=
  match calls with
  | [] => []
  | glDrawArrays _ _ :: rest => g :: gl_draws g rest
  | c :: rest => gl_draws (gl_exec g c) rest
  end.

(** The render state a node holds for a chain. *)
Definition render_state (s : Store) (n : EffectNode) (chain : nat)
  : option EffectNodeRenderState :=
  match m_renderStates n !! chain with
  | Some l => heap s !! l
  | None => None
  end.

(** The ring cursor a node holds for a chain. *)
Definition ringIndex (s : Store) (n : EffectNode) (chain : nat) : option Z :=
  m_textureIndex <$> render_state s n chain.

(** Paint calls one after the other on the same node and chain, each
    with its own surroundings and input textures; the textures returned. *)
Fixpoint paint_calls (chain : Chain) (calls : list (Ambient * list GLuint))
  : M (list GLuint) :=
  match calls with
  | [] => ret []
  | (amb, inputTextures) :: rest =>
      do t <- paint amb chain inputTextures;
      do ts <- paint_calls chain rest;
      ret (t :: ts)
  end.

(** The value [setIntensity] stores for an argument: the argument
    clamped to the range from 0 to 1. *)
Definition clamped (x : qreal) : qreal :=
  if q_lt q_one x then q_one else if q_lt x q_zero then q_zero else x.

(** No two chains of the node share a render state, and every render
    state of the node is allocated. *)
Definition states_separate (s : Store) (n : EffectNode) : Prop :=
  (forall c1 c2 l, m_renderStates n !! c1 = Some l ->
                   m_renderStates n !! c2 = Some l -> c1 = c2) /\
  (forall c l, m_renderStates n !! c = Some l -> is_Some (heap s !! l)).

(** The two loop bodies of [chainsEdited], for one chain. *)
Definition add_chain (c : Chain) : M unit :=
  bind (new_state EffectNodeRenderState_new) (fun l =>
  bind get_this (fun n =>
  set_this F_renderStates
    (with_renderStates (<[chain_ptr c := l]> (m_renderStates n)) n))).

Definition remove_chain (c : Chain) : M unit :=
  bind get_this (fun n =>
  set_this F_renderStates
    (with_renderStates (delete (chain_ptr c) (m_renderStates n)) n)).

(** *** The loop bodies of paint, by name *)

(** The body of the loop that fills an empty ring. *)
Definition paint_alloc (chain : Chain) (renderState : nat) : M unit :=
  bind (fbo_new (chain_size chain)) (fun fbo =>
  bind (deref renderState) (fun rs =>
  store renderState
    (mkRenderState (m_intermediate rs ++ [fbo]) (m_textureIndex rs)))).

(** The body of the loop over the passes; [n0] is the node at the start
    of the paint and [n] the node after the two time stamps were
    assigned. *)
Definition paint_pass (n0 n : EffectNode) (amb : Ambient) (chain : Chain)
    (inputTextures : list GLuint) (renderState : nat) (j : Z) : M unit :=
  let P := Z.of_nat (length (m_programs n0)) in
  let chanTex := iota (length (m_programs n0)) (1 + m_inputCount n0) in
  let inputTex := iota (Z.to_nat (m_inputCount n0)) 0 in
  let time := beat amb in
  let step := q_sub (m_realTime n) (m_realTimeLast n) in
  let size := chain_size chain in
  bind (deref renderState) (fun rs =>
  let fboIndex := fboIndex (m_textureIndex rs) P j in
  bind (lift (at_ (m_programs n) j)) (fun p =>
  bind (gl (program_bind p)) (fun _ =>
  bind (lift (at_ (m_intermediate rs) fboIndex)) (fun fbo =>
  bind (gl (fbo_bind fbo)) (fun _ =>
  bind (for_up 0 (Z.to_nat (m_inputCount n)) (fun k =>
          bind (gl (glActiveTexture k)) (fun _ =>
          bind (lift (at_ inputTextures k)) (fun t =>
          gl (glBindTexture t))))) (fun _ =>
  bind (gl (glActiveTexture (m_inputCount n))) (fun _ =>
  bind (gl (glBindTexture (noiseTexture chain))) (fun _ =>
  bind (for_up 0 (length (m_programs n)) (fun k =>
          bind (gl (glActiveTexture (1 + m_inputCount n + k))) (fun _ =>
          bind (lift (at_ (m_intermediate rs)
                        (chanIndex (m_textureIndex rs) P j k))) (fun f =>
          gl (glBindTexture (texture f)))))) (fun _ =>
  bind intensity (fun intense =>
  bind (gl (setUniformValue p "iIntensity" (UFloat (GLfloat_of_qreal intense)))) (fun _ =>
  bind (gl (setUniformValue p "iIntensityIntegral"
              (UFloat (GLfloat_of_qreal (m_intensityIntegral n))))) (fun _ =>
  bind (gl (setUniformValue p "iStep" (UFloat (GLfloat_of_qreal step)))) (fun _ =>
  bind (gl (setUniformValue p "iTime" (UFloat (GLfloat_of_qreal time)))) (fun _ =>
  bind (gl (setUniformValue p "iFPS" (UFloat (GLfloat_of_qreal (FPS amb))))) (fun _ =>
  bind (gl (setUniformValue p "iAudio"
              (UVec4 (GLfloat_of_qreal (audioLow amb)) (GLfloat_of_qreal (audioMid amb))
                     (GLfloat_of_qreal (audioHi amb))
                     (GLfloat_of_qreal (audioLevel amb))))) (fun _ =>
  bind (gl (setUniformValue p "iInputs" (UUintArray inputTex))) (fun _ =>
  bind (gl (setUniformValue p "iNoise" (UInt (m_inputCount n)))) (fun _ =>
  bind (gl (setUniformValue p "iResolution"
              (UVec2 (GLfloat_of_int (width size)) (GLfloat_of_int (height size))))) (fun _ =>
  bind (gl (setUniformValue p "iChannel" (UUintArray chanTex))) (fun _ =>
  bind (gl (glDrawArrays 0 4)) (fun _ =>
  bind (gl (fbo_release fbo)) (fun _ =>
  bind (gl (program_release p)) (fun _ =>
  gl (glActiveTexture 0)))))))))))))))))))))))).

(** [paint] past its two guards, for the render state at [renderState]. *)
Definition paint_attached (amb : Ambient) (chain : Chain) (inputTextures : list GLuint)
    (renderState : nat) : M GLuint :=
  bind get_this (fun n0 =>
  let P := Z.of_nat (length (m_programs n0)) in
  bind (deref renderState) (fun rs =>
  bind (for_up 0 (if is_nil (m_intermediate rs) then Z.to_nat (P + 1) else O)
          (fun _ => paint_alloc chain renderState)) (fun _ =>
  bind (gl (glClearColor 0 0 0 0)) (fun _ =>
  bind (gl (glDisable GL_DEPTH_TEST)) (fun _ =>
  bind (gl (glDisable GL_BLEND)) (fun _ =>
  bind (bind get_this (fun n =>
          set_this F_realTimeLast (with_realTimeLast (m_realTime n) n))) (fun _ =>
  bind (bind get_this (fun n =>
          set_this F_realTime (with_realTime (wallTime amb) n))) (fun _ =>
  bind get_this (fun n =>
  bind (gl (glViewport 0 0 (width (chain_size chain)) (height (chain_size chain)))) (fun _ =>
  bind (for_down (length (m_programs n))
          (paint_pass n0 n amb chain inputTextures renderState)) (fun _ =>
  bind (deref renderState) (fun rs =>
  bind (lift (at_ (m_intermediate rs) (Z.rem (m_textureIndex rs + 1) (P + 1)))) (fun out =>
  bind (store renderState
          (mkRenderState (m_intermediate rs) (Z.rem (m_textureIndex rs + 1) (P + 1))))
       (fun _ =>
  ret (texture out))))))))))))))).

(** *** The events of a paint, as lists

    The loops of [paint] that only read the store, written as functions
    to the events they produce ([None]: an index out of range). *)

Definition emits (o : option (list Event)) : M unit :=
  fun s => match o with Some ev => Some (tt, s, ev) | None => None end.

Fixpoint for_up_events (f : Z -> option (list Event)) (lo : Z) (count : nat)
  : option (list Event) :=
  match count with
  | O => Some []
  | S c =>
      match f lo, for_up_events f (lo + 1) c with
      | Some e, Some es => Some (e ++ es)
      | _, _ => None
      end
  end.

Fixpoint for_down_events (f : Z -> option (list Event)) (count : nat)
  : option (list Event) :=
  match count with
  | O => Some []
  | S c =>
      match f (Z.of_nat c), for_down_events f c with
      | Some e, Some es => Some (e ++ es)
      | _, _ => None
      end
  end.

(** Binding input [k] and binding channel [k] while pass [j] runs. *)
Definition input_events (inputTextures : list GLuint) (k : Z) : option (list Event) :=
  match at_ inputTextures k with
  | Some t => Some [EvGL (glActiveTexture k); EvGL (glBindTexture t)]
  | None => None
  end.

Definition channel_events (inputCount : Z) (ring : list QOpenGLFramebufferObject)
    (ti P j k : Z) : option (list Event) :=
  match at_ ring (chanIndex ti P j k) with
  | Some f => Some [EvGL (glActiveTexture (1 + inputCount + k));
                    EvGL (glBindTexture (texture f))]
  | None => None
  end.

(** The uniforms of one pass. *)
Definition uniform_events (n : EffectNode) (amb : Ambient) (chain : Chain)
    (p : QOpenGLShaderProgram) : list Event :=
  let step := q_sub (m_realTime n) (m_realTimeLast n) in
  let size := chain_size chain in
  [EvGL (setUniformValue p "iIntensity" (UFloat (GLfloat_of_qreal (m_intensity n))));
   EvGL (setUniformValue p "iIntensityIntegral"
           (UFloat (GLfloat_of_qreal (m_intensityIntegral n))));
   EvGL (setUniformValue p "iStep" (UFloat (GLfloat_of_qreal step)));
   EvGL (setUniformValue p "iTime" (UFloat (GLfloat_of_qreal (beat amb))));
   EvGL (setUniformValue p "iFPS" (UFloat (GLfloat_of_qreal (FPS amb))));
   EvGL (setUniformValue p "iAudio"
           (UVec4 (GLfloat_of_qreal (audioLow amb)) (GLfloat_of_qreal (audioMid amb))
                  (GLfloat_of_qreal (audioHi amb)) (GLfloat_of_qreal (audioLevel amb))));
   EvGL (setUniformValue p "iInputs" (UUintArray (iota (Z.to_nat (m_inputCount n)) 0)));
   EvGL (setUniformValue p "iNoise" (UInt (m_inputCount n)));
   EvGL (setUniformValue p "iResolution"
           (UVec2 (GLfloat_of_int (width size)) (GLfloat_of_int (height size))));
   EvGL (setUniformValue p "iChannel"
           (UUintArray (iota (length (m_programs n)) (1 + m_inputCount n))))].

(** Pass [j] of a paint of node [n] with the ring [ring] and the cursor
    [ti]. *)
Definition pass_events (n : EffectNode) (amb : Ambient) (chain : Chain)
    (inputTextures : list GLuint) (ring : list QOpenGLFramebufferObject)
    (ti : Z) (j : Z) : option (list Event) :=
  let P := Z.of_nat (length (m_programs n)) in
  match at_ (m_programs n) j, at_ ring (fboIndex ti P j),
        for_up_events (input_events inputTextures) 0 (Z.to_nat (m_inputCount n)),
        for_up_events (channel_events (m_inputCount n) ring ti P j) 0
                      (length (m_programs n)) with
  | Some p, Some fbo, Some ein, Some ech =>
      Some ([EvGL (program_bind p); EvGL (fbo_bind fbo)] ++ ein ++
            [EvGL (glActiveTexture (m_inputCount n));
             EvGL (glBindTexture (noiseTexture chain))] ++ ech ++
            uniform_events n amb chain p ++
            [EvGL (glDrawArrays 0 4); EvGL (fbo_release fbo);
             EvGL (program_release p); EvGL (glActiveTexture 0)])
  | _, _, _, _ => None
  end.

(** The framebuffers the context creates one after the other, from the
    texture name [start] on. *)
Fixpoint fresh_fbos (size : QSize) (start : GLuint) (count : nat)
  : list QOpenGLFramebufferObject :=
  match count with
  | O => []
  | S c => mkFbo size start :: fresh_fbos size (start + 1) c
  end.

Definition alloc_events (l : nat) (fbos : list QOpenGLFramebufferObject) : list Event :=
  flat_map (fun f => [EvGL (fbo_create f); EvAssign (F_state l)]) fbos.

(** The machine after a list of calls. *)
Definition gl_run (g : GLState) (calls : list GLCall) : GLState :=
  fold_left gl_exec calls g.

Definition is_draw (c : GLCall) : bool :=
  match c with glDrawArrays _ _ => true | _ => false end.

(** Calls that touch only texture units and uniforms. *)
Definition texture_only (c : GLCall) : bool :=
  match c with
  | glActiveTexture _ | glBindTexture _ | setUniformValue _ _ _ => true
  | _ => false
  end.


(** A pass that begins with a line marker. *)
Definition marked (pass : list string) : Prop :=
  exists n rest, pass = Loader.line_marker n :: rest.

(** The program [loadProgram] builds from a pass, and whether the
    context compiles both of its stages and links them. *)
Definition program_of_pass (headerString : string) (pass : list string)
  : QOpenGLShaderProgram :=
  mkProgram Loader.vertexString (headerString +:+ Text.nl +:+ Text.join Text.nl pass).

Definition compiled_and_linked (glc : Loader.GLCompiler) (p : QOpenGLShaderProgram) : bool :=
  Loader.compiles glc Loader.Vertex (vertex_source p) &&
  Loader.compiles glc Loader.Fragment (fragment_source p) &&
  Loader.links glc (vertex_source p) (fragment_source p).

(** The fixed texts of the compile and link failures. *)
Definition build_failure_messages : list string :=
  ["Could not compile vertex shader";
   "Could not compile fragment shader";
   "Could not link shader program"].

(** The path of the effect file for a name. *)
Definition effect_path (name : string) : string :=
  "../resources/effects/" +:+ name +:+ ".glsl".

(** A line marker, and a pass without its line markers. *)
Definition is_marker (line : string) : bool := String.prefix "#line " line.
Definition without_markers (pass : list string) : list string :=
  filter (fun line => negb (is_marker line)) pass.

Definition is_debug (e : Event) : bool :=
  match e with EvDebug _ => true | _ => false end.

End Observe.

(** ** Sample inputs *)

Module Samples.
Import Text Values Node EffectNodeImpl Loader.
Local Open Scope list_scope.

(** 1.5 and the double nearest to -0.2. *)
Definition q_1_5 : qreal := S754_finite false 6755399441055744 (-52).
Definition q_minus_0_2 : qreal := S754_finite true 7205759403792794 (-55).

(** A node as its constructor leaves it. *)
Definition s_fresh : Store := mkStore (EffectNode_new q_zero q_zero q_zero) ∅ 1.

(** A node named "test" that has been loaded. *)
Definition s_named : Store :=
  mkStore (mkEffectNode 1 "test" q_zero q_zero q_zero q_zero
             [mkProgram "v" "f"] true ∅) ∅ 1.

(** Surroundings of a paint: beat 0, wall time 1, silent audio, FPS 1. *)
Definition sample_ambient : Ambient :=
  mkAmbient q_zero q_one q_zero q_zero q_zero q_zero q_one.

(** A chain at address 7, four by three pixels, noise texture 99. *)
Definition sample_chain : Chain := mkChain 7 (mkQSize 4 3) 99.

Definition sample_fbo (t : GLuint) : QOpenGLFramebufferObject :=
  mkFbo (mkQSize 4 3) t.

(** A ring of three framebuffers with its cursor at 1. *)
Definition sample_state : EffectNodeRenderState :=
  mkRenderState [sample_fbo 100; sample_fbo 101; sample_fbo 102] 1.

(** A loaded node with two passes, attached to the chains 7 and 8, and
    the copy of it that was painted for chain 7: the node's states are at
    the addresses 0 and 2, the copy's at 1 and 3. *)
Definition two_pass_node (states : gmap nat nat) : EffectNode :=
  mkEffectNode 1 "test" q_zero q_zero q_zero q_zero
    [mkProgram "v" "f0"; mkProgram "v" "f1"] true states.

Definition sample_copy : EffectNode :=
  two_pass_node (<[7%nat := 1%nat]> {[8%nat := 3%nat]}).

Definition s_two_chains : Store :=
  mkStore (two_pass_node (<[7%nat := 0%nat]> {[8%nat := 2%nat]}))
          (<[0%nat := EffectNodeRenderState_new]>
           (<[1%nat := sample_state]>
            (<[2%nat := EffectNodeRenderState_new]>
             {[3%nat := EffectNodeRenderState_new]}))) 103.

(** The source text of the parsing example. *)
Definition source_example : string :=
  "#property foo 3" +:+ nl +:+ "LINE_A" +:+ nl +:+
  "#buffershader" +:+ nl +:+ "LINE_B" +:+ nl.

(** A source that asks for two inputs. *)
Definition source_two_inputs : string :=
  "#property inputCount 2" +:+ nl +:+ "void main() {}" +:+ nl.

(** The files of an installation with the header and two effects. *)
Definition sample_files : gmap string FileEntry :=
  <[header_path := mkFile true true "// header"]>
  (<["../resources/effects/purple.glsl" := mkFile true true source_example]>
   {["../resources/effects/composite.glsl" := mkFile true true source_two_inputs]}).

(** A context that compiles and links everything, and one whose fragment
    compiler rejects everything. *)
Definition compiler_ok : GLCompiler := mkCompiler (fun _ _ => true) (fun _ _ => true).
Definition compiler_bad_fragment : GLCompiler :=
  mkCompiler (fun stage _ => match stage with Vertex => true | Fragment => false end)
             (fun _ _ => true).

(** A node that painted chain 7 with one program and is now being
    reloaded under the name "purple": the program is still there, ready
    has been cleared. *)
Definition s_reloading : Store :=
  mkStore (mkEffectNode 1 "purple" q_zero q_zero q_zero q_zero
             [mkProgram "v" "old"] false {[7%nat := 0%nat]})
          {[0%nat := mkRenderState [sample_fbo 100; sample_fbo 101] 0]} 102.

(** A new node whose name has just been set to "composite". *)
Definition s_composite : Store :=
  mkStore (mkEffectNode 1 "composite" q_zero q_zero q_zero q_zero [] false ∅) ∅ 1.


End Samples.

(** ** The rendering pipeline around a node *)

Module Pipeline.
Import Values Node EffectNodeImpl Observe.
Local Open Scope list_scope.
Local Open Scope node_scope.

(** The loop of the copy constructor over the keys of
    [other.m_renderStates], with the map built so far. *)
Fixpoint clone_states (k : list (nat * nat)) (acc : gmap nat nat) : M (gmap nat nat) :=
  match k with
  | [] => ret acc
  | (c, l) :: k' =>
      do otherRenderState <- deref l;
      do l' <- new_state otherRenderState;
      clone_states k' (<[c := l']> acc)
  end.

(** The store as the method of another node object sees it: the render
    states and the OpenGL context are shared, [this] is [n]. *)
Definition on (n : EffectNode) (s : Store) : Store :=
  mkStore n (heap s) (gl_next s).

(** Two nodes that differ at most in their map of render states. *)
Definition same_fields (n n' : EffectNode) : Prop :=
  with_renderStates (m_renderStates n) n' = n.

(** The members that the initialiser list of the copy constructor
    copies from [other] ([m_inputCount] with the base [VideoNode]). *)
Definition copied_fields (v other : EffectNode) : Prop :=
  m_inputCount v = m_inputCount other /\
  m_intensity v = m_intensity other /\
  m_intensityIntegral v = m_intensityIntegral other /\
  m_programs v = m_programs other /\
  m_ready v = m_ready other.

(** The chain addresses of a list of chains. *)
Definition ptrs (l : list Chain) : list nat := map chain_ptr l.

(** What every draw of a paint must find besides its channels, for a
    node [n] (with its time stamps as the paint has set them): every
    input texture on the unit of its index and the chain's noise texture
    on the next unit, and the uniforms that name these units, the size of
    the chain, the beat, the time since the paint before, the intensity
    and its integral, the frame rate and the audio levels. *)
Definition draw_inputs (n : EffectNode) (amb : Ambient) (chain : Chain)
    (inputTextures : list GLuint) (d : GLState) : Prop :=
  (forall k, 0 <= k < m_inputCount n ->
     exists t, at_ inputTextures k = Some t /\ gl_units d !! k = Some t) /\
  gl_units d !! m_inputCount n = Some (noiseTexture chain) /\
  gl_uniforms d !! "iInputs" = Some (UUintArray (iota (Z.to_nat (m_inputCount n)) 0)) /\
  gl_uniforms d !! "iNoise" = Some (UInt (m_inputCount n)) /\
  gl_uniforms d !! "iResolution" =
    Some (UVec2 (GLfloat_of_int (width (chain_size chain)))
                (GLfloat_of_int (height (chain_size chain)))) /\
  gl_uniforms d !! "iTime" = Some (UFloat (GLfloat_of_qreal (beat amb))) /\
  gl_uniforms d !! "iStep" =
    Some (UFloat (GLfloat_of_qreal (q_sub (m_realTime n) (m_realTimeLast n)))) /\
  gl_uniforms d !! "iIntensity" = Some (UFloat (GLfloat_of_qreal (m_intensity n))) /\
  gl_uniforms d !! "iIntensityIntegral" =
    Some (UFloat (GLfloat_of_qreal (m_intensityIntegral n))) /\
  gl_uniforms d !! "iFPS" = Some (UFloat (GLfloat_of_qreal (FPS amb))) /\
  gl_uniforms d !! "iAudio" =
    Some (UVec4 (GLfloat_of_qreal (audioLow amb)) (GLfloat_of_qreal (audioMid amb))
                (GLfloat_of_qreal (audioHi amb)) (GLfloat_of_qreal (audioLevel amb))).

(** Calls that select a unit or bind a texture. *)
Definition binds_only (c : GLCall) : bool :=
  match c with
  | glActiveTexture _ | glBindTexture _ => true
  | _ => false
  end.

(** The context with nothing bound and the first texture unit active. *)
Definition gl_reset (g : GLState) : Prop :=
  gl_program g = None /\ gl_framebuffer g = None /\ gl_active g = 0.

(** The two loops of [chainsEdited], over the chains themselves. *)
Definition add_all (l : list Chain) : M unit :=
  foldr (fun c k => bind (add_chain c) (fun _ => k)) (ret tt) l.
Definition remove_all (l : list Chain) : M unit :=
  foldr (fun c k => bind (remove_chain c) (fun _ => k)) (ret tt) l.

End Pipeline.

(** ** The two directive patterns, as sets of lines *)

Module Patterns.
Import Text.

Fixpoint all_chars (p : ascii -> bool) (s : string) : bool :=
  match s with
  | EmptyString => true
  | String c s' => p c && all_chars p s'
  end.

(** Equal up to the case of ASCII letters. *)
Fixpoint ci_eq (a b : string) : bool :=
  match a, b with
  | EmptyString, EmptyString => true
  | String x a', String y b' => Ascii.eqb (to_lower x) (to_lower y) && ci_eq a' b'
  | _, _ => false
  end.

Definition starts_with (p : ascii -> bool) (s : string) : bool :=
  match s with
  | EmptyString => false
  | String c _ => p c
  end.

(** A literal none of whose characters has a case partner outside
    ASCII. *)
Fixpoint ascii_cases (lit : string) : bool :=
  match lit with
  | EmptyString => true
  | String a lit' =>
      match case_partner a with
      | None => ascii_cases lit'
      | Some _ => false
      end
  end.

(** The pattern of [buffershader_reg] read as a set of lines: blanks,
    the keyword in any case, blanks, and nothing else. The keyword is
    [#buffer] in any case, an s in either case or the long s, and
    [hader] in any case. *)
Definition matches_buffershader (line : string) : Prop :=
  exists ws0 pre s post ws1,
    line = ws0 +:+ pre +:+ s +:+ post +:+ ws1 /\
    all_chars is_space ws0 = true /\
    ci_eq "#buffer" pre = true /\
    (s = "s" \/ s = "S" \/ s = long_s) /\
    ci_eq "hader" post = true /\
    all_chars is_space ws1 = true.

(** The pattern of [property_reg] read as a relation between a line and
    the two groups: blanks, the keyword in any case, at least one blank,
    the name (at least one word character), at least one blank, and the
    value, which runs to the end of the line. *)
Definition matches_property (line name value : string) : Prop :=
  exists ws0 kw ws1 ws2,
    line = ws0 +:+ kw +:+ ws1 +:+ name +:+ ws2 +:+ value /\
    all_chars is_space ws0 = true /\
    ci_eq "#property" kw = true /\
    all_chars is_space ws1 = true /\ ws1 <> "" /\
    all_chars is_word name = true /\ name <> "" /\
    all_chars is_space ws2 = true /\ ws2 <> "".

End Patterns.

(** ** The layout of the passes *)

Module Layout.
Import Text Grammar Node Loader.
Local Open Scope list_scope.

(** A line the reading loop takes as a directive. *)
Definition is_directive (line : string) : bool :=
  match property_reg line with
  | Some _ => true
  | None => buffershader_reg line
  end.

(** What the loop puts into a pass for the source line number [lineno]. *)
Definition as_pass_line (lineno : nat) (line : string) : string :=
  if is_directive line then line_marker lineno else line.

(** The captures of the property lines of a source, in order. *)
Definition property_lines (lines : list string) : list (string * string) :=
  omap property_reg lines.

Definition debug_of (nv : string * string) : Event :=
  EvDebug (dbg_setting_property nv.1 nv.2).

(** The value of the last property line that names [name]. *)
Fixpoint lookup_last (name : string) (caps : list (string * string)) : option string :=
  match caps with
  | [] => None
  | (n, v) :: rest =>
      match lookup_last name rest with
      | Some v' => Some v'
      | None => if decide (n = name) then Some v else None
      end
  end.

(** The number of buffer shader lines of a source. *)
Definition buffershader_count (lines : list string) : nat :=
  length (List.filter buffershader_reg lines).

End Layout.

(** ** shader_ref (util/glsl.h) *)

Module ShaderRef.
Local Open Scope list_scope.

(** A [GLuint] is written [Z] here, as [Values.GLuint] is. *)

(** The OpenGL calls of [impl]: [glCreateShader(type)] with the name it
    returned, and [glDeleteShader(id)]. *)
Inductive Call : Type :=
| glCreateShader (type : Z) (name : Z)
| glDeleteShader (id : Z).

(** The [shader_ref] variables of a scope, each holding the address of
    an [impl] in its [m_d], and the [impl] objects alive, each with its
    [m_id]. An [impl] is owned by the [std::shared_ptr]s that point at
    it; these are the [m_d] of the variables. *)
Record World : Type := mkWorld {
  vars : gmap string nat;
  impls : gmap nat Z
}.

(** A method: [None] when the variable is not declared or its pointer
    is null. *)
Definition Op (A : Type) : Type := World -> option (A * World * list Call).

(** [new impl()], with [m_id{0}], or [new impl(type)]. *)
Definition impl_new (m_id : Z) (w : World) : nat * World :=
  let a := fresh (dom (impls w)) in
  (a, mkWorld (vars w) (<[a := m_id]> (impls w))).

(** [impl::operator=(GLuint _id)]: [if(!m_id) m_id = _id]. *)
Definition impl_assign (a : nat) (_id : Z) (w : World) : option World :=
  match impls w !! a with
  | Some m_id =>
      Some (if m_id =? 0 then mkWorld (vars w) (<[a := _id]> (impls w)) else w)
  | None => None
  end.

(** [impl::create_from(_id)]: [auto ret = pointer(new impl()); *ret = _id]. *)
Definition create_from (_id : Z) (w : World) : option (nat * World) :=
  let '(ret, w1) := impl_new 0 w in
  match impl_assign ret _id w1 with
  | Some w2 => Some (ret, w2)
  | None => None
  end.

(** A [shared_ptr] to the object at [a] has gone: when it was the last
    one, [~impl] runs [glDeleteShader(m_id)]. *)
Definition release (a : nat) (w : World) : World * list Call :=
  if bool_decide (map_Exists (fun _ v => v = a) (vars w)) then (w, [])
  else match impls w !! a with
       | Some m_id => (mkWorld (vars w) (delete a (impls w)), [glDeleteShader m_id])
       | None => (w, [])
       end.

(** [m_d = p] for the variable [x]: the pointer is replaced and the old
    one released. *)
Definition set_m_d (x : string) (p : nat) (w : World) : option (World * list Call) :=
  match vars w !! x with
  | Some old =>
      Some (release old (mkWorld (<[x := p]> (vars w)) (impls w)))
  | None => None
  end.

(** [shader_ref x;] and [shader_ref x(type);], where [glCreateShader]
    returns [name]. *)
Definition shader_ref_new (x : string) : Op unit := fun w =>
  let '(a, w1) := impl_new 0 w in
  Some (tt, mkWorld (<[x := a]> (vars w1)) (impls w1), []).

Definition shader_ref_new_type (x : string) (type : Z) (name : Z) : Op unit := fun w =>
  let '(a, w1) := impl_new name w in
  Some (tt, mkWorld (<[x := a]> (vars w1)) (impls w1), [glCreateShader type name]).

(** [shader_ref y(x);]: the defaulted copy constructor shares [m_d]. *)
Definition shader_ref_copy (y x : string) : Op unit := fun w =>
  match vars w !! x with
  | Some a => Some (tt, mkWorld (<[y := a]> (vars w)) (impls w), [])
  | None => None
  end.

(** [x.id()]. *)
Definition id (x : string) : Op Z := fun w =>
  match vars w !! x with
  | Some a => match impls w !! a with
              | Some m_id => Some (m_id, w, [])
              | None => None
              end
  | None => None
  end.

(** [x = _id] ([shader_ref::operator=(GLuint)]). *)
Definition assign (x : string) (_id : Z) : Op unit := fun w =>
  match vars w !! x with
  | Some a =>
      match impls w !! a with
      | Some m_id =>
          if negb (m_id =? 0) then
            match create_from _id w with
            | Some (p, w1) =>
                match set_m_d x p w1 with
                | Some (w2, ev) => Some (tt, w2, ev)
                | None => None
                end
            | None => None
            end
          else
            match impl_assign a _id w with
            | Some w1 => Some (tt, w1, [])
            | None => None
            end
      | None => None
      end
  | None => None
  end.

(** [x.reset(_id)], [x.reset()] and [x.create(type)]. *)
Definition reset_id (x : string) (_id : Z) : Op unit := fun w =>
  match create_from _id w with
  | Some (p, w1) =>
      match set_m_d x p w1 with
      | Some (w2, ev) => Some (tt, w2, ev)
      | None => None
      end
  | None => None
  end.

Definition reset (x : string) : Op unit := fun w =>
  let '(p, w1) := impl_new 0 w in
  match set_m_d x p w1 with
  | Some (w2, ev) => Some (tt, w2, ev)
  | None => None
  end.

Definition create (x : string) (type : Z) (name : Z) : Op unit := fun w =>
  let '(p, w1) := impl_new name w in
  match set_m_d x p w1 with
  | Some (w2, ev) => Some (tt, w2, glCreateShader type name :: ev)
  | None => None
  end.

(** The variable [x] leaves its scope. *)
Definition destroy (x : string) : Op unit := fun w =>
  match vars w !! x with
  | Some a =>
      let '(w1, ev) := release a (mkWorld (delete x (vars w)) (impls w)) in
      Some (tt, w1, ev)
  | None => None
  end.

(** The id a variable shows, when it is declared. *)
Definition value (w : World) (x : string) : option Z :=
  match id x w with
  | Some (m_id, _, _) => Some m_id
  | None => None
  end.

(** Every variable points at a live object. *)
Definition well_formed (w : World) : Prop :=
  forall x a, vars w !! x = Some a -> is_Some (impls w !! a).

(** Another variable shares the object of [x]. *)
Definition shared (w : World) (x : string) : Prop :=
  exists y a, y <> x /\ vars w !! x = Some a /\ vars w !! y = Some a.

End ShaderRef.

(** ** Flickable (ui/index.ts) *)

Module FlickableImpl.
Local Open Scope list_scope.

(** A JavaScript number is an IEEE binary64 value. *)
Definition number : Type := spec_float.
Definition js_add (a b : number) : number := SFadd 53 1024 a b.
Definition js_sub (a b : number) : number := SFsub 53 1024 a b.
Definition js_mul (a b : number) : number := SFmul 53 1024 a b.
Definition js_gt (a b : number) : bool := SFltb b a.
Definition of_int (z : Z) : number := binary_normalize 53 1024 z 0 false.
Definition js_zero : number := S754_zero false.
Definition js_one : number := S754_finite false 4503599627370496 (-52).
Definition js_half : number := S754_finite false 4503599627370496 (-53).
Definition js_is_nan (x : number) : bool :=
  match x with S754_nan => true | _ => false end.

(** [ToNumber] of a field that may still be [undefined]. *)
Definition to_number (o : option number) : number :=
  match o with Some x => x | None => S754_nan end.

Definition Math_abs (x : number) : number := SFabs x.

Definition Math_sign (x : number) : number :=
  match x with
  | S754_nan => S754_nan
  | S754_zero s => S754_zero s
  | S754_infinity s | S754_finite s _ _ => if s then SFopp js_one else js_one
  end.

Definition Math_max (a b : number) : number :=
  match SFcompare a b with
  | Some Lt => b
  | Some Gt => a
  | Some Eq => match a with S754_zero true => b | _ => a end
  | None => S754_nan
  end.

(** The fields of the element. [dragging], [mouseDrag] and [touchDrag]
    are only ever tested for truth, so [false] also stands for
    [undefined], which they are until first assigned; the fields that are
    read as values are [None] while [undefined]. *)
Record Flickable : Type := mkFlickable {
  offsetX : number;
  offsetY : number;
  dragging : bool;
  mouseDrag : bool;
  touchDrag : bool;
  startDragX : option number;
  startDragY : option number;
  startDragOffsetX : option number;
  startDragOffsetY : option number;
  touchId : option Z
}.

(** The sizes [applyTransformation] reads from the two [div]s (integers,
    as the DOM defines them). *)
Record Layout : Type := mkLayout {
  inner_offsetWidth : Z;
  inner_offsetHeight : Z;
  outer_clientWidth : Z;
  outer_clientHeight : Z
}.

(** What a handler does besides changing the fields. *)
Inductive Effect : Type :=
| set_transform (x y : number)  (* inner.style.transform = translate(x px, y px) *)
| preventDefault.

Record Touch : Type := mkTouch {
  on_surface : bool;   (* touch.target is outer or inner *)
  identifier : Z;
  pageX : number;
  pageY : number
}.

(** The state after [connectedCallback]. *)
Definition connected : Flickable :=
  mkFlickable js_zero js_zero false false false None None None None None.

Definition with_offsets (x y : number) (f : Flickable) : Flickable :=
  mkFlickable x y (dragging f) (mouseDrag f) (touchDrag f)
    (startDragX f) (startDragY f) (startDragOffsetX f) (startDragOffsetY f) (touchId f).

Definition applyTransformation (lay : Layout) (f : Flickable) : Flickable * list Effect :=
  let rangeX := js_mul js_half
    (Math_max js_zero (js_sub (of_int (inner_offsetWidth lay)) (of_int (outer_clientWidth lay)))) in
  let rangeY := js_mul js_half
    (Math_max js_zero (js_sub (of_int (inner_offsetHeight lay)) (of_int (outer_clientHeight lay)))) in
  let x := if js_gt (Math_abs (offsetX f)) rangeX
           then js_mul rangeX (Math_sign (offsetX f)) else offsetX f in
  let y := if js_gt (Math_abs (offsetY f)) rangeY
           then js_mul rangeY (Math_sign (offsetY f)) else offsetY f in
  (with_offsets x y f, [set_transform x y]).

Definition startDrag (ptX ptY : number) (f : Flickable) : Flickable :=
  mkFlickable (offsetX f) (offsetY f) true (mouseDrag f) (touchDrag f)
    (Some ptX) (Some ptY) (Some (offsetX f)) (Some (offsetY f)) (touchId f).

Definition endDrag (f : Flickable) : Flickable :=
  mkFlickable (offsetX f) (offsetY f) false (mouseDrag f) (touchDrag f)
    (startDragX f) (startDragY f) (startDragOffsetX f) (startDragOffsetY f) (touchId f).

Definition drag (lay : Layout) (ptX ptY : number) (f : Flickable) : Flickable * list Effect :=
  let x := js_sub (js_add (to_number (startDragOffsetX f)) ptX) (to_number (startDragX f)) in
  let y := js_sub (js_add (to_number (startDragOffsetY f)) ptY) (to_number (startDragY f)) in
  applyTransformation lay (with_offsets x y f).

Definition set_mouseDrag (b : bool) (f : Flickable) : Flickable :=
  mkFlickable (offsetX f) (offsetY f) (dragging f) b (touchDrag f)
    (startDragX f) (startDragY f) (startDragOffsetX f) (startDragOffsetY f) (touchId f).

Definition set_touchDrag (b : bool) (f : Flickable) : Flickable :=
  mkFlickable (offsetX f) (offsetY f) (dragging f) (mouseDrag f) b
    (startDragX f) (startDragY f) (startDragOffsetX f) (startDragOffsetY f) (touchId f).

Definition set_touchId (i : Z) (f : Flickable) : Flickable :=
  mkFlickable (offsetX f) (offsetY f) (dragging f) (mouseDrag f) (touchDrag f)
    (startDragX f) (startDragY f) (startDragOffsetX f) (startDragOffsetY f) (Some i).

(** [this.touchId == touch.identifier]: [undefined] equals no number. *)
Definition same_touch (f : Flickable) (t : Touch) : bool :=
  match touchId f with
  | Some i => i =? identifier t
  | None => false
  end.

(** [event.buttons & 1]. *)
Definition primary (buttons : Z) : bool := negb (Z.land buttons 1 =? 0).

Definition mouseDown (target_on_surface : bool) (buttons : Z) (x y : number)
    (f : Flickable) : Flickable * list Effect :=
  if negb target_on_surface then (f, [])
  else if negb (dragging f) && primary buttons then
    (startDrag x y (set_mouseDrag true f), [preventDefault])
  else (f, []).

Definition mouseUp (buttons : Z) (f : Flickable) : Flickable * list Effect :=
  if dragging f && mouseDrag f && negb (primary buttons) then
    (endDrag (set_mouseDrag false f), [preventDefault])
  else (f, []).

Definition mouseMove (lay : Layout) (x y : number) (f : Flickable)
  : Flickable * list Effect :=
  if dragging f && mouseDrag f then
    let '(f', ev) := drag lay x y f in (f', ev ++ [preventDefault])
  else (f, []).

(** The loops over [event.changedTouches]. *)
Fixpoint touchStart (touches : list Touch) (f : Flickable) : Flickable * list Effect :=
  match touches with
  | [] => (f, [])
  | touch :: rest =>
      if negb (on_surface touch) then touchStart rest f
      else if negb (dragging f) then
        let f1 := startDrag (pageX touch) (pageY touch)
                    (set_touchId (identifier touch) (set_touchDrag true f)) in
        let '(f2, ev) := touchStart rest f1 in (f2, preventDefault :: ev)
      else touchStart rest f
  end.

Fixpoint touchEnd (touches : list Touch) (f : Flickable) : Flickable * list Effect :=
  match touches with
  | [] => (f, [])
  | touch :: rest =>
      if dragging f && touchDrag f && same_touch f touch then
        touchEnd rest (endDrag (set_touchDrag false f))
      else touchEnd rest f
  end.

Fixpoint touchMove (lay : Layout) (touches : list Touch) (f : Flickable)
  : Flickable * list Effect :=
  match touches with
  | [] => (f, [])
  | touch :: rest =>
      if dragging f && touchDrag f && same_touch f touch then
        let '(f1, ev1) := drag lay (pageX touch) (pageY touch) f in
        let '(f2, ev2) := touchMove lay rest f1 in (f2, ev1 ++ ev2)
      else touchMove lay rest f
  end.

(** The events the element listens to; a resize of either [div] runs
    [applyTransformation]. *)
Inductive Input : Type :=
| MouseDown (target_on_surface : bool) (buttons : Z) (x y : number)
| MouseUp (buttons : Z)
| MouseMove (lay : Layout) (x y : number)
| TouchStart (touches : list Touch)
| TouchEnd (touches : list Touch)
| TouchMove (lay : Layout) (touches : list Touch)
| Resize (lay : Layout).

Definition handle (i : Input) (f : Flickable) : Flickable * list Effect :=
  match i with
  | MouseDown t b x y => mouseDown t b x y f
  | MouseUp b => mouseUp b f
  | MouseMove lay x y => mouseMove lay x y f
  | TouchStart ts => touchStart ts f
  | TouchEnd ts => touchEnd ts f
  | TouchMove lay ts => touchMove lay ts f
  | Resize lay => applyTransformation lay f
  end.

(** The element after a sequence of events. *)
Definition run (inputs : list Input) (f : Flickable) : Flickable :=
  fold_left (fun f i => fst (handle i f)) inputs f.

(** A drag is in progress exactly when the mouse or a touch drags, never
    both, and then the fields the drag reads are defined. *)
Definition consistent (f : Flickable) : Prop :=
  dragging f = mouseDrag f || touchDrag f /\
  mouseDrag f && touchDrag f = false /\
  (dragging f = true ->
     is_Some (startDragX f) /\ is_Some (startDragY f) /\
     is_Some (startDragOffsetX f) /\ is_Some (startDragOffsetY f)) /\
  (touchDrag f = true -> is_Some (touchId f)).

End FlickableImpl.

(** ** EffectSlot (resources/qml/EffectSlot.qml) *)

Module EffectSlotImpl.
Local Open Scope list_scope.

(** A [UIEffect] object as the slot sees it: the source of its effect,
    its position, whether [onChildKey] is connected to its key presses,
    and whether [destroy()] has been called on it. *)
Record UIEffect : Type := mkUIEffect {
  source : string;
  x : spec_float;
  y : spec_float;
  keys_connected : bool;
  destroyed : bool
}.

(** The tile: its property [uiEffect] ([None] is [null]) and the
    objects created so far. *)
Record Slot : Type := mkSlot {
  uiEffect : option nat;
  objects : gmap nat UIEffect
}.

(** [component.createObject(this)]: a new object with the defaults of
    its type. The component is a local file; creation is taken to
    succeed. *)
Definition createObject (s : Slot) : nat * Slot :=
  let e := fresh (dom (objects s)) in
  (e, mkSlot (uiEffect s)
        (<[e := mkUIEffect "" (S754_zero false) (S754_zero false) false false]> (objects s))).

(** An assignment to a property of the object at [e]; an object that
    does not exist is a type error ([None]). *)
Definition update (e : nat) (f : UIEffect -> UIEffect) (s : Slot) : option Slot :=
  match objects s !! e with
  | Some o => Some (mkSlot (uiEffect s) (<[e := f o]> (objects s)))
  | None => None
  end.

Definition set_source (name : string) (o : UIEffect) : UIEffect :=
  mkUIEffect name (x o) (y o) (keys_connected o) (destroyed o).
Definition connect_keys (o : UIEffect) : UIEffect :=
  mkUIEffect (source o) (x o) (y o) true (destroyed o).
Definition destroy (o : UIEffect) : UIEffect :=
  mkUIEffect (source o) (x o) (y o) (keys_connected o) true.
Definition set_x (v : spec_float) (o : UIEffect) : UIEffect :=
  mkUIEffect (source o) v (y o) (keys_connected o) (destroyed o).
Definition set_y (v : spec_float) (o : UIEffect) : UIEffect :=
  mkUIEffect (source o) (x o) v (keys_connected o) (destroyed o).

(** [place()]: [uiEffect.x = 0; uiEffect.y = 0]. *)
Definition place (s : Slot) : option Slot :=
  match uiEffect s with
  | Some u =>
      match update u (set_x (S754_zero false)) s with
      | Some s1 => update u (set_y (S754_zero false)) s1
      | None => None
      end
  | None => None
  end.

(** [load(name)]. *)
Definition load (name : string) (s : Slot) : option Slot :=
  let '(e, s1) := createObject s in
  match update e (set_source name) s1 with
  | None => None
  | Some s2 =>
      match update e connect_keys s2 with
      | None => None
      | Some s3 =>
          let prev := uiEffect s3 in
          let s4 := mkSlot (Some e) (objects s3) in
          match (match prev with
                 | Some _ => update e destroy s4
                 | None => Some s4
                 end) with
          | Some s5 => place s5
          | None => None
          end
      end
  end.

(** [unload()]. *)
Definition unload (s : Slot) : option Slot :=
  match uiEffect s with
  | Some prev => update prev destroy (mkSlot None (objects s))
  | None => Some s
  end.

(** [onChildKey(event)], given whether the key is [Qt.Key_Delete]. *)
Definition onChildKey (is_delete : bool) (s : Slot) : option Slot :=
  if is_delete then unload s else Some s.

(** The objects on which [destroy()] has not been called. *)
Definition alive (s : Slot) (e : nat) : Prop :=
  exists o, objects s !! e = Some o /\ destroyed o = false.

End EffectSlotImpl.

(** ** More sample inputs *)

Module MoreSamples.
Import Text Values Node EffectNodeImpl Loader Samples.
Local Open Scope list_scope.

(** A chain at address 9, two by two pixels, noise texture 98. *)
Definition chain_nine : Chain := mkChain 9 (mkQSize 2 2) 98.

(** Two [shader_ref] variables that share an object without an id, as
    after [shader_ref a; shader_ref b(a);]. *)
Definition w_shared : ShaderRef.World :=
  ShaderRef.mkWorld (<["a" := 0%nat]> {["b" := 0%nat]}) {[0%nat := 0]}.

End MoreSamples.

(** * Properties *)

(** ** The method monad *)

Module MonadFacts.
Import Node.
Local Open Scope list_scope.

Lemma bind_Some {A B} (m : M A) (k : A -> M B) s b s2 ev :
  bind m k s = Some (b, s2, ev) ->
  exists a s1 e1 e2,
    m s = Some (a, s1, e1) /\ k a s1 = Some (b, s2, e2) /\ ev = e1 ++ e2.
Proof.
  unfold bind. destruct (m s) as [[[a s1] e1]|]; [|discriminate].
  destruct (k a s1) as [[[b' s2'] e2]|] eqn:Hk; [|discriminate].
  intros [= -> -> <-]. eauto 10.
Qed.

Lemma bind_run {A B} (m : M A) (k : A -> M B) s a s1 e1 :
  m s = Some (a, s1, e1) ->
  bind m k s =
    match k a s1 with
    | Some (b, s2, e2) => Some (b, s2, e1 ++ e2)
    | None => None
    end.
Proof. intros H. unfold bind. now rewrite H. Qed.

Lemma bind_cong {A B} (m m' : M A) (k k' : A -> M B) :
  (forall s, m s = m' s) -> (forall a s, k a s = k' a s) ->
  forall s, bind m k s = bind m' k' s.
Proof.
  intros Hm Hk s. unfold bind. rewrite Hm.
  destruct (m' s) as [[[a s1] e1]|]; [|reflexivity]. now rewrite Hk.
Qed.

Lemma bind_assoc {A B C} (m : M A) (f : A -> M B) (g : B -> M C) s :
  bind (bind m f) g s = bind m (fun a => bind (f a) g) s.
Proof.
  unfold bind. destruct (m s) as [[[a s1] e1]|]; [|reflexivity].
  destruct (f a s1) as [[[b s2] e2]|]; [|reflexivity].
  destruct (g b s2) as [[[c s3] e3]|]; [|reflexivity].
  now rewrite app_assoc.
Qed.

Lemma bind_ret {A B} (a : A) (k : A -> M B) s : bind (ret a) k s = k a s.
Proof. unfold bind, ret. destruct (k a s) as [[[b s2] e2]|]; reflexivity. Qed.

Lemma bind_get {B} (k : Store -> M B) s : bind get k s = k s s.
Proof. unfold bind, get. destruct (k s s) as [[[b s2] e2]|]; reflexivity. Qed.

Lemma bind_put {B} (s' : Store) (k : unit -> M B) s : bind (put s') k s = k tt s'.
Proof. unfold bind, put. destruct (k tt s') as [[[b s2] e2]|]; reflexivity. Qed.

Lemma bind_lift {A B} (o : option A) (k : A -> M B) s :
  bind (lift o) k s = match o with Some a => k a s | None => None end.
Proof.
  unfold bind, lift. destruct o as [a|]; [|reflexivity].
  destruct (k a s) as [[[b s2] e2]|]; reflexivity.
Qed.

Lemma bind_event {B} (e : Event) (k : unit -> M B) s :
  bind (event e) k s =
    match k tt s with
    | Some (b, s2, e2) => Some (b, s2, e :: e2)
    | None => None
    end.
Proof. reflexivity. Qed.

Lemma bind_get_this {B} (k : EffectNode -> M B) s :
  bind get_this k s = k (this s) s.
Proof. unfold get_this. now rewrite bind_assoc, bind_get, bind_ret. Qed.

Lemma bind_abort {A B} (k : A -> M B) s : bind abort k s = None.
Proof. reflexivity. Qed.

(** One step of symbolic execution of a method at a store. *)
Ltac mstep :=
  match goal with
  | |- context [@bind _ ?C (@bind ?A ?B ?m ?f) ?g ?s] =>
      rewrite (@bind_assoc A B C m f g s)
  | |- context [@bind _ ?B (@ret ?A ?a) ?k ?s] => rewrite (@bind_ret A B a k s)
  | |- context [@bind _ ?B get ?k ?s] => rewrite (@bind_get B k s)
  | |- context [@bind _ ?B (put ?s') ?k ?s] => rewrite (@bind_put B s' k s)
  | |- context [@bind _ ?B (@lift ?A ?o) ?k ?s] => rewrite (@bind_lift A B o k s)
  | |- context [@bind _ ?B get_this ?k ?s] => rewrite (@bind_get_this B k s)
  | |- context [@bind _ ?B (event ?e) ?k ?s] => rewrite (@bind_event B e k s)
  end; cbv beta.

Ltac msimp := repeat first [mstep | progress cbn [heap this gl_next]].

End MonadFacts.

(** ** Intensity *)

Module IntensityFacts.
Import Values Node EffectNodeImpl Observe.
Local Open Scope list_scope.

Lemma SFcompare_antisym (a b : spec_float) :
  SFcompare a b = option_map CompOpp (SFcompare b a).
Proof.
  destruct a as [sa|sa| |sa ma ea], b as [sb|sb| |sb mb eb]; cbn;
    try reflexivity; try (destruct sa; reflexivity); try (destruct sb; reflexivity);
    try (destruct sa, sb; reflexivity).
  rewrite !Pos.compare_cont_spec, (Z.compare_antisym ea eb), (Pos.compare_antisym ma mb).
  destruct sa, sb; cbn; try reflexivity;
    destruct (ea ?= eb); cbn; try reflexivity;
    destruct (ma ?= mb)%positive; reflexivity.
Qed.

Lemma SFcompare_Eq_l (v w z : spec_float) :
  SFcompare v w = Some Eq -> SFcompare v z = SFcompare w z.
Proof.
  destruct v as [sv|sv| |sv mv ev], w as [sw|sw| |sw mw ew]; cbn;
    try discriminate; try (destruct sv; discriminate); try (destruct sw; discriminate).
  - intros _. destruct z; reflexivity.
  - destruct sv, sw; try discriminate; reflexivity.
  - destruct sv, sw; try discriminate.
    + destruct (ev ?= ew) eqn:He; try discriminate.
      apply Z.compare_eq in He. subst ew. intros [= Hm].
      destruct (Pos.compare_cont Eq mv mw) eqn:Hc; try discriminate.
      apply Pos.compare_eq in Hc. subst mw. reflexivity.
    + destruct (ev ?= ew) eqn:He; try discriminate.
      apply Z.compare_eq in He. subst ew. intros [= Hm].
      apply Pos.compare_eq in Hm. subst mw. reflexivity.
Qed.

Lemma SFcompare_Eq_r (v w z : spec_float) :
  SFcompare v w = Some Eq -> SFcompare z v = SFcompare z w.
Proof.
  intros H. rewrite (SFcompare_antisym z v), (SFcompare_antisym z w).
  now rewrite (SFcompare_Eq_l v w z H).
Qed.

Lemma q_eq_range (v w : qreal) :
  q_eq v w = true ->
  q_le q_zero w = true -> q_le w q_one = true ->
  q_le q_zero v = true /\ q_le v q_one = true.
Proof.
  unfold q_eq, q_le, SFeqb, SFleb. intros H.
  assert (He : SFcompare v w = Some Eq).
  { destruct (SFcompare v w) as [[| |]|]; try discriminate; reflexivity. }
  rewrite (SFcompare_Eq_l v w q_one He), (SFcompare_Eq_r v w q_zero He). auto.
Qed.

Lemma SFcompare_None (x y : spec_float) :
  SFcompare x y = None -> q_is_nan x = true \/ q_is_nan y = true.
Proof.
  destruct x as [sx|sx| |sx mx ex], y as [sy|sy| |sy my ey];
    cbn [SFcompare q_is_nan]; auto; discriminate.
Qed.

Lemma clamped_range (x : qreal) :
  q_is_nan x = false ->
  q_le q_zero (clamped x) = true /\ q_le (clamped x) q_one = true.
Proof.
  intros Hx. unfold clamped.
  destruct (q_lt q_one x) eqn:H1; [split; vm_compute; reflexivity|].
  destruct (q_lt x q_zero) eqn:H0; [split; vm_compute; reflexivity|].
  revert H1 H0. unfold q_lt, q_le, SFltb, SFleb.
  rewrite (SFcompare_antisym q_one x), (SFcompare_antisym q_zero x).
  destruct (SFcompare x q_one) as [[| |]|] eqn:C1; cbn [option_map CompOpp];
    try discriminate;
  destruct (SFcompare x q_zero) as [[| |]|] eqn:C0; cbn [option_map CompOpp];
    try discriminate; auto.
  all: try (apply SFcompare_None in C1; destruct C1 as [C1|C1]; [congruence|discriminate]).
  all: try (apply SFcompare_None in C0; destruct C0 as [C0|C0]; [congruence|discriminate]).
Qed.

Lemma q_eq_refl (x : qreal) : q_is_nan x = false -> q_eq x x = true.
Proof.
  unfold q_eq, SFeqb. destruct x as [s|s| |s m e]; cbn; try discriminate; auto.
  - destruct s; auto.
  - intros _. destruct s; rewrite Z.compare_refl, Pos.compare_cont_refl; auto.
Qed.

Lemma q_eq_sym (x y : qreal) : q_eq x y = q_eq y x.
Proof.
  unfold q_eq, SFeqb. rewrite (SFcompare_antisym x y).
  destruct (SFcompare y x) as [[| |]|]; reflexivity.
Qed.

Lemma clamped_not_nan (x : qreal) : q_is_nan x = false -> q_is_nan (clamped x) = false.
Proof.
  intros Hx. unfold clamped.
  destruct (q_lt q_one x); [reflexivity|]. destruct (q_lt x q_zero); [reflexivity|exact Hx].
Qed.

(** What a call of [setIntensity] does, by the comparison it makes. *)
Lemma setIntensity_run (x : qreal) (s : Store) :
  setIntensity x s =
    if q_eq (m_intensity (this s)) (clamped x)
    then Some (tt, s, [EvLock; EvUnlock])
    else Some (tt, mkStore (with_intensity (clamped x) (this s)) (heap s) (gl_next s),
               [EvLock; EvAssign F_intensity; EvUnlock;
                EvEmit (intensityChanged (clamped x))]).
Proof.
  unfold setIntensity, clamped.
  destruct (q_lt q_one x) eqn:H1.
  - replace (q_lt q_one q_zero) with false by (vm_compute; reflexivity).
    unfold bind, event, get_this, get, ret, set_this, put, emit. cbn.
    destruct (q_eq (m_intensity (this s)) q_one); destruct s; reflexivity.
  - destruct (q_lt x q_zero) eqn:H0;
    unfold bind, event, get_this, get, ret, set_this, put, emit; cbn;
    match goal with |- context [q_eq ?a ?b] => destruct (q_eq a b) end;
    destruct s; reflexivity.
Qed.

End IntensityFacts.

Module IntensityClaims.
Import Values Node EffectNodeImpl Observe.
Import IntensityFacts Samples.
Local Open Scope list_scope.

Lemma SFcompare_Eq_finite (v : spec_float) s m e :
  SFcompare v (S754_finite s m e) = Some Eq -> v = S754_finite s m e.
Proof.
  destruct v as [sv|sv| |sv mv ev]; cbn; try discriminate;
    try (destruct sv; discriminate); try (destruct s; discriminate).
  rewrite Pos.compare_cont_spec.
  destruct sv, s; try discriminate;
    destruct (ev ?= e) eqn:He; try discriminate;
    apply Z.compare_eq in He; subst e;
    destruct (mv ?= m)%positive eqn:Hm; try discriminate;
    apply Pos.compare_eq in Hm; subst m; reflexivity.
Qed.

Lemma q_eq_Eq (v w : qreal) : q_eq v w = true -> SFcompare v w = Some Eq.
Proof.
  unfold q_eq, SFeqb. destruct (SFcompare v w) as [[| |]|]; try discriminate; reflexivity.
Qed.

Lemma q_eq_trans_r (v x y : qreal) :
  q_eq v x = true -> q_eq y x = true -> q_eq v y = true.
Proof.
  intros Hv Hy. apply q_eq_Eq in Hv. apply q_eq_Eq in Hy.
  unfold q_eq, SFeqb. rewrite (SFcompare_Eq_l v x y Hv), (SFcompare_antisym x y), Hy.
  reflexivity.
Qed.


(** C7. After [setIntensity x], for an [x] that is a number, [intensity()]
    lies between 0 and 1 and equals [x] clamped to that range (1 when
    [x > 1], 0 when [x < 0]): the write is clamped, not rejected. The call
    emits [intensityChanged] at most once, and a second call whose
    clamped value is the same changes nothing and emits nothing. *)
Theorem setIntensity_clamps (s : Store) (x : qreal) :
  q_is_nan x = false ->
  exists s1 ev1,
    setIntensity x s = Some (tt, s1, ev1) /\
    let v := m_intensity (this s1) in
    intensity s1 = Some (v, s1, []) /\
    q_le q_zero v = true /\ q_le v q_one = true /\
    q_eq v (clamped x) = true /\
    (q_lt q_one x = true -> v = q_one) /\
    (q_lt x q_zero = true -> q_eq v q_zero = true) /\
    (length (signals ev1) <= 1)%nat /\
    forall y, q_eq (clamped y) (clamped x) = true ->
      setIntensity y s1 = Some (tt, s1, [EvLock; EvUnlock]).
Proof.
  intros Hx.
  assert (Hpost : exists s1 ev1,
    setIntensity x s = Some (tt, s1, ev1) /\
    q_eq (m_intensity (this s1)) (clamped x) = true /\
    (length (signals ev1) <= 1)%nat).
  { rewrite setIntensity_run.
    destruct (q_eq (m_intensity (this s)) (clamped x)) eqn:He.
    - exists s, [EvLock; EvUnlock]. repeat split; auto.
    - eexists _, _. split; [reflexivity|]. split; [|cbn; lia].
      cbn. apply q_eq_refl, clamped_not_nan, Hx. }
  destruct Hpost as (s1 & ev1 & Hrun & Heq & Hlen).
  exists s1, ev1. split; [exact Hrun|]. cbv zeta.
  destruct (clamped_range x Hx) as [H0 H1].
  destruct (q_eq_range _ _ Heq H0 H1) as [Hv0 Hv1].
  repeat split; auto.
  - intros Hgt. unfold clamped in Heq. rewrite Hgt in Heq.
    apply q_eq_Eq in Heq. unfold q_one in *. now apply SFcompare_Eq_finite.
  - intros Hlt. unfold clamped in Heq. rewrite Hlt in Heq.
    destruct (q_lt q_one x) eqn:Hgt1; [|exact Heq].
    exfalso. clear -Hgt1 Hlt. revert Hgt1 Hlt.
    unfold q_lt, SFltb, q_one, q_zero.
    destruct x as [sx|sx| |sx mx ex]; cbn [SFcompare]; try discriminate;
      destruct sx; discriminate.
  - intros y Hy. rewrite setIntensity_run.
    now rewrite (q_eq_trans_r _ _ _ Heq Hy).
Qed.

(** Outside the numbers: a NaN passes both comparisons and differs from
    every value, so it is stored and signalled. *)
Remark setIntensity_nan (s : Store) :
  setIntensity S754_nan s =
    Some (tt, mkStore (with_intensity S754_nan (this s)) (heap s) (gl_next s),
          [EvLock; EvAssign F_intensity; EvUnlock; EvEmit (intensityChanged S754_nan)]).
Proof.
  rewrite setIntensity_run. change (clamped S754_nan) with S754_nan.
  replace (q_eq (m_intensity (this s)) S754_nan) with false; [reflexivity|].
  unfold q_eq, SFeqb. destruct (m_intensity (this s)); reflexivity.
Qed.

Lemma setIntensity_clamps_witness :
  (exists s1 ev1, setIntensity q_1_5 s_fresh = Some (tt, s1, ev1) /\
                  m_intensity (this s1) = q_one) /\
  (exists s1 ev1, setIntensity q_minus_0_2 s_fresh = Some (tt, s1, ev1) /\
                  q_eq (m_intensity (this s1)) q_zero = true).
Proof.
  split.
  - destruct (setIntensity_clamps s_fresh q_1_5 eq_refl)
      as (s1 & ev1 & Hrun & _ & _ & _ & _ & H1 & _).
    exists s1, ev1. split; [exact Hrun | apply H1; vm_compute; reflexivity].
  - destruct (setIntensity_clamps s_fresh q_minus_0_2 eq_refl)
      as (s1 & ev1 & Hrun & _ & _ & _ & _ & _ & H0 & _).
    exists s1, ev1. split; [exact Hrun | apply H0; vm_compute; reflexivity].
Defined.

End IntensityClaims.

(** ** Name and reload *)

Module NameClaims.
Import Values Node EffectNodeImpl Observe Samples.
Local Open Scope list_scope.

(** C10. [setName] with the node's current name does nothing: the store
    is unchanged and there is no event (ready is not cleared, no load is
    posted, nothing is emitted). [reload] always clears ready and posts
    [initialize]: afterwards [m_ready] is false and no other member has
    changed. [setName] with another name clears ready, assigns the name
    between taking and releasing the lock, posts [initialize], and then
    emits [nameChanged], in this order: afterwards [m_ready] is false,
    [m_name] is the new name and no other member has changed. Neither
    touches a render state or the context. *)
Theorem setName_reload_effects (s : Store) (n : string) :
  let n0 := this s in
  setName (m_name n0) s = Some (tt, s, []) /\
  (exists s',
     reload s = Some (tt, s', [EvAssign F_ready; EvInvoke "initialize"]) /\
     m_ready (this s') = false /\
     m_name (this s') = m_name n0 /\
     s' = mkStore (mkEffectNode (m_inputCount n0) (m_name n0) (m_intensity n0)
                     (m_intensityIntegral n0) (m_realTime n0) (m_realTimeLast n0)
                     (m_programs n0) false (m_renderStates n0))
                  (heap s) (gl_next s)) /\
  (n <> m_name n0 ->
   exists s',
     setName n s =
       Some (tt, s', [EvAssign F_ready; EvLock; EvAssign F_name; EvUnlock;
                      EvInvoke "initialize"; EvEmit (nameChanged n)]) /\
     m_ready (this s') = false /\
     m_name (this s') = n /\
     s' = mkStore (mkEffectNode (m_inputCount n0) n (m_intensity n0)
                     (m_intensityIntegral n0) (m_realTime n0) (m_realTimeLast n0)
                     (m_programs n0) false (m_renderStates n0))
                  (heap s) (gl_next s)).
Proof.
  cbv zeta. split; [|split].
  - unfold setName, bind, get_this, get, ret. cbn.
    rewrite String.eqb_refl. cbn. reflexivity.
  - eexists. split; [destruct s; reflexivity|]. repeat split.
  - intros Hn. eexists. split.
    + unfold setName, bind, get_this, get, ret. cbn.
      destruct (String.eqb_spec n (m_name (this s))) as [E|_]; [contradiction|].
      destruct s. reflexivity.
    + repeat split.
Qed.

Lemma setName_reload_effects_witness :
  exists s',
    setName "purple" s_named =
      Some (tt, s', [EvAssign F_ready; EvLock; EvAssign F_name; EvUnlock;
                     EvInvoke "initialize"; EvEmit (nameChanged "purple")]) /\
    m_ready (this s') = false /\
    m_name (this s') = "purple" /\
    m_programs (this s') = [mkProgram "v" "f"].
Proof.
  destruct (setName_reload_effects s_named "purple") as (_ & _ & H).
  destruct H as (s' & Hrun & Hr & Hn & ->); [cbn; discriminate|].
  eexists. split; [exact Hrun|]. repeat split.
Defined.

End NameClaims.

(** ** The guards of paint *)

Module GuardFacts.
Import Values Node EffectNodeImpl Observe Samples.
Local Open Scope list_scope.

Lemma paint_not_ready amb chain inputTextures (s : Store) :
  m_ready (this s) = false ->
  paint amb chain inputTextures s = Some (0, s, [EvDebug dbg_is_not_ready]).
Proof.
  intros H. unfold paint, bind, get_this, get, ret. cbn. rewrite H. reflexivity.
Qed.

Lemma paint_no_chain amb chain inputTextures (s : Store) :
  m_ready (this s) = true ->
  m_renderStates (this s) !! chain_ptr chain = None ->
  paint amb chain inputTextures s =
    Some (0, s, [EvDebug (dbg_does_not_have_chain (chain_ptr chain))]).
Proof.
  intros H Hc. unfold paint, bind, get_this, get, ret. cbn. rewrite H, Hc. reflexivity.
Qed.

(** C6. When the node is not ready, or has no render state for the
    chain, [paint] writes one debug line and returns the null texture 0;
    the store is the one it started from (the node, every render state
    and the context's texture names are unchanged), no field is assigned,
    no signal is emitted and no OpenGL call is made. The debug line names
    the guard that stopped the paint: [is not ready] whenever ready is
    false (the chain is then not looked up), and [does not have chain]
    with the chain when the node is ready and the chain has no entry. *)
Theorem paint_soft_failure amb chain inputTextures (s : Store) :
  m_ready (this s) = false \/ m_renderStates (this s) !! chain_ptr chain = None ->
  exists d,
    paint amb chain inputTextures s = Some (0, s, [EvDebug d]) /\
    (m_ready (this s) = false -> d = dbg_is_not_ready) /\
    (m_ready (this s) = true -> d = dbg_does_not_have_chain (chain_ptr chain)) /\
    gl_calls [EvDebug d] = [] /\ assigned [EvDebug d] = [] /\ signals [EvDebug d] = [].
Proof.
  intros H.
  destruct (m_ready (this s)) eqn:Hr.
  - destruct H as [H|H]; [discriminate|].
    exists (dbg_does_not_have_chain (chain_ptr chain)).
    rewrite (paint_no_chain _ _ _ _ Hr H).
    split; [reflexivity|]. split; [discriminate|]. repeat split.
  - exists dbg_is_not_ready. rewrite (paint_not_ready _ _ _ _ Hr).
    split; [reflexivity|]. split; [reflexivity|]. split; [discriminate|]. repeat split.
Qed.

Lemma paint_soft_failure_witness :
  paint sample_ambient (mkChain 7 (mkQSize 4 3) 99) [55] s_named =
    Some (0, s_named, [EvDebug (dbg_does_not_have_chain 7)]) /\
  paint sample_ambient (mkChain 7 (mkQSize 4 3) 99) [55] s_reloading =
    Some (0, s_reloading, [EvDebug dbg_is_not_ready]).
Proof.
  split.
  - destruct (paint_soft_failure sample_ambient (mkChain 7 (mkQSize 4 3) 99) [55] s_named)
      as (d & Hrun & _ & Hd & _); [right; reflexivity|].
    rewrite (Hd eq_refl) in Hrun. exact Hrun.
  - destruct (paint_soft_failure sample_ambient (mkChain 7 (mkQSize 4 3) 99) [55] s_reloading)
      as (d & Hrun & Hd & _); [left; reflexivity|].
    rewrite (Hd eq_refl) in Hrun. exact Hrun.
Defined.

End GuardFacts.

(** ** Render states behind shared pointers *)

Module StateFacts.
Import Values Node EffectNodeImpl Observe Samples MonadFacts.
Local Open Scope list_scope.

Lemma at_app_length {A} (pre l : list A) (c : A) :
  at_ (pre ++ c :: l) (Z.of_nat (length pre)) = Some c.
Proof.
  unfold at_. destruct (Z.ltb_spec (Z.of_nat (length pre)) 0) as [H|_]; [lia|].
  rewrite Nat2Z.id. apply list_lookup_middle. reflexivity.
Qed.

(** A counting loop that reads [l.at(i)] at every step visits the
    elements of [l] in order. *)
Lemma for_up_at {A} (f : A -> M unit) (l pre : list A) (s : Store) :
  for_up (Z.of_nat (length pre)) (length l)
         (fun i => bind (lift (at_ (pre ++ l) i)) f) s =
  foldr (fun c k => bind (f c) (fun _ => k)) (ret tt) l s.
Proof.
  revert pre s. induction l as [|c l IH]; intros pre s; [reflexivity|].
  cbn [for_up length foldr].
  rewrite bind_assoc, bind_lift, at_app_length.
  apply bind_cong; [reflexivity|]. intros _ s1.
  specialize (IH (pre ++ [c]) s1).
  rewrite length_app, Nat2Z.inj_add in IH. cbn [length] in IH.
  rewrite <- app_assoc in IH. cbn [app] in IH.
  change (Z.of_nat 1) with 1 in IH. exact IH.
Qed.

Lemma chainsEdited_unfold (added removed : list Chain) (s : Store) :
  chainsEdited added removed s =
  bind (event EvLock) (fun _ =>
  bind (foldr (fun c k => bind (add_chain c) (fun _ => k)) (ret tt) added) (fun _ =>
  bind (foldr (fun c k => bind (remove_chain c) (fun _ => k)) (ret tt) removed) (fun _ =>
  event EvUnlock))) s.
Proof.
  unfold chainsEdited.
  apply bind_cong; [reflexivity|]. intros _ s1.
  apply bind_cong; [|intros _ s2; apply bind_cong; [|reflexivity]].
  - intros s0. apply (for_up_at add_chain added [] s0).
  - intros s0. apply (for_up_at remove_chain removed [] s0).
Qed.

Lemma add_chain_run (c : Chain) (s : Store) :
  let l := fresh (dom (heap s)) in
  add_chain c s =
    Some (tt,
          mkStore (with_renderStates (<[chain_ptr c := l]> (m_renderStates (this s))) (this s))
                  (<[l := EffectNodeRenderState_new]> (heap s)) (gl_next s),
          [EvAssign F_renderStates]).
Proof. reflexivity. Qed.

Lemma remove_chain_run (c : Chain) (s : Store) :
  remove_chain c s =
    Some (tt,
          mkStore (with_renderStates (delete (chain_ptr c) (m_renderStates (this s))) (this s))
                  (heap s) (gl_next s),
          [EvAssign F_renderStates]).
Proof. destruct s. reflexivity. Qed.

Lemma add_chain_separate (c : Chain) (s : Store) :
  states_separate s (this s) ->
  exists s', add_chain c s = Some (tt, s', [EvAssign F_renderStates]) /\
             states_separate s' (this s') /\
             is_Some (m_renderStates (this s') !! chain_ptr c) /\
             render_state s' (this s') (chain_ptr c) = Some EffectNodeRenderState_new.
Proof.
  intros [Hinj Halloc]. eexists. split; [apply add_chain_run|].
  set (l := fresh (dom (heap s))).
  assert (Hl : heap s !! l = None).
  { apply not_elem_of_dom. apply is_fresh. }
  split; [split|split]; cbn.
  - intros c1 c2 l0. rewrite !lookup_insert.
    repeat case_decide; intros H1 H2; simplify_eq; auto.
    + apply Halloc in H2. rewrite Hl in H2. destruct H2; discriminate.
    + apply Halloc in H1. rewrite Hl in H1. destruct H1; discriminate.
    + eauto.
  - intros c0 l0. rewrite !lookup_insert.
    repeat case_decide; intros H1; simplify_eq; eauto.
  - rewrite lookup_insert_eq. eauto.
  - unfold render_state. cbn. rewrite lookup_insert_eq. apply lookup_insert_eq.
Qed.

Lemma remove_chain_separate (c : Chain) (s : Store) :
  states_separate s (this s) ->
  exists s', remove_chain c s = Some (tt, s', [EvAssign F_renderStates]) /\
             states_separate s' (this s') /\
             m_renderStates (this s') !! chain_ptr c = None.
Proof.
  intros [Hinj Halloc]. eexists. split; [apply remove_chain_run|].
  split; [split|]; cbn.
  - intros c1 c2 l0. rewrite !lookup_delete.
    repeat case_decide; intros H1 H2; simplify_eq; eauto.
  - intros c0 l0. rewrite lookup_delete. case_decide; intros H1; simplify_eq; eauto.
  - apply lookup_delete_eq.
Qed.

Lemma fresh_node_separate (s : Store) :
  m_renderStates (this s) = ∅ -> states_separate s (this s).
Proof.
  intros H. split; intros *; rewrite H, lookup_empty; discriminate.
Qed.

(** [chainsEdited] always runs to its end, takes and releases the lock
    around its assignments, and keeps the render states of the node
    separate and allocated. *)
Lemma chainsEdited_separate (added removed : list Chain) (s : Store) :
  states_separate s (this s) ->
  exists s' ev,
    chainsEdited added removed s = Some (tt, s', [EvLock] ++ ev ++ [EvUnlock]) /\
    states_separate s' (this s').
Proof.
  intros Hsep. rewrite chainsEdited_unfold.
  assert (Hadd : forall l s0, states_separate s0 (this s0) ->
    exists s1 e1,
      foldr (fun c k => bind (add_chain c) (fun _ => k)) (ret tt) l s0 = Some (tt, s1, e1) /\
      states_separate s1 (this s1)).
  { induction l as [|c l IH]; intros s0 H0.
    - exists s0, []. split; [reflexivity|exact H0].
    - destruct (add_chain_separate c s0 H0) as (s1 & Hrun & H1 & _).
      destruct (IH s1 H1) as (s2 & e2 & Hrun2 & H2).
      exists s2, ([EvAssign F_renderStates] ++ e2). split; [|exact H2].
      cbn [foldr]. rewrite (bind_run _ _ _ _ _ _ Hrun), Hrun2. reflexivity. }
  assert (Hrem : forall l s0, states_separate s0 (this s0) ->
    exists s1 e1,
      foldr (fun c k => bind (remove_chain c) (fun _ => k)) (ret tt) l s0 = Some (tt, s1, e1) /\
      states_separate s1 (this s1)).
  { induction l as [|c l IH]; intros s0 H0.
    - exists s0, []. split; [reflexivity|exact H0].
    - destruct (remove_chain_separate c s0 H0) as (s1 & Hrun & H1 & _).
      destruct (IH s1 H1) as (s2 & e2 & Hrun2 & H2).
      exists s2, ([EvAssign F_renderStates] ++ e2). split; [|exact H2].
      cbn [foldr]. rewrite (bind_run _ _ _ _ _ _ Hrun), Hrun2. reflexivity. }
  destruct (Hadd added s Hsep) as (s1 & e1 & Hr1 & H1).
  destruct (Hrem removed s1 H1) as (s2 & e2 & Hr2 & H2).
  exists s2, (e1 ++ e2). split; [|exact H2].
  unfold bind at 1. cbn [event].
  rewrite (bind_run _ _ _ _ _ _ Hr1), (bind_run _ _ _ _ _ _ Hr2).
  cbn [event]. rewrite <- !app_assoc. reflexivity.
Qed.

(** What [copyBackRenderState] does when the node still has the chain
    and the painted copy has a render state for it. *)
Lemma copyBackRenderState_present (chain : Chain) (copy : EffectNode) (s : Store) l src r :
  m_renderStates (this s) !! chain_ptr chain = Some l ->
  is_Some (heap s !! l) ->
  m_renderStates copy !! chain_ptr chain = Some src ->
  heap s !! src = Some r ->
  copyBackRenderState chain copy s =
    Some (tt, mkStore (this s) (<[l := r]> (heap s)) (gl_next s),
          [EvLock; EvAssign (F_state l); EvUnlock]).
Proof.
  intros Hl [r0 Hr0] Hsrc Hr. unfold copyBackRenderState.
  do 2 mstep. rewrite Hl. unfold deref, store.
  repeat mstep. rewrite Hsrc. repeat mstep. rewrite Hr. repeat mstep.
  rewrite Hr0. reflexivity.
Qed.

Lemma copyBackRenderState_absent (chain : Chain) (copy : EffectNode) (s : Store) :
  m_renderStates (this s) !! chain_ptr chain = None ->
  copyBackRenderState chain copy s =
    Some (tt, s, [EvLock; EvDebug dbg_chain_was_deleted_during_rendering; EvUnlock]).
Proof.
  intros Hl. unfold copyBackRenderState.
  do 2 mstep. rewrite Hl. reflexivity.
Qed.

(** When the node has the chain and the painted copy has no render
    state for it, [QMap::value] gives a null pointer and the call stops
    at its dereference. *)
Remark copyBackRenderState_null (chain : Chain) (copy : EffectNode) (s : Store) l :
  m_renderStates (this s) !! chain_ptr chain = Some l ->
  m_renderStates copy !! chain_ptr chain = None ->
  copyBackRenderState chain copy s = None.
Proof.
  intros Hl Hsrc. unfold copyBackRenderState.
  do 2 mstep. rewrite Hl. repeat mstep. rewrite Hsrc. reflexivity.
Qed.

(** The copy made for rendering holds, for each chain, a state equal to
    the node's in an object of its own. *)
Example createCopyForRendering_sample :
  exists v s' ev,
    createCopyForRendering "" q_zero q_zero s_two_chains = Some (v, s', ev) /\
    ev = [EvLock; EvUnlock] /\
    this s' = this s_two_chains /\
    render_state s' v 7%nat = render_state s_two_chains (this s_two_chains) 7%nat /\
    render_state s' v 8%nat = render_state s_two_chains (this s_two_chains) 8%nat /\
    m_renderStates v !! 7%nat <> m_renderStates (this s_two_chains) !! 7%nat /\
    m_renderStates v !! 7%nat <> m_renderStates v !! 8%nat.
Proof.
  destruct (createCopyForRendering "" q_zero q_zero s_two_chains) as [[[v s'] ev]|] eqn:E;
    [|vm_compute in E; discriminate].
  exists v, s', ev. split; [reflexivity|].
  vm_compute in E. injection E as <- <- <-.
  repeat split; try (vm_compute; reflexivity); vm_compute; discriminate.
Qed.

(** C8. [copyBackRenderState chain copy], on a node whose render states
    are separate objects: when the node still has the chain (and the
    painted copy holds a state for it), the call takes the lock, writes
    the copy's state over the node's state for that chain, and releases
    the lock; the node's state for the chain is then the copy's, and its
    state for every other chain is what it was. When the node no longer
    has the chain, the call only writes a debug line between taking and
    releasing the lock, and the store is unchanged. The node's own
    fields are unchanged in both cases. *)
Theorem copyBackRenderState_effect (chain : Chain) (copy : EffectNode) (s : Store) :
  states_separate s (this s) ->
  (forall l r,
     m_renderStates (this s) !! chain_ptr chain = Some l ->
     render_state s copy (chain_ptr chain) = Some r ->
     exists s',
       copyBackRenderState chain copy s =
         Some (tt, s', [EvLock; EvAssign (F_state l); EvUnlock]) /\
       this s' = this s /\
       render_state s' (this s') (chain_ptr chain) = Some r /\
       forall c, c <> chain_ptr chain ->
                 render_state s' (this s') c = render_state s (this s) c) /\
  (m_renderStates (this s) !! chain_ptr chain = None ->
   copyBackRenderState chain copy s =
     Some (tt, s, [EvLock; EvDebug dbg_chain_was_deleted_during_rendering; EvUnlock])).
Proof.
  intros [Hinj Halloc]. split.
  - intros l r Hl Hr. unfold render_state in Hr.
    destruct (m_renderStates copy !! chain_ptr chain) as [src|] eqn:Hsrc; [|discriminate].
    eexists. split.
    { apply (copyBackRenderState_present chain copy s l src r); eauto. }
    cbn. split; [reflexivity|]. split.
    + unfold render_state. cbn. rewrite Hl. apply lookup_insert_eq.
    + intros c Hc. unfold render_state. cbn.
      destruct (m_renderStates (this s) !! c) as [l'|] eqn:Hl'; [|reflexivity].
      apply lookup_insert_ne. intros ->. apply Hc. eapply Hinj; eauto.
  - apply copyBackRenderState_absent.
Qed.

Lemma copyBackRenderState_effect_witness :
  exists s',
    copyBackRenderState sample_chain sample_copy s_two_chains =
      Some (tt, s', [EvLock; EvAssign (F_state 0%nat); EvUnlock]) /\
    render_state s' (this s') 7%nat = Some sample_state /\
    render_state s' (this s') 8%nat = Some EffectNodeRenderState_new.
Proof.
  assert (Hsep : states_separate s_two_chains (this s_two_chains)).
  { split.
    - intros c1 c2 l H1 H2. cbn in H1, H2.
      destruct (decide (c1 = 7%nat)); destruct (decide (c2 = 7%nat));
      destruct (decide (c1 = 8%nat)); destruct (decide (c2 = 8%nat));
      simplify_map_eq; reflexivity.
    - intros c l H1. cbn in H1.
      destruct (decide (c = 7%nat)); destruct (decide (c = 8%nat));
      simplify_map_eq; eexists; reflexivity. }
  destruct (copyBackRenderState_effect sample_chain sample_copy s_two_chains Hsep)
    as [H _].
  destruct (H 0%nat sample_state eq_refl eq_refl) as (s' & Hrun & _ & Hst & Hother).
  exists s'. split; [exact Hrun|]. split; [exact Hst|].
  rewrite (Hother 8%nat); [reflexivity|discriminate].
Defined.

End StateFacts.

(** ** The loader *)

Module LoaderFacts.
Import Text Grammar Values Node EffectNodeImpl Loader Observe Samples MonadFacts.
Local Open Scope list_scope.

Lemma back_append_snoc (init : list (list string)) (last : list string) (x : string) :
  back_append (init ++ [last]) x = Some (init ++ [last ++ [x]]).
Proof.
  induction init as [|p init IH]; [reflexivity|].
  cbn [app back_append]. rewrite IH.
  destruct (init ++ [last]) eqn:E; [destruct init; discriminate|reflexivity].
Qed.

Lemma nonempty_snoc {A} (l : list A) : l <> [] -> exists init last, l = init ++ [last].
Proof.
  intros H. destruct (exists_last H) as (init & last & ->). eauto.
Qed.

Lemma back_append_total (passes : list (list string)) (x : string) :
  passes <> [] ->
  exists passes',
    back_append passes x = Some passes' /\ passes' <> [] /\
    length passes' = length passes /\
    (Forall marked passes -> Forall marked passes').
Proof.
  intros H. destruct (nonempty_snoc passes H) as (init & last & ->).
  exists (init ++ [last ++ [x]]). split; [apply back_append_snoc|].
  split; [destruct init; discriminate|]. split; [now rewrite !length_app|].
  rewrite !Forall_app, !Forall_singleton. intros [Hi (n & rest & ->)].
  split; [exact Hi|]. exists n, (rest ++ [x]). reflexivity.
Qed.

(** The reading loop never fails on a non-empty pass list, leaves the
    store alone, only writes debug lines, never removes a pass, and keeps
    a marker at the head of every pass. *)
Lemma parse_lines_total (lines : list string) :
  forall (lineno : nat) (passes : list (list string)) (props : gmap string string)
         (s : Store),
    passes <> [] ->
    exists passes' props' ev,
      parse_lines lines lineno passes props s = Some ((passes', props'), s, ev) /\
      passes' <> [] /\
      (length passes <= length passes')%nat /\
      (Forall marked passes -> Forall marked passes') /\
      forallb is_debug ev = true.
Proof.
  induction lines as [|line lines IH]; intros lineno passes props s Hne.
  - exists passes, props, []. repeat split; auto.
  - cbn [parse_lines].
    destruct (property_reg line) as [[name value]|].
    + destruct (back_append_total passes (line_marker lineno) Hne)
        as (p1 & Hb & Hne1 & Hlen1 & Hm1).
      destruct (IH (S lineno) p1 (<[name := value]> props) s Hne1)
        as (p2 & props2 & ev2 & Hrun & Hne2 & Hlen2 & Hm2 & Hdbg).
      exists p2, props2, (EvDebug (dbg_setting_property name value) :: ev2).
      split; [|repeat split; auto; lia].
      repeat mstep. rewrite Hb. unfold qDebug. repeat mstep. rewrite Hrun. reflexivity.
    + destruct (buffershader_reg line).
      * destruct (IH (S lineno) (passes ++ [[line_marker lineno]]) props s)
          as (p2 & props2 & ev2 & Hrun & Hne2 & Hlen2 & Hm2 & Hdbg).
        { destruct passes; discriminate. }
        exists p2, props2, ev2. split; [exact Hrun|].
        rewrite length_app in Hlen2. cbn [length] in Hlen2.
        repeat split; auto; [lia|].
        intros Hm. apply Hm2. apply Forall_app. split; [exact Hm|].
        apply Forall_singleton. exists lineno, []. reflexivity.
      * destruct (back_append_total passes line Hne) as (p1 & Hb & Hne1 & Hlen1 & Hm1).
        destruct (IH (S lineno) p1 props s Hne1)
          as (p2 & props2 & ev2 & Hrun & Hne2 & Hlen2 & Hm2 & Hdbg).
        exists p2, props2, ev2. split; [|repeat split; auto; lia].
        repeat mstep. rewrite Hb. exact Hrun.
Qed.

Lemma parse_source_total (text : string) (s : Store) :
  exists passes props ev,
    parse_source text s = Some ((passes, props), s, ev) /\
    passes <> [] /\ Forall marked passes /\ forallb is_debug ev = true.
Proof.
  unfold parse_source.
  destruct (parse_lines_total (readLines text) O [["#line 0"]] {["inputCount" := "1"]} s)
    as (p & props & ev & Hrun & Hne & _ & Hm & Hdbg); [discriminate|].
  exists p, props, ev. repeat split; auto.
  apply Hm. apply Forall_singleton. exists O, []. reflexivity.
Qed.

(** The loop over the passes either builds one program per pass, all
    compiled and linked, or stops at the first failure with one fatal
    signal whose text is one of the three fixed ones. *)
Lemma build_programs_cases (glc : GLCompiler) (h : string) (passes : list (list string)) :
  forall (acc : list QOpenGLShaderProgram) (s : Store),
    (forallb (fun pass => compiled_and_linked glc (program_of_pass h pass)) passes = true /\
     build_programs glc h passes acc s =
       Some (Some (acc ++ map (program_of_pass h) passes), s, [])) \/
    (forallb (fun pass => compiled_and_linked glc (program_of_pass h pass)) passes = false /\
     exists msg, In msg build_failure_messages /\
       build_programs glc h passes acc s = Some (None, s, [EvEmit (fatal msg)])).
Proof.
  induction passes as [|pass passes IH]; intros acc s.
  - left. split; [reflexivity|]. cbn. now rewrite app_nil_r.
  - cbn [build_programs forallb map].
    unfold compiled_and_linked at 1 3. cbn [program_of_pass vertex_source fragment_source].
    destruct (compiles glc Vertex vertexString); cbn [negb andb].
    2:{ right. split; [reflexivity|]. eexists. split; [|reflexivity]. cbn; auto. }
    destruct (compiles glc Fragment _); cbn [negb andb].
    2:{ right. split; [reflexivity|]. eexists. split; [|reflexivity]. cbn; auto. }
    destruct (links glc vertexString _); cbn [negb andb].
    2:{ right. split; [reflexivity|]. eexists. split; [|reflexivity]. cbn; auto. }
    destruct (IH (acc ++ [mkProgram vertexString (h +:+ nl +:+ join nl pass)]) s)
      as [[Hok Hrun]|[Hbad (msg & Hin & Hrun)]].
    + left. split; [exact Hok|]. rewrite Hrun. now rewrite <- app_assoc.
    + right. split; [exact Hbad|]. exists msg. split; [exact Hin|exact Hrun].
Qed.

(** Where the loop over the passes stops: at the first pass whose
    program the context does not build, with the text of the first step
    that fails for it. *)
Lemma build_programs_first_failure (glc : GLCompiler) (h : string)
    (passes : list (list string)) :
  forall (acc : list QOpenGLShaderProgram) (s s' : Store) (ev : list Event),
    build_programs glc h passes acc s = Some (None, s', ev) ->
    exists msg before pass after,
      ev = [EvEmit (fatal msg)] /\
      passes = before ++ pass :: after /\
      forallb (fun pass => compiled_and_linked glc (program_of_pass h pass)) before = true /\
      let p := program_of_pass h pass in
      ((compiles glc Vertex (vertex_source p) = false /\
        msg = "Could not compile vertex shader") \/
       (compiles glc Vertex (vertex_source p) = true /\
        compiles glc Fragment (fragment_source p) = false /\
        msg = "Could not compile fragment shader") \/
       (compiles glc Vertex (vertex_source p) = true /\
        compiles glc Fragment (fragment_source p) = true /\
        links glc (vertex_source p) (fragment_source p) = false /\
        msg = "Could not link shader program")).
Proof.
  induction passes as [|pass passes IH]; intros acc s s' ev Hrun; [discriminate|].
  cbn [build_programs] in Hrun. cbv zeta.
  destruct (compiles glc Vertex vertexString) eqn:Hv; cbn [negb] in Hrun.
  2:{ injection Hrun as <- <-. exists "Could not compile vertex shader", [], pass, passes.
      repeat split. left. auto. }
  destruct (compiles glc Fragment (h +:+ nl +:+ join nl pass)) eqn:Hf; cbn [negb] in Hrun.
  2:{ injection Hrun as <- <-. exists "Could not compile fragment shader", [], pass, passes.
      repeat split. right. left. auto. }
  destruct (links glc vertexString (h +:+ nl +:+ join nl pass)) eqn:Hl; cbn [negb] in Hrun.
  2:{ injection Hrun as <- <-. exists "Could not link shader program", [], pass, passes.
      repeat split. right. right. auto. }
  destruct (IH _ _ _ _ Hrun) as (msg & before & pass' & after & -> & -> & Hok & Hstage).
  exists msg, (pass :: before), pass', after. split; [reflexivity|]. split; [reflexivity|].
  split; [|exact Hstage].
  cbn [forallb]. rewrite Hok. unfold compiled_and_linked.
  cbn [program_of_pass vertex_source fragment_source]. now rewrite Hv, Hf, Hl.
Qed.

(** No fixed text of a build failure, and not the text about the header,
    holds the path of an effect file. *)
Lemma build_failure_without_path (name msg : string) :
  In msg build_failure_messages -> contains (effect_path name) msg = false.
Proof. intros [<-|[<-|[<-|[]]]]; reflexivity. Qed.

Lemma header_text_without_path (name : string) :
  contains (effect_path name) (could_not_open "../resources/effect_header.glsl") = false.
Proof. reflexivity. Qed.

Lemma map_nonempty {A B} (f : A -> B) (l : list A) : l <> [] -> is_nil (map f l) = false.
Proof. destruct l; [contradiction|reflexivity]. Qed.

(** Every way [loadProgram] can end, for a node marked unready. *)
Lemma loadProgram_cases (fs : gmap string FileEntry) (glc : GLCompiler)
    (name : string) (s : Store) :
  m_ready (this s) = false ->
  (exists pre msg,
     loadProgram fs glc name s = Some (false, s, pre ++ [EvEmit (fatal msg)]) /\
     forallb is_debug pre = true /\
     ((QFile_open fs header_path = None /\ exists path, msg = could_not_open path) \/
      ((exists_and_isFile fs (effect_path name) = false \/
        QFile_open fs (effect_path name) = None) /\
       msg = could_not_open (effect_path name)) \/
      (In msg build_failure_messages /\
       exists h text passes props,
         QFile_open fs header_path = Some h /\
         QFile_open fs (effect_path name) = Some text /\
         parse_source text s = Some ((passes, props), s, pre) /\
         forallb (fun pass => compiled_and_linked glc (program_of_pass h pass)) passes
           = false))) \/
  (exists h text passes props dbg,
     loadProgram fs glc name s =
       Some (true,
             mkStore (with_programs (map (program_of_pass h) passes) (this s))
                     (heap s) (gl_next s),
             dbg ++ [EvLock; EvAssign F_programs; EvUnlock]) /\
     QFile_open fs header_path = Some h /\
     exists_and_isFile fs (effect_path name) = true /\
     QFile_open fs (effect_path name) = Some text /\
     parse_source text s = Some ((passes, props), s, dbg) /\
     passes <> [] /\
     forallb is_debug dbg = true /\
     forallb (fun pass => compiled_and_linked glc (program_of_pass h pass)) passes = true).
Proof.
  intros Hready. unfold loadProgram. mstep. rewrite Hready. cbn [negb Q_ASSERT]. mstep.
  fold (effect_path name).
  destruct (QFile_open fs header_path) as [h|] eqn:Hh.
  2:{ left. exists [], (could_not_open "../resources/effect_header.glsl").
      split; [reflexivity|]. split; [reflexivity|]. left. eauto. }
  destruct (exists_and_isFile fs (effect_path name)) eqn:Hex; cbn [negb].
  2:{ left. exists [], (could_not_open (effect_path name)).
      split; [reflexivity|]. split; [reflexivity|]. right. left. auto. }
  destruct (QFile_open fs (effect_path name)) as [text|] eqn:Hf.
  2:{ left. exists [], (could_not_open (effect_path name)).
      split; [reflexivity|]. split; [reflexivity|]. right. left. auto. }
  destruct (parse_source_total text s) as (passes & props & dbg & Hparse & Hne & _ & Hdbg).
  rewrite (bind_run _ _ _ _ _ _ Hparse). cbn [fst snd].
  destruct (build_programs_cases glc h passes [] s) as [[Hok Hrun]|[Hbad (msg & Hin & Hrun)]].
  - right. exists h, text, passes, props, dbg.
    rewrite (bind_run _ _ _ _ _ _ Hrun). cbn [app].
    rewrite (map_nonempty _ _ Hne).
    split; [|repeat split; auto].
    repeat mstep. destruct s; reflexivity.
  - left. exists dbg, msg.
    rewrite (bind_run _ _ _ _ _ _ Hrun).
    split; [reflexivity|]. split; [exact Hdbg|].
    right. right. split; [exact Hin|]. exists h, text, passes, props. auto.
Qed.

(** With both files read, a load whose passes are not all built stops
    at the first pass that is not, with the text of the step that
    failed. *)
Lemma loadProgram_first_failure (fs : gmap string FileEntry) (glc : GLCompiler)
    (name : string) (s : Store) h text passes props dbg :
  m_ready (this s) = false ->
  QFile_open fs header_path = Some h ->
  exists_and_isFile fs (effect_path name) = true ->
  QFile_open fs (effect_path name) = Some text ->
  parse_source text s = Some ((passes, props), s, dbg) ->
  forallb (fun pass => compiled_and_linked glc (program_of_pass h pass)) passes = false ->
  exists msg before pass after,
    loadProgram fs glc name s = Some (false, s, dbg ++ [EvEmit (fatal msg)]) /\
    passes = before ++ pass :: after /\
    forallb (fun pass => compiled_and_linked glc (program_of_pass h pass)) before = true /\
    let p := program_of_pass h pass in
    ((compiles glc Vertex (vertex_source p) = false /\
      msg = "Could not compile vertex shader") \/
     (compiles glc Vertex (vertex_source p) = true /\
      compiles glc Fragment (fragment_source p) = false /\
      msg = "Could not compile fragment shader") \/
     (compiles glc Vertex (vertex_source p) = true /\
      compiles glc Fragment (fragment_source p) = true /\
      links glc (vertex_source p) (fragment_source p) = false /\
      msg = "Could not link shader program")).
Proof.
  intros Hready Hh Hex Hf Hparse Hbad.
  destruct (build_programs_cases glc h passes [] s) as [[Hok _]|[_ (msg0 & _ & Hrun)]];
    [congruence|].
  destruct (build_programs_first_failure glc h passes [] s s _ Hrun)
    as (msg & before & pass & after & Hev & Hp & Hok & Hstage).
  exists msg, before, pass, after. split; [|split; [exact Hp|split; [exact Hok|exact Hstage]]].
  unfold loadProgram. mstep. rewrite Hready. cbn [negb Q_ASSERT]. mstep.
  fold (effect_path name). rewrite Hh, Hex, Hf. cbn [negb].
  rewrite (bind_run _ _ _ _ _ _ Hparse). cbn [fst snd].
  rewrite (bind_run _ _ _ _ _ _ Hrun). rewrite Hev. reflexivity.
Qed.

Lemma contains_unfold (needle s : string) :
  contains needle s =
    if String.prefix needle s then true
    else match s with
         | EmptyString => false
         | String _ s' => contains needle s'
         end.
Proof. destruct s; reflexivity. Qed.

Lemma prefix_append (b c : string) : String.prefix b (b +:+ c) = true.
Proof.
  induction b as [|x b IH]; [destruct c; reflexivity|].
  change (String x b +:+ c) with (String x (b +:+ c)).
  cbn [String.prefix]. destruct (ascii_dec x x); [exact IH|contradiction].
Qed.

Lemma contains_append (a b c : string) : contains b (a +:+ b +:+ c) = true.
Proof.
  induction a as [|ch a IH].
  - change ("" +:+ b +:+ c) with (b +:+ c).
    rewrite contains_unfold, prefix_append. reflexivity.
  - change (String ch a +:+ b +:+ c) with (String ch (a +:+ b +:+ c)).
    cbn [contains]. rewrite IH. destruct (String.prefix b _); reflexivity.
Qed.

Lemma contains_could_not_open (path : string) :
  contains path (could_not_open path) = true.
Proof.
  change (could_not_open path) with (("Could not open " +:+ dquote) +:+ path +:+ dquote).
  apply contains_append.
Qed.

Lemma debug_only (ev : list Event) :
  forallb is_debug ev = true ->
  signals ev = [] /\ assigned ev = [] /\ gl_calls ev = [].
Proof.
  induction ev as [|e ev IH]; [auto|].
  cbn [forallb]. intros H. apply andb_true_iff in H as [He Hev].
  destruct e; try discriminate. exact (IH Hev).
Qed.

Lemma could_not_open_differs (path name : string) :
  could_not_open path <> no_shaders_found name.
Proof. discriminate. Qed.

Lemma build_failure_differs (msg name : string) :
  In msg build_failure_messages -> msg <> no_shaders_found name.
Proof. intros [<-|[<-|[<-|[]]]]; discriminate. Qed.

Lemma debug_not_initialized (ev : list Event) :
  forallb is_debug ev = true -> existsb is_initialized ev = false.
Proof.
  induction ev as [|e ev IH]; [reflexivity|].
  cbn [forallb existsb]. intros H. apply andb_true_iff in H as [He Hev].
  rewrite (IH Hev). destruct e; try discriminate. reflexivity.
Qed.

(** A load whose [loadProgram] returns false: the worker writes its
    debug line, [initialized] is not emitted, and the slot that sets
    ready does not run. *)
Lemma load_failed (fs : gmap string FileEntry) (glc : GLCompiler) (s : Store)
    (pre : list Event) (msg : string) :
  loadProgram fs glc (m_name (this s)) s = Some (false, s, pre ++ [EvEmit (fatal msg)]) ->
  forallb is_debug pre = true ->
  load fs glc s =
    Some (tt, s, EvGL makeCurrent :: (pre ++ [EvEmit (fatal msg)]) ++
                 [EvDebug dbg_load_program_failed]).
Proof.
  intros Hrun Hdbg. unfold load.
  assert (Hinit : initialize fs glc s =
            Some (tt, s, EvGL makeCurrent :: (pre ++ [EvEmit (fatal msg)]) ++
                         [EvDebug dbg_load_program_failed])).
  { unfold initialize, gl. mstep. mstep.
    rewrite (bind_run _ _ _ _ _ _ Hrun). reflexivity. }
  rewrite Hinit. cbn [existsb is_initialized orb].
  rewrite existsb_app, existsb_app, (debug_not_initialized _ Hdbg). reflexivity.
Qed.

(** C9. For every source text the reading loop ends with at least one
    pass, and every pass begins with a line marker. The list of programs
    built from the passes is therefore never empty when the loop over
    the passes completes, and [loadProgram] never emits the fatal signal
    [No shaders found]. *)
Theorem parser_yields_a_pass (text : string) (s : Store) :
  exists passes props ev,
    parse_source text s = Some ((passes, props), s, ev) /\
    (1 <= length passes)%nat /\
    Forall marked passes /\
    (forall glc h s0,
       match build_programs glc h passes [] s0 with
       | Some (Some programs, _, _) => is_nil programs = false
       | _ => True
       end) /\
    (forall fs glc name s0,
       match loadProgram fs glc name s0 with
       | Some (_, _, ev0) => ~ In (fatal (no_shaders_found name)) (signals ev0)
       | None => m_ready (this s0) = true
       end).
Proof.
  destruct (parse_source_total text s) as (passes & props & ev & Hrun & Hne & Hm & _).
  exists passes, props, ev. split; [exact Hrun|]. split.
  { destruct passes; [contradiction|cbn; lia]. }
  split; [exact Hm|]. split.
  - intros glc h s0.
    destruct (build_programs_cases glc h passes [] s0) as [[_ ->]|[_ (msg & _ & ->)]];
      [|exact I].
    cbn [app]. now apply map_nonempty.
  - intros fs glc name s0. destruct (m_ready (this s0)) eqn:Hready.
    + unfold loadProgram. mstep. rewrite Hready. reflexivity.
    + destruct (loadProgram_cases fs glc name s0 Hready)
        as [(pre & msg & -> & Hdbg & Hcause)|(h & t & ps & pr & dbg & -> & _ & _ & _ & _ & _ & Hdbg & _)].
      * unfold signals. rewrite omap_app. fold (signals pre).
        destruct (debug_only pre Hdbg) as (-> & _ & _). cbn.
        intros [E|[]]. injection E as E. revert E.
        destruct Hcause as [[_ [path ->]]|[[_ ->]|[Hin _]]].
        -- apply could_not_open_differs.
        -- apply could_not_open_differs.
        -- now apply build_failure_differs.
      * unfold signals. rewrite omap_app. fold (signals dbg).
        destruct (debug_only dbg Hdbg) as (-> & _ & _). cbn. tauto.
Qed.

(** C5, as the code has it. Reading the example source gives the
    property map with [foo] set to 3 beside the default [inputCount] set
    to 1, and exactly two passes: the first holds the initial marker, the
    marker that replaces the property line, and LINE_A; the second holds
    the marker of the [#buffershader] line and LINE_B. Without their line
    markers the bodies are LINE_A and LINE_B; no directive line is in a
    body. *)
Theorem parse_example (s : Store) :
  parse_source source_example s =
    Some (([["#line 0"; "#line 0"; "LINE_A"]; ["#line 2"; "LINE_B"]],
           <["foo" := "3"]> {["inputCount" := "1"]}),
          s, [EvDebug (dbg_setting_property "foo" "3")]) /\
  map without_markers [["#line 0"; "#line 0"; "LINE_A"]; ["#line 2"; "LINE_B"]] =
    [["LINE_A"]; ["LINE_B"]].
Proof. split; reflexivity. Qed.

(** C5 as stated fails: the property map is not the map that holds only
    [foo], and the first body is not the single line LINE_A. *)
Lemma parse_example_counterexample :
  exists passes props ev,
    parse_source source_example s_fresh = Some ((passes, props), s_fresh, ev) /\
    props <> {["foo" := "3"]} /\
    props !! "inputCount" = Some "1" /\
    map (join nl) passes <> ["LINE_A"; "LINE_B"].
Proof.
  exists [["#line 0"; "#line 0"; "LINE_A"]; ["#line 2"; "LINE_B"]],
         (<["foo" := "3"]> {["inputCount" := "1"]}),
         [EvDebug (dbg_setting_property "foo" "3")].
  split; [reflexivity|]. split; [|split; [reflexivity|discriminate]].
  intros H. apply (f_equal (fun m : gmap string string => m !! "inputCount")) in H.
  vm_compute in H. discriminate.
Qed.

End LoaderFacts.

(** ** Failed and successful loads *)

Module LoadClaims.
Import Text Grammar Values Node EffectNodeImpl Loader Observe Samples MonadFacts.
Import LoaderFacts GuardFacts.
Local Open Scope list_scope.

(** C3, as the code has it. A load of a node marked unready always
    returns. When it returns false (the header or the effect file cannot
    be opened, or a stage of some pass does not compile, or a program
    does not link), the store is exactly the one before the load: the
    program list is unchanged, ready is still false, no field was
    assigned; exactly one fatal signal was emitted, as the last event,
    and its text states the reason, by cause. When the header cannot be
    opened, it is the text about the header. When the header can be
    opened and the effect file does not exist or cannot be opened, it is
    [Could not open] with the path of the effect file. When both can be
    opened, some pass is the first that the context does not build, and
    the text is the fixed one for the first step that fails for it:
    compiling the vertex stage, compiling the fragment stage, linking.
    Only the second of these texts carries the path of the effect file.
    The worker then does not emit [initialized], so ready is still false
    after the whole load. While ready is false a paint returns 0, so the
    unchanged programs are not painted. When the load returns true,
    every pass of the source was compiled and linked, no fatal signal
    was emitted, and the only assignment is that of the whole program
    list, between taking and releasing the lock, after the last pass was
    built; so each of the failures makes the load return false. *)
Theorem loadProgram_failure_keeps_programs (fs : gmap string FileEntry)
    (glc : GLCompiler) (name : string) (s : Store) :
  m_ready (this s) = false ->
  exists r s' ev,
    loadProgram fs glc name s = Some (r, s', ev) /\
    (r = false ->
       s' = s /\ m_ready (this s') = false /\
       m_programs (this s') = m_programs (this s) /\
       assigned ev = [] /\
       (exists msg,
          signals ev = [fatal msg] /\ last ev = Some (EvEmit (fatal msg)) /\
          (QFile_open fs header_path = None ->
             msg = could_not_open "../resources/effect_header.glsl" /\
             contains (effect_path name) msg = false) /\
          (is_Some (QFile_open fs header_path) ->
           exists_and_isFile fs (effect_path name) = false \/
           QFile_open fs (effect_path name) = None ->
             msg = could_not_open (effect_path name) /\
             contains (effect_path name) msg = true) /\
          (forall h text,
             QFile_open fs header_path = Some h ->
             exists_and_isFile fs (effect_path name) = true ->
             QFile_open fs (effect_path name) = Some text ->
             In msg build_failure_messages /\
             contains (effect_path name) msg = false /\
             exists passes props dbg before pass after,
               parse_source text s = Some ((passes, props), s, dbg) /\
               passes = before ++ pass :: after /\
               forallb (fun pass => compiled_and_linked glc (program_of_pass h pass))
                 before = true /\
               let p := program_of_pass h pass in
               ((compiles glc Vertex (vertex_source p) = false /\
                 msg = "Could not compile vertex shader") \/
                (compiles glc Vertex (vertex_source p) = true /\
                 compiles glc Fragment (fragment_source p) = false /\
                 msg = "Could not compile fragment shader") \/
                (compiles glc Vertex (vertex_source p) = true /\
                 compiles glc Fragment (fragment_source p) = true /\
                 links glc (vertex_source p) (fragment_source p) = false /\
                 msg = "Could not link shader program"))) /\
          (name = m_name (this s) ->
           exists ev', load fs glc s = Some (tt, s, ev') /\
                       signals ev' = [fatal msg] /\ assigned ev' = [])) /\
       (forall amb chain inputTextures,
          paint amb chain inputTextures s' = Some (0, s', [EvDebug dbg_is_not_ready]))) /\
    (r = true ->
       signals ev = [] /\
       exists h text passes props dbg,
         QFile_open fs header_path = Some h /\
         exists_and_isFile fs (effect_path name) = true /\
         QFile_open fs (effect_path name) = Some text /\
         parse_source text s = Some ((passes, props), s, dbg) /\
         forallb (fun pass => compiled_and_linked glc (program_of_pass h pass)) passes
           = true /\
         s' = mkStore (with_programs (map (program_of_pass h) passes) (this s))
                      (heap s) (gl_next s) /\
         m_programs (this s') = map (program_of_pass h) passes /\
         assigned ev = [F_programs] /\
         ev = dbg ++ [EvLock; EvAssign F_programs; EvUnlock]) /\
    (QFile_open fs header_path = None \/
     exists_and_isFile fs (effect_path name) = false \/
     QFile_open fs (effect_path name) = None \/
     (exists h text passes props dbg,
        QFile_open fs header_path = Some h /\
        QFile_open fs (effect_path name) = Some text /\
        parse_source text s = Some ((passes, props), s, dbg) /\
        forallb (fun pass => compiled_and_linked glc (program_of_pass h pass)) passes
          = false) ->
     r = false).
Proof.
  intros Hready.
  destruct (loadProgram_cases fs glc name s Hready)
    as [(pre & msg & Hrun & Hdbg & Hcause)
       |(h & text & passes & props & dbg & Hrun & Hh & Hex & Hf & Hparse & Hne & Hdbg & Hok)].
  - exists false, s, (pre ++ [EvEmit (fatal msg)]). split; [exact Hrun|].
    split; [|split; [discriminate|reflexivity]]. intros _.
    destruct (debug_only pre Hdbg) as (Hs & Ha & _).
    split; [reflexivity|]. split; [exact Hready|]. split; [reflexivity|].
    split; [unfold assigned; rewrite omap_app; fold (assigned pre); now rewrite Ha|].
    split; [|intros amb chain inputTextures; now apply paint_not_ready].
    exists msg.
    split; [unfold signals; rewrite omap_app; fold (signals pre); now rewrite Hs|].
    split; [apply last_snoc|].
    split; [|split; [|split]].
    + intros Hno.
      assert (Hrun0 : loadProgram fs glc name s =
                Some (false, s,
                      [] ++ [EvEmit (fatal (could_not_open "../resources/effect_header.glsl"))])).
      { unfold loadProgram. mstep. rewrite Hready. cbn [negb Q_ASSERT]. mstep.
        rewrite Hno. reflexivity. }
      rewrite Hrun in Hrun0. injection Hrun0 as Hev.
      apply (app_inj_tail pre []) in Hev as [_ Hev]. injection Hev as ->.
      split; [reflexivity|apply header_text_without_path].
    + intros [h Hh] Hno.
      destruct Hcause as [[E _]|[[_ ->]|(_ & h' & text & ps & pr & _ & Ef & _)]].
      * congruence.
      * split; [reflexivity|apply contains_could_not_open].
      * exfalso. destruct Hno as [Hno|Hno]; [|congruence].
        unfold QFile_open in Ef. unfold exists_and_isFile in Hno.
        destruct (fs !! effect_path name) as [e|]; [|discriminate].
        rewrite Hno in Ef. discriminate.
    + intros h text Hh Hex Hf.
      destruct Hcause as [[E _]|[[[E|E] _]|(Hin & h' & text' & ps & pr & Eh & Ef & Ep & Ebad)]];
        try congruence.
      rewrite Hh in Eh. injection Eh as <-. rewrite Hf in Ef. injection Ef as <-.
      split; [exact Hin|]. split; [now apply build_failure_without_path|].
      destruct (loadProgram_first_failure fs glc name s h text ps pr pre
                  Hready Hh Hex Hf Ep Ebad)
        as (msg' & before & pass & after & Hrun' & Hp & Hok & Hstage).
      rewrite Hrun in Hrun'. injection Hrun' as Hev.
      apply app_inj_tail in Hev as [_ Hev]. injection Hev as <-.
      exists ps, pr, pre, before, pass, after. auto.
    + intros ->. eexists. split; [apply (load_failed _ _ _ _ _ Hrun Hdbg)|].
      unfold signals, assigned. cbn [omap list_omap].
      rewrite !omap_app. fold (signals pre). fold (assigned pre). rewrite Hs, Ha.
      split; reflexivity.
  - eexists true, _, _. split; [exact Hrun|]. split; [discriminate|].
    destruct (debug_only dbg Hdbg) as (Hs & Ha & _).
    split.
    + intros _. split.
      * unfold signals. rewrite omap_app. fold (signals dbg). now rewrite Hs.
      * exists h, text, passes, props, dbg. repeat split; auto.
        unfold assigned. rewrite omap_app. fold (assigned dbg). now rewrite Ha.
    + intros [E|[E|[E|(h' & text' & passes' & props' & dbg' & Eh & Ef & Ep & Eok)]]];
        try congruence.
      rewrite Hh in Eh. injection Eh as <-. rewrite Hf in Ef. injection Ef as <-.
      rewrite Hparse in Ep. injection Ep as <- <- <-. congruence.
Qed.

Lemma loadProgram_failure_keeps_programs_witness :
  exists ev,
    loadProgram sample_files compiler_bad_fragment "purple" s_reloading
      = Some (false, s_reloading, ev) /\
    signals ev = [fatal "Could not compile fragment shader"] /\
    m_programs (this s_reloading) = [mkProgram "v" "old"].
Proof.
  destruct (loadProgram_failure_keeps_programs sample_files compiler_bad_fragment
              "purple" s_reloading eq_refl) as (r & s' & ev & Hrun & Hf & _ & Hr).
  assert (E : r = false).
  { apply Hr. right. right. right.
    exists "// header", source_example,
           [["#line 0"; "#line 0"; "LINE_A"]; ["#line 2"; "LINE_B"]],
           (<["foo" := "3"]> {["inputCount" := "1"]}),
           [EvDebug (dbg_setting_property "foo" "3")].
    repeat split. }
  destruct (Hf E) as (Hs & _ & _ & _ & (msg & Hsig & _ & _ & _ & Hbuild & _) & _).
  destruct (Hbuild "// header" source_example eq_refl eq_refl eq_refl)
    as (_ & _ & passes & props & dbg & before & pass & after & _ & _ & _ & Hstage).
  exists ev. subst r s'. split; [exact Hrun|]. split; [|reflexivity].
  rewrite Hsig.
  destruct Hstage as [[Hv _]|[(_ & _ & ->)|(_ & Hfr & _)]];
    [discriminate Hv|reflexivity|discriminate Hfr].
Defined.

(** C3 as stated fails. The fragment stage of the effect "purple" does
    not compile: the only fatal signal is a fixed text that carries
    neither the name of the effect nor the path of its file. And the
    program that was loaded before is still in the node, but a paint for
    the attached chain returns 0 without any OpenGL call, since ready is
    false. *)
Lemma loadProgram_failure_counterexample :
  exists s' ev,
    loadProgram sample_files compiler_bad_fragment "purple" s_reloading
      = Some (false, s', ev) /\
    signals ev = [fatal "Could not compile fragment shader"] /\
    contains "purple" "Could not compile fragment shader" = false /\
    contains (effect_path "purple") "Could not compile fragment shader" = false /\
    m_programs (this s') = [mkProgram "v" "old"] /\
    is_Some (render_state s' (this s') (chain_ptr sample_chain)) /\
    paint sample_ambient sample_chain [55] s' = Some (0, s', [EvDebug dbg_is_not_ready]).
Proof.
  exists s_reloading, [EvDebug (dbg_setting_property "foo" "3");
                       EvEmit (fatal "Could not compile fragment shader")].
  repeat split; try reflexivity. eexists; reflexivity.
Qed.

(** C4: the code at an input that shows the defect. The source of
    "composite" sets [inputCount] to 2 and the reading loop records it;
    the load succeeds and the node becomes ready, but the only fields
    assigned are the program list and ready: the node still has one
    input. *)
Theorem load_leaves_properties_unapplied :
  exists passes props dbg s' ev,
    parse_source source_two_inputs s_composite = Some ((passes, props), s_composite, dbg) /\
    props !! "inputCount" = Some "2" /\
    load sample_files compiler_ok s_composite = Some (tt, s', ev) /\
    m_ready (this s') = true /\
    length (m_programs (this s')) = 1%nat /\
    assigned ev = [F_programs; F_ready] /\
    m_inputCount (this s') = 1.
Proof.
  eexists _, _, _, _, _.
  split; [vm_compute; reflexivity|].
  split; [vm_compute; reflexivity|].
  split; [vm_compute; reflexivity|].
  repeat split.
Qed.

End LoadClaims.

(** ** The passes of paint *)

Module PaintFacts.
Import Values Node EffectNodeImpl Observe Samples MonadFacts.
Local Open Scope list_scope.

Lemma emits_run (o : option (list Event)) (s : Store) :
  emits o s = match o with Some ev => Some (tt, s, ev) | None => None end.
Proof. reflexivity. Qed.

Lemma for_up_emits (f : Z -> option (list Event)) (body : Z -> M unit) (s : Store) :
  (forall k, body k s = emits (f k) s) ->
  forall count lo, for_up lo count body s = emits (for_up_events f lo count) s.
Proof.
  intros Hbody. induction count as [|c IH]; intros lo; [reflexivity|].
  cbn [for_up for_up_events]. unfold bind. rewrite Hbody, emits_run.
  destruct (f lo) as [e|]; [|reflexivity].
  rewrite IH, emits_run.
  destruct (for_up_events f (lo + 1) c); reflexivity.
Qed.

Lemma for_down_emits (f : Z -> option (list Event)) (body : Z -> M unit) (s : Store) :
  (forall j, body j s = emits (f j) s) ->
  forall count, for_down count body s = emits (for_down_events f count) s.
Proof.
  intros Hbody. induction count as [|c IH]; [reflexivity|].
  cbn [for_down for_down_events]. unfold bind. rewrite Hbody, emits_run.
  destruct (f (Z.of_nat c)) as [e|]; [|reflexivity].
  rewrite IH, emits_run.
  destruct (for_down_events f c); reflexivity.
Qed.

Lemma bind_emits {B} (o : option (list Event)) (k : unit -> M B) (s : Store) :
  bind (emits o) k s =
    match o with
    | Some ev =>
        match k tt s with
        | Some (b, s2, e2) => Some (b, s2, ev ++ e2)
        | None => None
        end
    | None => None
    end.
Proof. unfold bind, emits. destruct o; reflexivity. Qed.

(** Past its guards, [paint] is [paint_attached]. *)
Lemma paint_attached_eq amb chain inputTextures (s : Store) (l : nat) :
  m_ready (this s) = true ->
  m_renderStates (this s) !! chain_ptr chain = Some l ->
  paint amb chain inputTextures s = paint_attached amb chain inputTextures l s.
Proof.
  intros Hready Hl. unfold paint, paint_attached.
  rewrite !bind_get_this. rewrite Hready, Hl. cbn [negb].
  apply bind_cong; [reflexivity|]. intros rs s1.
  apply bind_cong; [|reflexivity]. intros s2.
  destruct (is_nil (m_intermediate rs)); reflexivity.
Qed.

Lemma bind_for_up_emits {B} (f : Z -> option (list Event)) (body : Z -> M unit)
    (k : unit -> M B) (lo : Z) (count : nat) (s : Store) :
  (forall i, body i s = emits (f i) s) ->
  bind (for_up lo count body) k s = bind (emits (for_up_events f lo count)) k s.
Proof. intros H. unfold bind. now rewrite (for_up_emits f body s H). Qed.

Lemma bind_for_down_emits {B} (f : Z -> option (list Event)) (body : Z -> M unit)
    (k : unit -> M B) (count : nat) (s : Store) :
  (forall i, body i s = emits (f i) s) ->
  bind (for_down count body) k s = bind (emits (for_down_events f count)) k s.
Proof. intros H. unfold bind. now rewrite (for_down_emits f body s H). Qed.

(** The loop that fills the ring appends the framebuffers the context
    creates, one after the other. *)
Lemma alloc_run (chain : Chain) (l : nat) (count : nat) :
  forall (s : Store) (ring : list QOpenGLFramebufferObject) (ti lo : Z),
    heap s !! l = Some (mkRenderState ring ti) ->
    for_up lo count (fun _ => paint_alloc chain l) s =
      Some (tt,
            mkStore (this s)
              (<[l := mkRenderState
                        (ring ++ fresh_fbos (chain_size chain) (gl_next s) count) ti]>
                 (heap s))
              (gl_next s + Z.of_nat count),
            alloc_events l (fresh_fbos (chain_size chain) (gl_next s) count)).
Proof.
  induction count as [|c IH]; intros s ring ti lo Hl.
  - cbn [for_up fresh_fbos alloc_events flat_map]. rewrite app_nil_r, Z.add_0_r.
    rewrite (insert_id _ _ _ Hl). destruct s; reflexivity.
  - cbn [for_up].
    assert (Hstep : paint_alloc chain l s =
      Some (tt,
            mkStore (this s)
              (<[l := mkRenderState (ring ++ [mkFbo (chain_size chain) (gl_next s)]) ti]>
                 (heap s))
              (gl_next s + 1),
            [EvGL (fbo_create (mkFbo (chain_size chain) (gl_next s)));
             EvAssign (F_state l)])).
    { unfold paint_alloc, fbo_new, deref, store, gl.
      msimp. rewrite Hl. msimp. rewrite Hl. msimp. reflexivity. }
    rewrite (bind_run _ _ _ _ _ _ Hstep).
    rewrite (IH _ (ring ++ [mkFbo (chain_size chain) (gl_next s)]) ti (lo + 1));
      [|cbn [heap]; apply lookup_insert_eq].
    cbn [this heap gl_next fresh_fbos alloc_events flat_map app].
    rewrite insert_insert_eq, <- app_assoc. cbn [app].
    replace (gl_next s + 1 + Z.of_nat c) with (gl_next s + Z.of_nat (S c)) by lia.
    reflexivity.
Qed.

(** One pass of the loop, at a store where the ring and the cursor are
    known, produces the events of [pass_events] and leaves the store. *)
Lemma paint_pass_emits (n0 n : EffectNode) amb chain inputTextures (l : nat)
    (ring : list QOpenGLFramebufferObject) (ti : Z) (s : Store) (j : Z) :
  this s = n ->
  m_programs n0 = m_programs n ->
  m_inputCount n0 = m_inputCount n ->
  heap s !! l = Some (mkRenderState ring ti) ->
  paint_pass n0 n amb chain inputTextures l j s =
    emits (pass_events n amb chain inputTextures ring ti j) s.
Proof.
  intros Hn Hp Hc Hl. unfold paint_pass, pass_events. cbv zeta. rewrite Hp, Hc.
  unfold deref. msimp. rewrite Hl. msimp.
  cbn [m_intermediate m_textureIndex].
  destruct (at_ (m_programs n) j) as [p|]; [|reflexivity].
  unfold gl. mstep. mstep.
  destruct (at_ ring (fboIndex ti (Z.of_nat (length (m_programs n))) j)) as [fbo|];
    [|reflexivity].
  mstep.
  rewrite (bind_for_up_emits (input_events inputTextures)).
  2:{ intros k. unfold input_events. msimp.
      destruct (at_ inputTextures k); reflexivity. }
  rewrite bind_emits.
  destruct (for_up_events (input_events inputTextures) 0 (Z.to_nat (m_inputCount n)))
    as [ein|]; [|reflexivity].
  mstep. mstep.
  rewrite (bind_for_up_emits
             (channel_events (m_inputCount n) ring ti (Z.of_nat (length (m_programs n))) j)).
  2:{ intros k. unfold channel_events. msimp.
      destruct (at_ ring _); reflexivity. }
  rewrite bind_emits.
  destruct (for_up_events (channel_events _ _ _ _ _) 0 (length (m_programs n)))
    as [ech|]; [|reflexivity].
  unfold intensity. msimp. rewrite Hn.
  unfold emits, uniform_events, event. cbn [app]. reflexivity.
Qed.

(** The whole of a paint past its guards: the ring is filled when it is
    empty, the passes run on that ring, and the cursor moves one slot. *)
Lemma paint_run amb chain inputTextures (s : Store) (l : nat)
    (ring0 : list QOpenGLFramebufferObject) (ti : Z) :
  m_ready (this s) = true ->
  m_renderStates (this s) !! chain_ptr chain = Some l ->
  heap s !! l = Some (mkRenderState ring0 ti) ->
  let n0 := this s in
  let P := Z.of_nat (length (m_programs n0)) in
  let count := if is_nil ring0 then Z.to_nat (P + 1) else O in
  let ring := ring0 ++ fresh_fbos (chain_size chain) (gl_next s) count in
  let n1 := with_realTime (wallTime amb) (with_realTimeLast (m_realTime n0) n0) in
  paint amb chain inputTextures s =
    match for_down_events (pass_events n1 amb chain inputTextures ring ti)
                          (length (m_programs n0)),
          at_ ring (Z.rem (ti + 1) (P + 1)) with
    | Some evp, Some out =>
        Some (texture out,
              mkStore n1
                (<[l := mkRenderState ring (Z.rem (ti + 1) (P + 1))]> (heap s))
                (gl_next s + Z.of_nat count),
              alloc_events l (fresh_fbos (chain_size chain) (gl_next s) count) ++
              [EvGL (glClearColor 0 0 0 0); EvGL (glDisable GL_DEPTH_TEST);
               EvGL (glDisable GL_BLEND);
               EvAssign F_realTimeLast; EvAssign F_realTime;
               EvGL (glViewport 0 0 (width (chain_size chain))
                                (height (chain_size chain)))] ++
              evp ++ [EvAssign (F_state l)])
    | _, _ => None
    end.
Proof.
  intros Hready Hc Hl. cbv zeta.
  rewrite (paint_attached_eq _ _ _ _ l Hready Hc). unfold paint_attached.
  mstep. unfold deref at 1. msimp. rewrite Hl. msimp. cbn [m_intermediate].
  rewrite (bind_run _ _ _ _ _ _ (alloc_run chain l _ s ring0 ti 0 Hl)).
  set (count := if is_nil ring0 then _ else _).
  set (fresh := fresh_fbos (chain_size chain) (gl_next s) count).
  unfold gl, set_this. msimp.
  rewrite (bind_for_down_emits
    (pass_events (with_realTime (wallTime amb)
                    (with_realTimeLast (m_realTime (this s)) (this s)))
       amb chain inputTextures (ring0 ++ fresh) ti)).
  2:{ intros j. apply paint_pass_emits; try reflexivity.
      cbn [heap]. apply lookup_insert_eq. }
  rewrite bind_emits. cbn [m_programs with_realTime with_realTimeLast].
  destruct (for_down_events _ (length (m_programs (this s)))) as [evp|]; [|reflexivity].
  unfold deref, store. msimp. rewrite lookup_insert_eq. msimp.
  cbn [m_intermediate m_textureIndex].
  destruct (at_ (ring0 ++ fresh) _) as [out|]; [|reflexivity].
  msimp. rewrite lookup_insert_eq. msimp. rewrite insert_insert_eq.
  unfold ret. cbn [app]. reflexivity.
Qed.

End PaintFacts.

(** ** The OpenGL machine under the calls of a pass *)

Module GLFacts.
Import Values Node EffectNodeImpl Observe Samples MonadFacts PaintFacts.
Local Open Scope list_scope.

Lemma gl_calls_app (a b : list Event) : gl_calls (a ++ b) = gl_calls a ++ gl_calls b.
Proof. apply omap_app. Qed.

Lemma gl_calls_cons_gl (c : GLCall) (ev : list Event) :
  gl_calls (EvGL c :: ev) = c :: gl_calls ev.
Proof. reflexivity. Qed.

Lemma gl_run_app (g : GLState) (a b : list GLCall) :
  gl_run g (a ++ b) = gl_run (gl_run g a) b.
Proof. apply fold_left_app. Qed.

(** A draw does not change the machine, so the draws of two lists of
    calls are those of the first, then those of the second from the
    state the first leaves. *)
Lemma gl_draws_app (a b : list GLCall) :
  forall g, gl_draws g (a ++ b) = gl_draws g a ++ gl_draws (gl_run g a) b.
Proof.
  induction a as [|c a IH]; intros g; [reflexivity|].
  destruct c; cbn [app gl_draws gl_run fold_left gl_exec]; try apply IH.
  rewrite IH. reflexivity.
Qed.

Lemma gl_draws_none (a : list GLCall) :
  forallb (fun c => negb (is_draw c)) a = true -> forall g, gl_draws g a = [].
Proof.
  induction a as [|c a IH]; intros H g; [reflexivity|].
  cbn [forallb] in H. apply andb_true_iff in H as [Hc Ha].
  destruct c; try discriminate; cbn [gl_draws]; now apply IH.
Qed.

Lemma texture_only_no_draw (a : list GLCall) :
  forallb texture_only a = true -> forallb (fun c => negb (is_draw c)) a = true.
Proof.
  induction a as [|c a IH]; [reflexivity|].
  cbn [forallb]. intros H. apply andb_true_iff in H as [Hc Ha].
  rewrite (IH Ha). destruct c; try discriminate; reflexivity.
Qed.





(** After the loop over the channels from [lo], the unit of every
    channel it went through holds the texture of the slot the loop
    computed for it, and no other unit has changed. *)
Lemma channel_units ic ring ti P j :
  forall count lo ech g,
    for_up_events (channel_events ic ring ti P j) lo count = Some ech ->
    (forall k, lo <= k < lo + Z.of_nat count ->
       exists f, at_ ring (chanIndex ti P j k) = Some f /\
                 gl_units (gl_run g (gl_calls ech)) !! (1 + ic + k) = Some (texture f)) /\
    (forall u, u < 1 + ic + lo \/ 1 + ic + lo + Z.of_nat count <= u ->
       gl_units (gl_run g (gl_calls ech)) !! u = gl_units g !! u).
Proof.
  induction count as [|c IH]; intros lo ech g.
  - intros [= <-]. split; [intros k Hk; lia|reflexivity].
  - cbn [for_up_events]. unfold channel_events at 1.
    destruct (at_ ring (chanIndex ti P j lo)) as [f|] eqn:Hf; [|discriminate].
    destruct (for_up_events _ (lo + 1) c) as [es|] eqn:Hes; [|discriminate].
    intros [= <-]. cbn [app]. rewrite !gl_calls_cons_gl.
    cbn [gl_run fold_left gl_exec gl_active gl_units gl_program gl_framebuffer].
    match goal with |- context [fold_left gl_exec (gl_calls es) ?g1] =>
      fold (gl_run g1 (gl_calls es)); destruct (IH (lo + 1) es g1 Hes) as [Hset Hkeep] end.
    split.
    + intros k Hk. destruct (Z.eq_dec k lo) as [->|Hne].
      * exists f. split; [exact Hf|]. rewrite Hkeep by lia.
        cbn [gl_units]. apply lookup_insert_eq.
      * apply Hset. lia.
    + intros u Hu. rewrite Hkeep by lia. cbn [gl_units].
      apply lookup_insert_ne. lia.
Qed.

Lemma at_range {A} (v : list A) (i : Z) (x : A) :
  at_ v i = Some x -> 0 <= i < Z.of_nat (length v).
Proof.
  unfold at_. destruct (Z.ltb_spec i 0) as [|H]; [discriminate|].
  intros Hx. apply lookup_lt_Some in Hx. lia.
Qed.

(** A truncated remainder that is not negative is the modulus. *)
Lemma rem_nonneg_mod (a b : Z) : 0 < b -> 0 <= Z.rem a b -> Z.rem a b = a mod b.
Proof.
  intros Hb Hr. destruct (Z.le_gt_cases 0 a) as [Ha|Ha].
  - apply Z.rem_mod_nonneg; lia.
  - assert (Hle : Z.rem a b <= 0) by (apply Z.rem_nonpos; lia).
    assert (H0 : Z.rem a b = 0) by lia.
    rewrite H0. symmetry. apply Z.rem_divide in H0; [|lia].
    apply Z.mod_divide; [lia|exact H0].
Qed.

Lemma at_rem_mod {A} (v : list A) (a b : Z) (x : A) :
  0 < b -> at_ v (Z.rem a b) = Some x -> Z.rem a b = a mod b.
Proof.
  intros Hb Hx. apply rem_nonneg_mod; [exact Hb|]. apply at_range in Hx. lia.
Qed.





Lemma for_up_events_Some (f : Z -> option (list Event)) :
  forall count lo,
    (forall k, lo <= k < lo + Z.of_nat count -> is_Some (f k)) ->
    is_Some (for_up_events f lo count).
Proof.
  induction count as [|c IH]; intros lo H; [eexists; reflexivity|].
  cbn [for_up_events].
  destruct (H lo) as [e ->]; [lia|].
  destruct (IH (lo + 1)) as [es ->]; [intros k Hk; apply H; lia|].
  eexists; reflexivity.
Qed.

Lemma for_down_events_Some (f : Z -> option (list Event)) :
  forall count,
    (forall j, 0 <= j < Z.of_nat count -> is_Some (f j)) ->
    is_Some (for_down_events f count).
Proof.
  induction count as [|c IH]; intros H; [eexists; reflexivity|].
  cbn [for_down_events].
  destruct (H (Z.of_nat c)) as [e ->]; [lia|].
  destruct IH as [es ->]; [intros j Hj; apply H; lia|].
  eexists; reflexivity.
Qed.

Lemma at_Some {A} (v : list A) (i : Z) :
  0 <= i < Z.of_nat (length v) -> is_Some (at_ v i).
Proof.
  intros H. unfold at_. destruct (Z.ltb_spec i 0); [lia|].
  apply lookup_lt_is_Some. lia.
Qed.

Lemma rem_range (a b : Z) : 0 <= a -> 0 < b -> 0 <= Z.rem a b < b.
Proof. intros Ha Hb. apply Z.rem_bound_pos; lia. Qed.

(** On a full ring, with a cursor that is not negative and enough input
    textures, every pass finds its program, its slot, its inputs and its
    channels. *)
Lemma passes_succeed (n : EffectNode) amb chain inputTextures ring ti :
  length ring = S (length (m_programs n)) ->
  0 <= ti ->
  m_inputCount n <= Z.of_nat (length inputTextures) ->
  is_Some (for_down_events (pass_events n amb chain inputTextures ring ti)
                           (length (m_programs n))).
Proof.
  intros Hring Hti Hin. apply for_down_events_Some. intros j Hj.
  unfold pass_events. cbv zeta.
  set (P := Z.of_nat (length (m_programs n))) in *.
  destruct (at_Some (m_programs n) j) as [p ->]; [lia|].
  destruct (at_Some ring (fboIndex ti P j)) as [fbo ->].
  { unfold fboIndex. rewrite Hring.
    pose proof (rem_range (ti + j + 1) (P + 1)). lia. }
  destruct (for_up_events_Some (input_events inputTextures) (Z.to_nat (m_inputCount n)) 0)
    as [ein ->].
  { intros k Hk. unfold input_events.
    destruct (at_Some inputTextures k) as [t ->]; [lia|]. eexists; reflexivity. }
  destruct (for_up_events_Some (channel_events (m_inputCount n) ring ti P j)
              (length (m_programs n)) 0) as [ech ->].
  { intros k Hk. unfold channel_events.
    destruct (at_Some ring (chanIndex ti P j k)) as [f ->]; [|eexists; reflexivity].
    unfold chanIndex. rewrite Hring.
    pose proof (rem_range (ti + k + (if j <? k then 1 else 0)) (P + 1)).
    destruct (j <? k); lia. }
  eexists; reflexivity.
Qed.

End GLFacts.

(** ** The ring: pass order and the cursor *)

Module RingFacts.
Import Values Node EffectNodeImpl Observe Samples MonadFacts PaintFacts GLFacts.
Local Open Scope list_scope.

(** What a paint that went past its guards and returned has done. *)
Lemma paint_success amb chain inputTextures (s : Store) (l : nat)
    (ring0 : list QOpenGLFramebufferObject) (ti : Z) t s' ev :
  m_ready (this s) = true ->
  m_renderStates (this s) !! chain_ptr chain = Some l ->
  heap s !! l = Some (mkRenderState ring0 ti) ->
  paint amb chain inputTextures s = Some (t, s', ev) ->
  let n0 := this s in
  let P := Z.of_nat (length (m_programs n0)) in
  let count := if is_nil ring0 then Z.to_nat (P + 1) else O in
  let ring := ring0 ++ fresh_fbos (chain_size chain) (gl_next s) count in
  let n1 := with_realTime (wallTime amb) (with_realTimeLast (m_realTime n0) n0) in
  exists evp out,
    for_down_events (pass_events n1 amb chain inputTextures ring ti)
                    (length (m_programs n0)) = Some evp /\
    at_ ring ((ti + 1) mod (P + 1)) = Some out /\
    t = texture out /\
    s' = mkStore n1 (<[l := mkRenderState ring ((ti + 1) mod (P + 1))]> (heap s))
                 (gl_next s + Z.of_nat count) /\
    ev = alloc_events l (fresh_fbos (chain_size chain) (gl_next s) count) ++
         [EvGL (glClearColor 0 0 0 0); EvGL (glDisable GL_DEPTH_TEST);
          EvGL (glDisable GL_BLEND);
          EvAssign F_realTimeLast; EvAssign F_realTime;
          EvGL (glViewport 0 0 (width (chain_size chain)) (height (chain_size chain)))] ++
         evp ++ [EvAssign (F_state l)].
Proof.
  intros Hready Hc Hl Hrun. cbv zeta.
  rewrite (paint_run _ _ _ _ _ _ _ Hready Hc Hl) in Hrun. cbv zeta in Hrun.
  destruct (for_down_events _ _) as [evp|]; [|discriminate].
  destruct (at_ _ (Z.rem _ _)) as [out|] eqn:Hout; [|discriminate].
  assert (Hmod : Z.rem (ti + 1) (Z.of_nat (length (m_programs (this s))) + 1) =
                 (ti + 1) mod (Z.of_nat (length (m_programs (this s))) + 1)).
  { eapply at_rem_mod; [lia|exact Hout]. }
  rewrite Hmod in Hrun, Hout.
  injection Hrun as <- <- <-. exists evp, out. auto.
Qed.

Lemma fresh_fbos_length size start count : length (fresh_fbos size start count) = count.
Proof.
  revert start. induction count as [|c IH]; intros start; [reflexivity|].
  cbn [fresh_fbos length]. now rewrite IH.
Qed.

Lemma is_nil_false {A} (l : list A) : l <> [] -> is_nil l = false.
Proof. destruct l; [contradiction|reflexivity]. Qed.



(** On a ring that is empty or full, with a cursor inside the ring and
    enough input textures, a paint past its guards returns. *)
Lemma paint_ok amb chain inputTextures (s : Store) (l : nat)
    (ring0 : list QOpenGLFramebufferObject) (ti : Z) :
  m_ready (this s) = true ->
  m_renderStates (this s) !! chain_ptr chain = Some l ->
  heap s !! l = Some (mkRenderState ring0 ti) ->
  ring0 = [] \/ length ring0 = S (length (m_programs (this s))) ->
  0 <= ti ->
  m_inputCount (this s) <= Z.of_nat (length inputTextures) ->
  let n0 := this s in
  let P := Z.of_nat (length (m_programs n0)) in
  let count := if is_nil ring0 then Z.to_nat (P + 1) else O in
  let ring := ring0 ++ fresh_fbos (chain_size chain) (gl_next s) count in
  let n1 := with_realTime (wallTime amb) (with_realTimeLast (m_realTime n0) n0) in
  length ring = S (length (m_programs n0)) /\
  exists out ev,
    at_ ring ((ti + 1) mod (P + 1)) = Some out /\
    paint amb chain inputTextures s =
      Some (texture out,
            mkStore n1 (<[l := mkRenderState ring ((ti + 1) mod (P + 1))]> (heap s))
                    (gl_next s + Z.of_nat count),
            ev).
Proof.
  intros Hready Hc Hl Hring Hti Hin. cbv zeta.
  set (P := length (m_programs (this s))) in *.
  set (count := if is_nil ring0 then _ else _).
  set (ring := ring0 ++ fresh_fbos (chain_size chain) (gl_next s) count).
  assert (Hlen : length ring = S P).
  { unfold ring, count. rewrite length_app, fresh_fbos_length.
    destruct Hring as [->|Hr].
    - cbn [is_nil length]. lia.
    - rewrite is_nil_false by (destruct ring0; [discriminate|discriminate]). lia. }
  split; [exact Hlen|].
  rewrite (paint_run _ _ _ _ _ _ _ Hready Hc Hl). cbv zeta.
  fold P. fold count. fold ring.
  destruct (passes_succeed
              (with_realTime (wallTime amb)
                 (with_realTimeLast (m_realTime (this s)) (this s)))
              amb chain inputTextures ring ti Hlen Hti Hin) as [evp Hevp].
  cbn [m_programs with_realTime with_realTimeLast] in Hevp. fold P in Hevp.
  rewrite Hevp.
  assert (Hrem : Z.rem (ti + 1) (Z.of_nat P + 1) = (ti + 1) mod (Z.of_nat P + 1)).
  { apply Z.rem_mod_nonneg; lia. }
  rewrite Hrem.
  destruct (at_Some ring ((ti + 1) mod (Z.of_nat P + 1))) as [out Hout].
  { rewrite Hlen. pose proof (Z.mod_pos_bound (ti + 1) (Z.of_nat P + 1)). lia. }
  rewrite Hout. eauto.
Qed.

(** Paints one after the other that all return, on any ring: the paint
    number [i] returned the texture of ring slot [(ti + i + 1) mod (P + 1)]
    of the ring the first paint left, and the cursor ends [length calls]
    slots further round the ring. *)
Lemma paint_calls_success chain (calls : list (Ambient * list GLuint)) :
  forall (s : Store) (l : nat) (ring0 : list QOpenGLFramebufferObject) (ti : Z)
         ts s' ev,
    m_ready (this s) = true ->
    m_renderStates (this s) !! chain_ptr chain = Some l ->
    heap s !! l = Some (mkRenderState ring0 ti) ->
    paint_calls chain calls s = Some (ts, s', ev) ->
    let P := Z.of_nat (length (m_programs (this s))) in
    exists ring,
      length ts = length calls /\
      (exists rs', heap s' !! l = Some rs' /\
                   m_textureIndex rs' =
                     match calls with
                     | [] => ti
                     | _ => (ti + Z.of_nat (length calls)) mod (P + 1)
                     end) /\
      m_renderStates (this s') = m_renderStates (this s) /\
      (ring0 <> [] -> ring = ring0) /\
      forall i, (i < length calls)%nat ->
        exists f, at_ ring ((ti + Z.of_nat i + 1) mod (P + 1)) = Some f /\
                  ts !! i = Some (texture f).
Proof.
  induction calls as [|[amb inputTextures] calls IH];
    intros s l ring0 ti ts s' ev Hready Hc Hl Hrun; cbv zeta.
  - injection Hrun as <- <- <-. exists ring0.
    split; [reflexivity|]. split; [eauto|]. split; [reflexivity|].
    split; [auto|]. cbn. intros; lia.
  - cbn [paint_calls] in Hrun.
    apply bind_Some in Hrun as (t & s1 & e1 & e2 & Hp & Hrest & ->).
    apply bind_Some in Hrest as (ts1 & s2 & e3 & e4 & Hrest & Hret & ->).
    injection Hret as <- <- <-.
    destruct (paint_success _ _ _ _ _ _ _ _ _ _ Hready Hc Hl Hp)
      as (evp & out & _ & Hout & -> & -> & _).
    set (P := length (m_programs (this s))) in *.
    set (count := if is_nil ring0 then _ else _) in *.
    set (ring := ring0 ++ fresh_fbos (chain_size chain) (gl_next s) count) in *.
    set (ti1 := (ti + 1) mod (Z.of_nat P + 1)) in *.
    assert (Hring : ring <> []).
    { intros E. rewrite E in Hout. unfold at_ in Hout.
      destruct (ti1 <? 0); [discriminate|]. rewrite lookup_nil in Hout. discriminate. }
    match type of Hrest with paint_calls _ _ ?s1 = _ =>
      destruct (IH s1 l ring ti1 ts1 s2 e3 Hready Hc
                  ltac:(cbn [heap]; apply lookup_insert_eq) Hrest)
        as (ring' & Hts & (rs' & Hrs' & Hidx) & Hmap & Hsame & Htex)
    end.
    rewrite (Hsame Hring) in Htex. clear Hsame ring'.
    cbn [this with_realTime with_realTimeLast m_programs m_renderStates] in Hidx, Htex, Hmap.
    fold P in Hidx, Htex.
    exists ring. split; [cbn [length]; now rewrite Hts|].
    split.
    { exists rs'. split; [exact Hrs'|]. rewrite Hidx.
      destruct calls as [|c calls'].
      - unfold ti1. cbn [length]. f_equal.
      - unfold ti1. rewrite Z.add_mod_idemp_l by lia. f_equal. cbn [length]. lia. }
    split; [exact Hmap|].
    split.
    { intros Hne. unfold ring, count. rewrite (is_nil_false _ Hne). apply app_nil_r. }
    intros [|i] Hi.
    + exists out. split; [|reflexivity].
      rewrite <- Hout. f_equal. unfold ti1. f_equal. lia.
    + destruct (Htex i) as (f & Hf & Hti'); [cbn [length] in Hi; lia|].
      exists f. split; [|exact Hti'].
      rewrite <- Hf. unfold ti1. f_equal.
      rewrite <- (Z.add_assoc _ (Z.of_nat i) 1), Z.add_mod_idemp_l by lia.
      f_equal. lia.
Qed.

(** On a ring that is empty or full, with the cursor inside the ring and
    enough input textures for every call, paints one after the other all
    return. *)
Lemma paint_calls_total chain (calls : list (Ambient * list GLuint)) :
  forall (s : Store) (l : nat) (ring0 : list QOpenGLFramebufferObject) (ti : Z),
    m_ready (this s) = true ->
    m_renderStates (this s) !! chain_ptr chain = Some l ->
    heap s !! l = Some (mkRenderState ring0 ti) ->
    ring0 = [] \/ length ring0 = S (length (m_programs (this s))) ->
    0 <= ti ->
    Forall (fun call => m_inputCount (this s) <= Z.of_nat (length (snd call))) calls ->
    exists ts s' ev, paint_calls chain calls s = Some (ts, s', ev).
Proof.
  induction calls as [|[amb inputTextures] calls IH];
    intros s l ring0 ti Hready Hc Hl Hring Hti Hin.
  - exists [], s, []. reflexivity.
  - apply Forall_cons in Hin as [Hin1 Hin]. cbn [snd] in Hin1.
    destruct (paint_ok amb chain inputTextures s l ring0 ti Hready Hc Hl Hring Hti Hin1)
      as (Hlen & out & ev1 & Hout & Hrun).
    set (s1 := mkStore _ _ _) in Hrun.
    destruct (IH s1 l _ _ Hready Hc ltac:(cbn [s1 heap]; apply lookup_insert_eq)
                (or_intror Hlen)) as (ts & s' & ev & Hrest).
    + pose proof (Z.mod_pos_bound (ti + 1) (Z.of_nat (length (m_programs (this s))) + 1)).
      lia.
    + exact Hin.
    + exists (texture out :: ts), s', (ev1 ++ (ev ++ [])). cbn [paint_calls].
      rewrite (bind_run _ _ _ _ _ _ Hrun), (bind_run _ _ _ _ _ _ Hrest). reflexivity.
Qed.

(** C2, as the code has it. For a ready node with [P] programs and a
    render state for the chain, with the cursor at [ti]: every paint
    that returns, returns the texture of ring slot [(ti + 1) mod (P + 1)]
    and leaves the cursor at [(ti + 1) mod (P + 1)], which lies between 0
    and [P]. After [n > 0] paints that returned, one after the other, the
    cursor is [(ti + n) mod (P + 1)]; so [P + 1] paints leave it at
    [ti mod (P + 1)], which is the cursor they started from exactly when
    that was between 0 and [P]; and the textures returned repeat with
    period [P + 1]. Such paints exist: on a ring that is empty or full,
    with a cursor that is not negative and enough input textures, paints
    one after the other all return. *)
Theorem paint_advances_ring chain (s : Store) (l : nat) (rs : EffectNodeRenderState) :
  m_ready (this s) = true ->
  m_renderStates (this s) !! chain_ptr chain = Some l ->
  heap s !! l = Some rs ->
  let P := length (m_programs (this s)) in
  let ti := m_textureIndex rs in
  (forall amb inputTextures t s' ev,
     paint amb chain inputTextures s = Some (t, s', ev) ->
     exists ring out,
       render_state s' (this s') (chain_ptr chain) =
         Some (mkRenderState ring ((ti + 1) mod (Z.of_nat P + 1))) /\
       ringIndex s' (this s') (chain_ptr chain) = Some ((ti + 1) mod (Z.of_nat P + 1)) /\
       0 <= (ti + 1) mod (Z.of_nat P + 1) <= Z.of_nat P /\
       at_ ring ((ti + 1) mod (Z.of_nat P + 1)) = Some out /\
       t = texture out) /\
  (forall calls ts s' ev,
     paint_calls chain calls s = Some (ts, s', ev) ->
     length ts = length calls /\
     (calls <> [] ->
      ringIndex s' (this s') (chain_ptr chain) =
        Some ((ti + Z.of_nat (length calls)) mod (Z.of_nat P + 1))) /\
     (length calls = S P ->
      ringIndex s' (this s') (chain_ptr chain) = Some (ti mod (Z.of_nat P + 1)) /\
      (ringIndex s' (this s') (chain_ptr chain) = Some ti <-> 0 <= ti <= Z.of_nat P)) /\
     (forall i t t', ts !! i = Some t -> ts !! (i + S P)%nat = Some t' -> t = t')) /\
  (m_intermediate rs = [] \/ length (m_intermediate rs) = S P ->
   0 <= ti ->
   forall calls,
     Forall (fun call => m_inputCount (this s) <= Z.of_nat (length (snd call))) calls ->
     exists ts s' ev, paint_calls chain calls s = Some (ts, s', ev)).
Proof.
  intros Hready Hc Hl. destruct rs as [ring0 ti]. cbv zeta.
  cbn [m_textureIndex m_intermediate].
  set (P := length (m_programs (this s))).
  assert (HP : 0 < Z.of_nat P + 1) by lia.
  split; [|split].
  - intros amb inputTextures t s' ev Hrun.
    destruct (paint_success _ _ _ _ _ _ _ _ _ _ Hready Hc Hl Hrun)
      as (evp & out & _ & Hout & -> & -> & _).
    fold P in Hout. eexists _, out.
    assert (Hst : forall r, render_state
              (mkStore (with_realTime (wallTime amb)
                          (with_realTimeLast (m_realTime (this s)) (this s)))
                       (<[l := r]> (heap s))
                       (gl_next s + Z.of_nat
                          (if is_nil ring0 then Z.to_nat (Z.of_nat P + 1) else 0%nat)))
              (with_realTime (wallTime amb)
                 (with_realTimeLast (m_realTime (this s)) (this s)))
              (chain_ptr chain) = Some r).
    { intros r. unfold render_state.
      cbn [this heap with_realTime with_realTimeLast m_renderStates].
      rewrite Hc. apply lookup_insert_eq. }
    split; [apply Hst|]. split; [unfold ringIndex; cbn [this]; now rewrite Hst|].
    split; [pose proof (Z.mod_pos_bound (ti + 1) (Z.of_nat P + 1)); lia|].
    split; [exact Hout|reflexivity].
  - intros calls ts s' ev Hrun.
    destruct (paint_calls_success chain calls s l ring0 ti ts s' ev Hready Hc Hl Hrun)
      as (ring & Hlen & (rs' & Hrs' & Hidx) & Hmap & _ & Htex).
    fold P in Hidx, Htex.
    assert (Hri : calls <> [] ->
                  ringIndex s' (this s') (chain_ptr chain) =
                  Some ((ti + Z.of_nat (length calls)) mod (Z.of_nat P + 1))).
    { intros Hne. unfold ringIndex, render_state. rewrite Hmap, Hc, Hrs'. cbn.
      rewrite Hidx. destruct calls; [contradiction|reflexivity]. }
    split; [exact Hlen|]. split; [exact Hri|]. split.
    + intros Hn.
      assert (Hback : ringIndex s' (this s') (chain_ptr chain) =
                      Some (ti mod (Z.of_nat P + 1))).
      { rewrite Hri by (destruct calls; discriminate).
        rewrite Hn. f_equal.
        replace (ti + Z.of_nat (S P)) with (ti + 1 * (Z.of_nat P + 1)) by lia.
        now rewrite Z.mod_add by lia. }
      split; [exact Hback|]. rewrite Hback.
      pose proof (Z.mod_pos_bound ti (Z.of_nat P + 1) HP) as Hb.
      split.
      * intros [= E]. lia.
      * intros Hti. f_equal. apply Z.mod_small. lia.
    + intros i t t' Hi Hi'.
      assert (Hlt : (i + S P < length calls)%nat).
      { rewrite <- Hlen. eapply lookup_lt_Some. exact Hi'. }
      destruct (Htex i) as (f & Hf & Hti1); [lia|].
      destruct (Htex (i + S P)%nat) as (f' & Hf' & Hti2); [lia|].
      replace ((ti + Z.of_nat (i + S P) + 1) mod (Z.of_nat P + 1))
        with ((ti + Z.of_nat i + 1) mod (Z.of_nat P + 1)) in Hf'.
      2:{ replace (ti + Z.of_nat (i + S P) + 1)
            with (ti + Z.of_nat i + 1 + 1 * (Z.of_nat P + 1)) by lia.
          now rewrite Z.mod_add by lia. }
      congruence.
  - intros Hring Hti calls Hin.
    exact (paint_calls_total chain calls s l ring0 ti Hready Hc Hl Hring Hti Hin).
Qed.

Lemma paint_advances_ring_witness :
  exists ts s' ev,
    paint_calls sample_chain
      [(sample_ambient, [55]); (sample_ambient, [56]); (sample_ambient, [57])]
      s_two_chains = Some (ts, s', ev) /\
    length ts = 3%nat /\
    ringIndex s' (this s') 7%nat = Some 0.
Proof.
  destruct (paint_advances_ring sample_chain s_two_chains 0%nat
              EffectNodeRenderState_new eq_refl eq_refl eq_refl) as (_ & Hcycle & Htotal).
  destruct (Htotal (or_introl eq_refl) ltac:(cbn; lia)
              [(sample_ambient, [55]); (sample_ambient, [56]); (sample_ambient, [57])])
    as (ts & s' & ev & Hrun).
  { repeat (constructor; [cbn; lia|]). constructor. }
  destruct (Hcycle _ _ _ _ Hrun) as (Hlen & _ & Hback & _).
  exists ts, s', ev. split; [exact Hrun|]. split; [exact Hlen|].
  apply Hback; [reflexivity|cbn; lia].
Defined.

(** C2 as stated fails: the cursor does not always stay between 0 and
    [P], and [P + 1] paints do not always bring it back. A new node is
    named "purple", whose source has two passes, loaded and attached to a
    chain; two paints leave the cursor of the chain at 2, in a ring of
    three. The node is then named "composite", whose source has one
    pass, and loaded. It is ready with [P = 1], the ring and the cursor
    are as they were: the cursor is 2, above [P]. The next [P + 1 = 2]
    paints return and leave the cursor at 0, not at 2. *)
Lemma paint_cursor_after_reload_counterexample :
  exists s1 ev1 ts s2 ev2,
    (bind (setName "purple") (fun _ =>
     bind (Loader.load sample_files compiler_ok) (fun _ =>
     bind (chainsEdited [sample_chain] []) (fun _ =>
     bind (paint_calls sample_chain [(sample_ambient, [55]); (sample_ambient, [55])])
       (fun _ =>
     bind (setName "composite") (fun _ =>
     Loader.load sample_files compiler_ok)))))) s_fresh = Some (tt, s1, ev1) /\
    m_ready (this s1) = true /\
    length (m_programs (this s1)) = 1%nat /\
    (length <$> (m_intermediate <$> render_state s1 (this s1) (chain_ptr sample_chain)))
      = Some 3%nat /\
    ringIndex s1 (this s1) (chain_ptr sample_chain) = Some 2 /\
    ~ (0 <= 2 <= Z.of_nat (length (m_programs (this s1)))) /\
    paint_calls sample_chain [(sample_ambient, [55]); (sample_ambient, [55])] s1
      = Some (ts, s2, ev2) /\
    length ts = S (length (m_programs (this s1))) /\
    ringIndex s2 (this s2) (chain_ptr sample_chain) = Some 0.
Proof.
  match goal with |- context [?m s_fresh] => set (prog := m) end.
  destruct (prog s_fresh) as [[[[] s1] ev1]|] eqn:E1; [|vm_compute in E1; discriminate].
  exists s1, ev1.
  destruct (paint_calls sample_chain [(sample_ambient, [55]); (sample_ambient, [55])] s1)
    as [[[ts s2] ev2]|] eqn:E2.
  2:{ vm_compute in E1. injection E1 as <- <-. vm_compute in E2. discriminate. }
  exists ts, s2, ev2.
  vm_compute in E1. injection E1 as <- <-.
  vm_compute in E2. injection E2 as <- <- <-.
  split; [reflexivity|].
  split; [reflexivity|]. split; [reflexivity|]. split; [reflexivity|].
  split; [reflexivity|]. split; [cbn; lia|].
  split; [reflexivity|]. split; [reflexivity|reflexivity].
Qed.

(** The same on a store written down: a cursor left at 2 by a ring of
    three slots, on a node that now has one program, goes to 1 and then
    to 0. *)
Example paint_cursor_beyond_ring :
  let s := mkStore (mkEffectNode 1 "test" q_zero q_zero q_zero q_zero
                      [mkProgram "v" "f"] true {[7%nat := 0%nat]})
                   {[0%nat := mkRenderState
                                [sample_fbo 100; sample_fbo 101; sample_fbo 102] 2]} 103 in
  exists ts s' ev,
    paint_calls sample_chain [(sample_ambient, [55]); (sample_ambient, [56])] s
      = Some (ts, s', ev) /\
    ts = [101; 100] /\
    ringIndex s' (this s') 7%nat = Some 0.
Proof.
  cbv zeta.
  match goal with |- context [paint_calls ?c ?l ?s] =>
    destruct (paint_calls c l s) as [[[ts s'] ev]|] eqn:E;
      [|vm_compute in E; discriminate] end.
  exists ts, s', ev. split; [reflexivity|].
  vm_compute in E. injection E as <- <- <-. split; reflexivity.
Qed.

End RingFacts.

(** ** Attaching and detaching chains *)

Module ChainFacts.
Import Values Node EffectNodeImpl Observe Pipeline Samples MoreSamples MonadFacts StateFacts.
Local Open Scope list_scope.

Lemma same_fields_refl (n : EffectNode) : same_fields n n.
Proof. destruct n; reflexivity. Qed.

Lemma same_fields_trans (a b c : EffectNode) :
  same_fields a b -> same_fields b c -> same_fields a c.
Proof.
  unfold same_fields. destruct a, b, c; cbn. intros [= -> -> -> -> -> -> -> ->].
  intros [= -> -> -> -> -> -> -> ->]. reflexivity.
Qed.

Lemma same_fields_with (m : gmap nat nat) (n : EffectNode) :
  same_fields (with_renderStates m n) n.
Proof. reflexivity. Qed.

(** Attaching one chain leaves the state of every other chain alone. *)
Lemma add_chain_frame (c : Chain) (s s' : Store) ev :
  states_separate s (this s) ->
  add_chain c s = Some (tt, s', ev) ->
  same_fields (this s') (this s) /\ gl_next s' = gl_next s /\
  heap s ⊆ heap s' /\
  forall p, p <> chain_ptr c ->
    m_renderStates (this s') !! p = m_renderStates (this s) !! p /\
    render_state s' (this s') p = render_state s (this s) p.
Proof.
  intros [Hinj Halloc]. rewrite add_chain_run. intros [= <- <-]. cbn.
  assert (Hl : heap s !! fresh (dom (heap s)) = None).
  { apply not_elem_of_dom. apply is_fresh. }
  split; [reflexivity|]. split; [reflexivity|]. split.
  { apply insert_subseteq. exact Hl. }
  intros p Hp. unfold render_state. cbn. rewrite lookup_insert_ne by congruence.
  split; [reflexivity|].
  destruct (m_renderStates (this s) !! p) as [l|] eqn:E; [|reflexivity].
  apply lookup_insert_ne. intros <-. apply Halloc in E. rewrite Hl in E.
  destruct E; discriminate.
Qed.

Lemma add_all_run (l : list Chain) :
  forall s, states_separate s (this s) ->
  exists s',
    add_all l s = Some (tt, s', replicate (length l) (EvAssign F_renderStates)) /\
    states_separate s' (this s') /\
    same_fields (this s') (this s) /\ gl_next s' = gl_next s /\
    heap s ⊆ heap s' /\
    (forall p, p ∈ ptrs l ->
       render_state s' (this s') p = Some EffectNodeRenderState_new) /\
    (forall p, p ∉ ptrs l ->
       m_renderStates (this s') !! p = m_renderStates (this s) !! p /\
       render_state s' (this s') p = render_state s (this s) p).
Proof.
  induction l as [|c l IH]; intros s Hsep.
  - exists s. split; [reflexivity|]. split; [exact Hsep|].
    split; [apply same_fields_refl|]. split; [reflexivity|]. split; [reflexivity|].
    split; [intros p Hp; cbn in Hp; inversion Hp | intros; split; reflexivity].
  - destruct (add_chain_separate c s Hsep) as (s0 & Hrun & Hsep0 & _ & Hnew).
    destruct (add_chain_frame c s s0 _ Hsep Hrun) as (Hf0 & Hg0 & Hh0 & Hfr0).
    destruct (IH s0 Hsep0) as (s1 & Hrun1 & Hsep1 & Hf1 & Hg1 & Hh1 & Hin1 & Hout1).
    exists s1. split.
    { unfold add_all in *. cbn [foldr]. rewrite (bind_run _ _ _ _ _ _ Hrun), Hrun1.
      reflexivity. }
    split; [exact Hsep1|]. split; [eapply same_fields_trans; eauto|].
    split; [congruence|]. split; [etrans; eauto|]. split.
    + intros p Hp. destruct (decide (p ∈ ptrs l)) as [Hl|Hl]; [auto|].
      destruct (Hout1 p Hl) as [_ ->].
      cbn in Hp. apply elem_of_cons in Hp as [->|Hp]; [exact Hnew|contradiction].
    + intros p Hp. cbn in Hp. apply not_elem_of_cons in Hp as [Hpc Hpl].
      destruct (Hout1 p Hpl) as [-> ->]. apply Hfr0. exact Hpc.
Qed.

Lemma remove_all_run (l : list Chain) :
  forall s, states_separate s (this s) ->
  exists s',
    remove_all l s = Some (tt, s', replicate (length l) (EvAssign F_renderStates)) /\
    states_separate s' (this s') /\
    same_fields (this s') (this s) /\ gl_next s' = gl_next s /\
    heap s' = heap s /\
    (forall p, p ∈ ptrs l -> m_renderStates (this s') !! p = None) /\
    (forall p, p ∉ ptrs l ->
       m_renderStates (this s') !! p = m_renderStates (this s) !! p).
Proof.
  induction l as [|c l IH]; intros s Hsep.
  - exists s. split; [reflexivity|]. split; [exact Hsep|].
    split; [apply same_fields_refl|]. split; [reflexivity|]. split; [reflexivity|].
    split; [intros p Hp; cbn in Hp; inversion Hp | intros; reflexivity].
  - destruct (remove_chain_separate c s Hsep) as (s0 & Hrun & Hsep0 & Hgone).
    pose proof Hrun as Hrun'. rewrite remove_chain_run in Hrun'.
    injection Hrun' as Hs0.
    destruct (IH s0 Hsep0) as (s1 & Hrun1 & Hsep1 & Hf1 & Hg1 & Hh1 & Hin1 & Hout1).
    exists s1. split.
    { unfold remove_all in *. cbn [foldr]. rewrite (bind_run _ _ _ _ _ _ Hrun), Hrun1.
      reflexivity. }
    split; [exact Hsep1|].
    split; [eapply same_fields_trans; [exact Hf1|]; rewrite <- Hs0; reflexivity|].
    split; [rewrite Hg1, <- Hs0; reflexivity|].
    split; [rewrite Hh1, <- Hs0; reflexivity|]. split.
    + intros p Hp. destruct (decide (p ∈ ptrs l)) as [Hl|Hl]; [auto|].
      rewrite (Hout1 p Hl).
      cbn in Hp. apply elem_of_cons in Hp as [->|Hp]; [exact Hgone|contradiction].
    + intros p Hp. cbn in Hp. apply not_elem_of_cons in Hp as [Hpc Hpl].
      rewrite (Hout1 p Hpl), <- Hs0. cbn. apply lookup_delete_ne. congruence.
Qed.

(** X1. [chainsEdited added removed], on a node whose render states are
    separate objects, always returns. Between taking and releasing the
    lock it assigns the map once per listed chain and does nothing else.
    Afterwards every removed chain is detached (also one that is in
    [added] as well: removal comes second), every added chain that is not
    removed has a new, empty render state (also one that was attached
    before: its old state is replaced), and every chain in neither list
    is attached or not as before, with the state it had. No other field
    of the node changes, no render state that existed is written, and
    the states stay separate. *)
Theorem chainsEdited_effect (added removed : list Chain) (s : Store) :
  states_separate s (this s) ->
  exists s',
    chainsEdited added removed s =
      Some (tt, s',
            [EvLock] ++
            replicate (length added + length removed) (EvAssign F_renderStates) ++
            [EvUnlock]) /\
    states_separate s' (this s') /\
    same_fields (this s') (this s) /\
    gl_next s' = gl_next s /\
    heap s ⊆ heap s' /\
    (forall p, p ∈ ptrs removed ->
       m_renderStates (this s') !! p = None) /\
    (forall p, p ∈ ptrs added -> p ∉ ptrs removed ->
       render_state s' (this s') p = Some EffectNodeRenderState_new) /\
    (forall p, p ∉ ptrs added -> p ∉ ptrs removed ->
       m_renderStates (this s') !! p = m_renderStates (this s) !! p /\
       render_state s' (this s') p = render_state s (this s) p).
Proof.
  intros Hsep. rewrite chainsEdited_unfold.
  destruct (add_all_run added s Hsep)
    as (s1 & Hr1 & Hsep1 & Hf1 & Hg1 & Hh1 & Hin1 & Hout1).
  destruct (remove_all_run removed s1 Hsep1)
    as (s2 & Hr2 & Hsep2 & Hf2 & Hg2 & Hh2 & Hin2 & Hout2).
  exists s2. split.
  { rewrite bind_event. fold (add_all added). fold (remove_all removed).
    rewrite (bind_run _ _ _ _ _ _ Hr1), (bind_run _ _ _ _ _ _ Hr2).
    cbn [event]. rewrite replicate_add, <- !app_assoc. reflexivity. }
  split; [exact Hsep2|]. split; [eapply same_fields_trans; eauto|].
  split; [congruence|]. split; [rewrite Hh2; exact Hh1|].
  split; [exact Hin2|]. split.
  - intros p Ha Hr. unfold render_state. rewrite (Hout2 p Hr), Hh2.
    apply Hin1. exact Ha.
  - intros p Ha Hr. destruct (Hout1 p Ha) as [E1 E2].
    rewrite (Hout2 p Hr). split; [exact E1|].
    unfold render_state in *. rewrite (Hout2 p Hr), Hh2. exact E2.
Qed.

Lemma s_two_chains_separate : states_separate s_two_chains (this s_two_chains).
Proof.
  split.
  - intros c1 c2 l H1 H2. cbn in H1, H2.
    destruct (decide (c1 = 7%nat)); destruct (decide (c2 = 7%nat));
    destruct (decide (c1 = 8%nat)); destruct (decide (c2 = 8%nat));
    simplify_map_eq; reflexivity.
  - intros c l H1. cbn in H1.
    destruct (decide (c = 7%nat)); destruct (decide (c = 8%nat));
    simplify_map_eq; eexists; reflexivity.
Qed.

Lemma chainsEdited_effect_witness :
  exists s',
    chainsEdited [chain_nine] [sample_chain] s_two_chains =
      Some (tt, s', [EvLock; EvAssign F_renderStates; EvAssign F_renderStates; EvUnlock]) /\
    m_renderStates (this s') !! 7%nat = None /\
    render_state s' (this s') 9%nat = Some EffectNodeRenderState_new /\
    render_state s' (this s') 8%nat = Some EffectNodeRenderState_new.
Proof.
  destruct (chainsEdited_effect [chain_nine] [sample_chain] s_two_chains
              s_two_chains_separate)
    as (s' & Hrun & _ & _ & _ & _ & Hrem & Hadd & Hrest).
  exists s'. split; [exact Hrun|]. split; [|split].
  - apply Hrem. cbn. apply list_elem_of_singleton. reflexivity.
  - apply Hadd; cbn; rewrite list_elem_of_singleton; [reflexivity|discriminate].
  - destruct (Hrest 8%nat) as [_ ->]; [| |reflexivity];
      cbn; rewrite list_elem_of_singleton; discriminate.
Defined.

Lemma gl_calls_assigns (n : nat) (f : Field) :
  gl_calls (replicate n (EvAssign f)) = [].
Proof. induction n as [|n IH]; [reflexivity|exact IH]. Qed.

(** X2. After [chainsEdited] has removed a chain, a [paint] for that
    chain draws nothing: it returns the null texture 0, writes one debug
    line, and leaves the store as [chainsEdited] left it. This holds
    whether or not the node is ready, and also when the same call added
    the chain. *)
Theorem paint_after_detach (added removed : list Chain) (s : Store)
    amb (chain : Chain) (inputTextures : list GLuint) :
  states_separate s (this s) ->
  chain_ptr chain ∈ ptrs removed ->
  exists s' ev d,
    chainsEdited added removed s = Some (tt, s', ev) /\
    paint amb chain inputTextures s' = Some (0, s', [EvDebug d]) /\
    gl_calls ev = [].
Proof.
  intros Hsep Hin. rewrite chainsEdited_unfold.
  destruct (add_all_run added s Hsep) as (s1 & Hr1 & Hsep1 & _).
  destruct (remove_all_run removed s1 Hsep1) as (s2 & Hr2 & _ & _ & _ & _ & Hgone & _).
  exists s2,
    ([EvLock] ++ replicate (length added) (EvAssign F_renderStates) ++
     replicate (length removed) (EvAssign F_renderStates) ++ [EvUnlock]).
  assert (Hgl : gl_calls
            ([EvLock] ++ replicate (length added) (EvAssign F_renderStates) ++
             replicate (length removed) (EvAssign F_renderStates) ++ [EvUnlock]) = []).
  { rewrite !GLFacts.gl_calls_app, !gl_calls_assigns. reflexivity. }
  destruct (m_ready (this s2)) eqn:Hready.
  - exists (dbg_does_not_have_chain (chain_ptr chain)). split; [|split].
    + rewrite bind_event. fold (add_all added). fold (remove_all removed).
      rewrite (bind_run _ _ _ _ _ _ Hr1), (bind_run _ _ _ _ _ _ Hr2). reflexivity.
    + apply GuardFacts.paint_no_chain; [exact Hready|]. apply Hgone, Hin.
    + exact Hgl.
  - exists dbg_is_not_ready. split; [|split].
    + rewrite bind_event. fold (add_all added). fold (remove_all removed).
      rewrite (bind_run _ _ _ _ _ _ Hr1), (bind_run _ _ _ _ _ _ Hr2). reflexivity.
    + apply GuardFacts.paint_not_ready. exact Hready.
    + exact Hgl.
Qed.

Lemma paint_after_detach_witness :
  exists s' ev d,
    chainsEdited [] [sample_chain] s_two_chains = Some (tt, s', ev) /\
    paint sample_ambient sample_chain [] s' = Some (0, s', [EvDebug d]) /\
    gl_calls ev = [].
Proof.
  apply (paint_after_detach [] [sample_chain] s_two_chains sample_ambient sample_chain []
           s_two_chains_separate).
  cbn. apply list_elem_of_singleton. reflexivity.
Defined.

Lemma same_fields_eqs (n n' : EffectNode) :
  same_fields n n' ->
  m_ready n = m_ready n' /\ m_programs n = m_programs n' /\
  m_inputCount n = m_inputCount n' /\ m_name n = m_name n' /\
  m_intensity n = m_intensity n' /\ m_intensityIntegral n = m_intensityIntegral n' /\
  m_realTime n = m_realTime n' /\ m_realTimeLast n = m_realTimeLast n'.
Proof.
  unfold same_fields. destruct n, n'; cbn. intros [= -> -> -> -> -> -> -> ->].
  repeat split.
Qed.

Lemma fresh_fbos_at (size : QSize) (count : nat) :
  forall (start i : Z), 0 <= i < Z.of_nat count ->
    at_ (fresh_fbos size start count) i = Some (mkFbo size (start + i)).
Proof.
  induction count as [|c IH]; intros start i Hi; [lia|].
  cbn [fresh_fbos]. destruct (Z.eq_dec i 0) as [->|Hne].
  - rewrite Z.add_0_r. reflexivity.
  - specialize (IH (start + 1) (i - 1) ltac:(lia)).
    unfold at_ in *. destruct (Z.ltb_spec i 0) as [|_]; [lia|].
    destruct (Z.ltb_spec (i - 1) 0) as [|_]; [lia|].
    replace (Z.to_nat i) with (S (Z.to_nat (i - 1))) by lia.
    change ((mkFbo size start :: fresh_fbos size (start + 1) c) !! S (Z.to_nat (i - 1)))
      with (fresh_fbos size (start + 1) c !! Z.to_nat (i - 1)).
    rewrite IH. do 2 f_equal. lia.
Qed.

(** X3. The first [paint] for a chain that [chainsEdited] has just
    attached to a ready node, given a texture for each input: it creates
    the ring of the chain, [P + 1] framebuffers of the chain's size whose
    textures take the next [P + 1] names of the context in order, moves
    the cursor from 0 to [1 mod (P + 1)], and returns the texture of
    that slot ([P] is the number of programs). *)
Theorem first_paint_after_attach (added removed : list Chain) (s : Store)
    amb (chain : Chain) (inputTextures : list GLuint) :
  states_separate s (this s) ->
  m_ready (this s) = true ->
  chain_ptr chain ∈ ptrs added ->
  chain_ptr chain ∉ ptrs removed ->
  m_inputCount (this s) <= Z.of_nat (length inputTextures) ->
  let P := Z.of_nat (length (m_programs (this s))) in
  exists s1 ev1 s2 ev2,
    chainsEdited added removed s = Some (tt, s1, ev1) /\
    paint amb chain inputTextures s1 = Some (gl_next s + 1 mod (P + 1), s2, ev2) /\
    render_state s2 (this s2) (chain_ptr chain) =
      Some (mkRenderState (fresh_fbos (chain_size chain) (gl_next s) (Z.to_nat (P + 1)))
                          (1 mod (P + 1))) /\
    gl_next s2 = gl_next s + (P + 1).
Proof.
  intros Hsep Hready Hin Hnot Hcount P. 
  destruct (add_all_run added s Hsep)
    as (s1 & Hr1 & Hsep1 & Hf1 & Hg1 & Hh1 & Hin1 & Hout1).
  destruct (remove_all_run removed s1 Hsep1)
    as (s2 & Hr2 & Hsep2 & Hf2 & Hg2 & Hh2 & Hin2 & Hout2).
  assert (Hf : same_fields (this s2) (this s)) by (eapply same_fields_trans; eauto).
  destruct (same_fields_eqs _ _ Hf) as (Er & Ep & Ec & _).
  assert (Hst : render_state s2 (this s2) (chain_ptr chain) = Some EffectNodeRenderState_new).
  { unfold render_state. rewrite (Hout2 _ Hnot), Hh2. apply Hin1, Hin. }
  unfold render_state in Hst.
  destruct (m_renderStates (this s2) !! chain_ptr chain) as [l|] eqn:Hl; [|discriminate].
  destruct (RingFacts.paint_ok amb chain inputTextures s2 l [] 0)
    as (Hlen & out & ev & Hout & Hpaint);
    [congruence|exact Hl|exact Hst|left; reflexivity|lia|congruence|].
  cbv zeta in Hlen, Hout, Hpaint. cbn [is_nil app] in Hlen, Hout, Hpaint.
  rewrite Ep in Hlen, Hout, Hpaint. fold P in Hout, Hpaint.
  rewrite Z.add_0_l in Hout, Hpaint.
  assert (Hg : gl_next s2 = gl_next s) by congruence.
  rewrite Hg in Hout, Hpaint.
  rewrite fresh_fbos_at in Hout.
  2:{ pose proof (Z.mod_pos_bound 1 (P + 1)). lia. }
  injection Hout as <-. cbn [texture] in Hpaint.
  eexists s2, _, _, ev. split; [|split; [exact Hpaint|split]].
  - rewrite chainsEdited_unfold. rewrite bind_event.
    fold (add_all added). fold (remove_all removed).
    rewrite (bind_run _ _ _ _ _ _ Hr1), (bind_run _ _ _ _ _ _ Hr2). reflexivity.
  - unfold render_state. cbn. rewrite Hl. apply lookup_insert_eq.
  - cbn. lia.
Qed.

Lemma first_paint_after_attach_witness :
  exists s1 ev1 s2 ev2,
    chainsEdited [chain_nine] [] s_two_chains = Some (tt, s1, ev1) /\
    paint sample_ambient chain_nine [55] s1 = Some (104, s2, ev2) /\
    render_state s2 (this s2) 9%nat =
      Some (mkRenderState
              [mkFbo (mkQSize 2 2) 103; mkFbo (mkQSize 2 2) 104; mkFbo (mkQSize 2 2) 105] 1) /\
    gl_next s2 = 106.
Proof.
  apply (first_paint_after_attach [chain_nine] [] s_two_chains sample_ambient chain_nine [55]
           s_two_chains_separate eq_refl).
  - cbn. apply list_elem_of_singleton. reflexivity.
  - cbn. apply not_elem_of_nil.
  - cbn. lia.
Defined.

End ChainFacts.

(** ** The copy made for rendering *)

Module CopyFacts.
Import Values Node EffectNodeImpl Observe Pipeline Samples MoreSamples MonadFacts StateFacts
       ChainFacts.
Local Open Scope list_scope.

Lemma copy_construct_unfold (name : string) (realTime realTimeLast : qreal)
    (other : EffectNode) (s : Store) :
  copy_construct name realTime realTimeLast other s =
  bind (clone_states (map_to_list (m_renderStates other)) ∅)
       (fun states =>
          ret (mkEffectNode (m_inputCount other) name (m_intensity other)
                 (m_intensityIntegral other) realTime realTimeLast
                 (m_programs other) (m_ready other) states)) s.
Proof. reflexivity. Qed.

Lemma new_state_run (r : EffectNodeRenderState) (s : Store) :
  new_state r s =
    Some (fresh (dom (heap s)),
          mkStore (this s) (<[fresh (dom (heap s)) := r]> (heap s)) (gl_next s), []).
Proof. reflexivity. Qed.

(** The loop of the copy constructor: every state of the list is read
    and written into a new object. *)
Lemma clone_states_run (k : list (nat * nat)) :
  forall (acc : gmap nat nat) (s : Store),
    NoDup k.*1 ->
    (forall c l, (c, l) ∈ k -> is_Some (heap s !! l)) ->
    exists states s',
      clone_states k acc s = Some (states, s', []) /\
      this s' = this s /\ gl_next s' = gl_next s /\ heap s ⊆ heap s' /\
      (forall c l, (c, l) ∈ k ->
         exists l', states !! c = Some l' /\ heap s !! l' = None /\
                    heap s' !! l' = heap s !! l) /\
      (forall c, c ∉ k.*1 -> states !! c = acc !! c) /\
      (forall c1 l1 c2 l2, (c1, l1) ∈ k -> (c2, l2) ∈ k -> c1 <> c2 ->
         states !! c1 <> states !! c2).
Proof.
  induction k as [|[c l] k IH]; intros acc s Hnd Halloc.
  - exists acc, s. split; [reflexivity|]. split; [reflexivity|]. split; [reflexivity|].
    split; [reflexivity|]. split; [intros c l H; inversion H|].
    split; [reflexivity|]. intros c1 l1 c2 l2 H; inversion H.
  - cbn [fmap list_fmap fst] in Hnd. apply NoDup_cons in Hnd as [Hc Hnd].
    destruct (Halloc c l) as [r Hr]; [left|].
    set (l0 := fresh (dom (heap s))).
    assert (Hl0 : heap s !! l0 = None) by (apply not_elem_of_dom, is_fresh).
    set (s0 := mkStore (this s) (<[l0 := r]> (heap s)) (gl_next s)).
    assert (Hsub : heap s ⊆ heap s0) by (apply insert_subseteq, Hl0).
    destruct (IH (<[c := l0]> acc) s0 Hnd)
      as (states & s' & Hrun & Ht & Hg & Hh & Hin & Hout & Hinj).
    { intros c' l' H'. destruct (Halloc c' l') as [r' Hr']; [right; exact H'|].
      exists r'. eapply lookup_weaken; eauto. }
    exists states, s'. split.
    { cbn [clone_states]. unfold deref. rewrite bind_assoc, bind_get, bind_lift, Hr.
      rewrite (bind_run _ _ _ _ _ _ (new_state_run r s)). fold l0. fold s0.
      rewrite Hrun. reflexivity. }
    split; [exact Ht|]. split; [exact Hg|]. split; [etrans; eauto|].
    assert (Hc0 : states !! c = Some l0).
    { rewrite (Hout c Hc). apply lookup_insert_eq. }
    split; [|split].
    + intros c' l' H'. apply elem_of_cons in H' as [[= -> ->]|H'].
      * exists l0. split; [exact Hc0|]. split; [exact Hl0|]. rewrite Hr.
        eapply lookup_weaken; [|exact Hh]. apply lookup_insert_eq.
      * destruct (Hin c' l' H') as (l'' & E1 & E2 & E3).
        exists l''. split; [exact E1|]. split.
        { eapply lookup_weaken_None; eauto. }
        rewrite E3. cbn. apply lookup_insert_ne. intros <-.
        destruct (Halloc c' l0) as [? ?]; [right; exact H'|congruence].
    + intros c' Hc'. cbn [fmap list_fmap fst] in Hc'.
      apply not_elem_of_cons in Hc' as [Hne Hc'].
      rewrite (Hout c' Hc'). apply lookup_insert_ne. congruence.
    + assert (Hfresh : forall c' l', (c', l') ∈ k -> states !! c' <> Some l0).
      { intros c' l' H' E. destruct (Hin c' l' H') as (l'' & E1 & E2 & _).
        rewrite E in E1. injection E1 as <-. cbn in E2.
        rewrite lookup_insert_eq in E2. discriminate. }
      intros c1 l1 c2 l2 H1 H2 Hne.
      apply elem_of_cons in H1 as [[= -> ->]|H1];
        apply elem_of_cons in H2 as [[= -> ->]|H2].
      * contradiction.
      * rewrite Hc0. intros E. eapply Hfresh; eauto.
      * rewrite Hc0. eapply Hfresh; eauto.
      * eapply Hinj; eauto.
Qed.

(** The run of [createCopyForRendering] on a node whose render states
    are separate objects. *)
Lemma createCopyForRendering_run (name : string) (realTime realTimeLast : qreal)
    (s : Store) :
  states_separate s (this s) ->
  exists v s',
    createCopyForRendering name realTime realTimeLast s =
      Some (v, s', [EvLock; EvUnlock]) /\
    this s' = this s /\ gl_next s' = gl_next s /\ heap s ⊆ heap s' /\
    copied_fields v (this s) /\
    (forall p l, m_renderStates (this s) !! p = Some l ->
       exists l', m_renderStates v !! p = Some l' /\ heap s !! l' = None /\
                  heap s' !! l' = heap s !! l) /\
    (forall p, m_renderStates (this s) !! p = None -> m_renderStates v !! p = None) /\
    (forall p1 p2 l, m_renderStates v !! p1 = Some l ->
                     m_renderStates v !! p2 = Some l -> p1 = p2).
Proof.
  intros [Hinj Halloc].
  destruct (clone_states_run (map_to_list (m_renderStates (this s))) ∅ s)
    as (states & s' & Hrun & Ht & Hg & Hh & Hin & Hout & Hdist).
  { apply NoDup_fst_map_to_list. }
  { intros c l H. apply elem_of_map_to_list in H. eauto. }
  eexists _, s'. split.
  { assert (Hcc : copy_construct name realTime realTimeLast (this s) s =
                    Some (mkEffectNode (m_inputCount (this s)) name (m_intensity (this s))
                            (m_intensityIntegral (this s)) realTime realTimeLast
                            (m_programs (this s)) (m_ready (this s)) states, s', [])).
    { rewrite copy_construct_unfold, (bind_run _ _ _ _ _ _ Hrun). reflexivity. }
    unfold createCopyForRendering. rewrite bind_event, bind_get_this.
    rewrite (bind_run _ _ _ _ _ _ Hcc). reflexivity. }
  split; [exact Ht|]. split; [exact Hg|]. split; [exact Hh|].
  split; [repeat split|].
  assert (Hnone : forall p, m_renderStates (this s) !! p = None -> states !! p = None).
  { intros p Hp. rewrite Hout; [apply lookup_empty|].
    intros H. apply list_elem_of_fmap in H as ([c l] & -> & H).
    apply elem_of_map_to_list in H. cbn in Hp. congruence. }
  split; [|split].
  - intros p l Hp. apply Hin. apply elem_of_map_to_list. exact Hp.
  - exact Hnone.
  - cbn. intros p1 p2 l H1 H2. destruct (decide (p1 = p2)) as [|Hne]; [assumption|].
    destruct (m_renderStates (this s) !! p1) as [l1|] eqn:E1;
      [|rewrite (Hnone p1 E1) in H1; discriminate].
    destruct (m_renderStates (this s) !! p2) as [l2|] eqn:E2;
      [|rewrite (Hnone p2 E2) in H2; discriminate].
    exfalso. eapply (Hdist p1 l1 p2 l2); [apply elem_of_map_to_list; exact E1
      |apply elem_of_map_to_list; exact E2|exact Hne|congruence].
Qed.

(** X4. [createCopyForRendering], on a node whose render states are
    separate objects, returns a deep copy between taking and releasing
    the lock: the copy has the node's input count, intensity, intensity
    integral, programs and ready flag; for every chain it holds a render
    state equal to the node's (and none where the node has none); each
    of these states is a new object, so that the copy shares no state
    with the node; the states of the copy are separate objects; and the
    node, its states and the context are left as they were. This holds
    whatever the members that the copy constructor does not copy start
    with in the copy. *)
Theorem createCopyForRendering_deep_copy (name : string) (realTime realTimeLast : qreal)
    (s : Store) :
  states_separate s (this s) ->
  exists v s',
    createCopyForRendering name realTime realTimeLast s =
      Some (v, s', [EvLock; EvUnlock]) /\
    copied_fields v (this s) /\
    (forall p, render_state s' v p = render_state s (this s) p) /\
    (forall p, is_Some (m_renderStates v !! p) <-> is_Some (m_renderStates (this s) !! p)) /\
    (forall p l, m_renderStates v !! p = Some l -> heap s !! l = None) /\
    states_separate s' v /\
    this s' = this s /\ gl_next s' = gl_next s /\
    (forall p, render_state s' (this s') p = render_state s (this s) p) /\
    states_separate s' (this s').
Proof.
  intros Hsep. pose proof Hsep as [Hinj Halloc].
  destruct (createCopyForRendering_run name realTime realTimeLast s Hsep)
    as (v & s' & Hrun & Ht & Hg & Hh & Hf & Hin & Hnone & Hvinj).
  exists v, s'. split; [exact Hrun|]. split; [exact Hf|].
  assert (Hfresh : forall p l, m_renderStates v !! p = Some l -> heap s !! l = None).
  { intros p l Hp. destruct (m_renderStates (this s) !! p) as [l0|] eqn:E.
    - destruct (Hin p l0 E) as (l' & E1 & E2 & _). congruence.
    - rewrite (Hnone p E) in Hp. discriminate. }
  assert (Hkeep : forall p, render_state s' (this s) p = render_state s (this s) p).
  { intros p. unfold render_state.
    destruct (m_renderStates (this s) !! p) as [l|] eqn:E; [|reflexivity].
    destruct (Halloc p l E) as [r Hr]. rewrite Hr. eapply lookup_weaken; eauto. }
  split; [|split; [|split; [exact Hfresh|split; [|split; [exact Ht|split; [exact Hg|split]]]]]].
  - intros p. unfold render_state.
    destruct (m_renderStates (this s) !! p) as [l|] eqn:E.
    + destruct (Hin p l E) as (l' & -> & _ & E3). exact E3.
    + rewrite (Hnone p E). reflexivity.
  - intros p. destruct (m_renderStates (this s) !! p) as [l|] eqn:E.
    + destruct (Hin p l E) as (l' & -> & _). split; eauto.
    + rewrite (Hnone p E). reflexivity.
  - split; [exact Hvinj|]. intros p l Hp.
    destruct (m_renderStates (this s) !! p) as [l0|] eqn:E.
    + destruct (Hin p l0 E) as (l' & E1 & _ & E3). rewrite Hp in E1. injection E1 as <-.
      rewrite E3. eauto.
    + rewrite (Hnone p E) in Hp. discriminate.
  - rewrite Ht. exact Hkeep.
  - rewrite Ht. split; [exact Hinj|]. intros p l Hp.
    destruct (Halloc p l Hp) as [r Hr]. exists r. eapply lookup_weaken; eauto.
Qed.

Lemma createCopyForRendering_deep_copy_witness :
  exists v s',
    createCopyForRendering "" q_zero q_zero s_two_chains =
      Some (v, s', [EvLock; EvUnlock]) /\
    m_programs v = [mkProgram "v" "f0"; mkProgram "v" "f1"] /\
    render_state s' v 7%nat = Some EffectNodeRenderState_new /\
    this s' = this s_two_chains.
Proof.
  destruct (createCopyForRendering_deep_copy "" q_zero q_zero s_two_chains
              s_two_chains_separate)
    as (v & s' & Hrun & (_ & _ & _ & Hp & _) & Hst & _ & _ & _ & Ht & _).
  exists v, s'. split; [exact Hrun|]. split; [exact Hp|]. split; [|exact Ht].
  rewrite Hst. reflexivity.
Defined.

Lemma for_down_events_transfer (f g : Z -> option (list Event)) (count : nat) :
  (forall j, is_Some (f j) -> is_Some (g j)) ->
  is_Some (for_down_events f count) -> is_Some (for_down_events g count).
Proof.
  intros H. induction count as [|c IH]; [intros _; eexists; reflexivity|].
  cbn [for_down_events]. destruct (f (Z.of_nat c)) as [e|] eqn:Ef.
  2:{ intros [? [=]]. }
  destruct (for_down_events f c) as [es|]; [|intros [? [=]]].
  intros _. destruct (H (Z.of_nat c)) as [e' ->]; [rewrite Ef; eauto|].
  destruct IH as [es' ->]; [eauto|]. eexists; reflexivity.
Qed.

(** Whether a pass finds its program, its slot, its inputs and its
    channels depends on the programs and the input count only. *)
Lemma pass_events_transfer (n n' : EffectNode) amb chain inputTextures ring ti j :
  m_programs n = m_programs n' -> m_inputCount n = m_inputCount n' ->
  is_Some (pass_events n amb chain inputTextures ring ti j) ->
  is_Some (pass_events n' amb chain inputTextures ring ti j).
Proof.
  intros Hp Hc. unfold pass_events. cbv zeta. rewrite Hp, Hc.
  destruct (at_ (m_programs n') j); [|intros [? [=]]].
  destruct (at_ ring _); [|intros [? [=]]].
  destruct (for_up_events (input_events _) _ _); [|intros [? [=]]].
  destruct (for_up_events (channel_events _ _ _ _ _) _ _); [|intros [? [=]]].
  intros _. eexists; reflexivity.
Qed.

Lemma on_this (s : Store) : on (this s) s = s.
Proof. destruct s; reflexivity. Qed.

(** A state of the node that was allocated before the copy was made has
    its old value in any store that extends the old one. *)
Lemma render_state_weaken (s : Store) (h : gmap nat EffectNodeRenderState) (g : GLuint)
    (n : EffectNode) (p : nat) :
  (forall c l, m_renderStates n !! c = Some l -> is_Some (heap s !! l)) ->
  heap s ⊆ h ->
  render_state (mkStore n h g) n p = render_state s n p.
Proof.
  intros Halloc Hsub. unfold render_state. cbn.
  destruct (m_renderStates n !! p) as [l|] eqn:E; [|reflexivity].
  destruct (Halloc p l E) as [r Hr]. rewrite Hr. eapply lookup_weaken; eauto.
Qed.

(** X5. Rendering through a copy. Take the copy [createCopyForRendering]
    makes, or any node object with the members the copy constructor
    copies and the cloned states, whatever its other members hold. A
    [paint] of the copy stops where a [paint] of the node itself would,
    and where that returns, the paint of the copy returns the same
    texture, and [copyBackRenderState] then leaves every chain of the
    node with the render state a paint of the node itself would have
    left, and the context with the same next texture name. The node's own
    members are not touched by the detour. *)
Theorem render_through_copy (name : string) (realTime realTimeLast : qreal)
    amb (chain : Chain) (inputTextures : list GLuint) (s : Store) :
  states_separate s (this s) ->
  exists v s1,
    createCopyForRendering name realTime realTimeLast s =
      Some (v, s1, [EvLock; EvUnlock]) /\
    copied_fields v (this s) /\
    forall v', copied_fields v' (this s) -> m_renderStates v' = m_renderStates v ->
      (paint amb chain inputTextures s = None ->
       paint amb chain inputTextures (on v' s1) = None) /\
      (forall t sd evd,
         paint amb chain inputTextures s = Some (t, sd, evd) ->
         exists s2 ev2 s3 ev3,
           paint amb chain inputTextures (on v' s1) = Some (t, s2, ev2) /\
           copyBackRenderState chain (this s2) (on (this s) s2) = Some (tt, s3, ev3) /\
           this s3 = this s /\ gl_next s3 = gl_next sd /\
           forall p, render_state s3 (this s3) p = render_state sd (this sd) p).
Proof.
  intros Hsep. pose proof Hsep as [Hinj Halloc].
  destruct (createCopyForRendering_run name realTime realTimeLast s Hsep)
    as (v & s1 & Hrun & Ht & Hg & Hh & Hf & Hin & Hnone & Hvinj).
  exists v, s1. split; [exact Hrun|]. split; [exact Hf|].
  intros v' (Hcount & _ & _ & Hprog & Hready) Hstates.
  (* copying back an unpainted copy *)
  assert (Hback :
    exists s3 ev3,
      copyBackRenderState chain v' (on (this s) (on v' s1)) = Some (tt, s3, ev3) /\
      this s3 = this s /\ gl_next s3 = gl_next s /\
      forall p, render_state s3 (this s3) p = render_state s (this s) p).
  { change (on (this s) (on v' s1)) with (on (this s) s1).
    destruct (m_renderStates (this s) !! chain_ptr chain) as [l|] eqn:Hl.
    - destruct (Hin _ _ Hl) as (l' & E1 & E2 & E3).
      destruct (Halloc _ _ Hl) as [r Hr].
      eexists _, _. split.
      { apply (copyBackRenderState_present chain v' (on (this s) s1) l l' r).
        - exact Hl.
        - exists r. cbn. eapply lookup_weaken; eauto.
        - rewrite Hstates. exact E1.
        - cbn. congruence. }
      cbn. split; [reflexivity|]. split; [exact Hg|].
      intros p. unfold render_state. cbn.
      destruct (m_renderStates (this s) !! p) as [lp|] eqn:Hp; [|reflexivity].
      destruct (decide (lp = l)) as [->|Hne].
      + rewrite lookup_insert_eq. congruence.
      + rewrite lookup_insert_ne by congruence.
        destruct (Halloc _ _ Hp) as [rp Hrp]. rewrite Hrp. eapply lookup_weaken; eauto.
    - eexists _, _. split.
      { apply copyBackRenderState_absent. exact Hl. }
      cbn. split; [reflexivity|]. split; [exact Hg|].
      intros p. apply (render_state_weaken s); assumption. }
  destruct (m_ready (this s)) eqn:Hr.
  2:{ (* not ready: both paints only write the debug line *)
    rewrite (GuardFacts.paint_not_ready amb chain inputTextures s Hr).
    split; [discriminate|]. intros t sd evd [= <- <- <-].
    destruct Hback as (s3 & ev3 & Hcb & H3).
    exists (on v' s1), [EvDebug dbg_is_not_ready], s3, ev3.
    split; [apply GuardFacts.paint_not_ready; cbn; congruence|].
    split; [exact Hcb|exact H3]. }
  destruct (m_renderStates (this s) !! chain_ptr chain) as [l|] eqn:Hl.
  2:{ (* the chain is not attached *)
    rewrite (GuardFacts.paint_no_chain amb chain inputTextures s Hr Hl).
    split; [discriminate|]. intros t sd evd [= <- <- <-].
    destruct Hback as (s3 & ev3 & Hcb & H3).
    exists (on v' s1), [EvDebug (dbg_does_not_have_chain (chain_ptr chain))], s3, ev3.
    split; [|split; [exact Hcb|exact H3]].
    apply GuardFacts.paint_no_chain; cbn; [congruence|].
    rewrite Hstates. apply Hnone, Hl. }
  (* the chain is attached *)
  destruct (Halloc _ _ Hl) as [[ring0 ti] Hrs].
  destruct (Hin _ _ Hl) as (l' & E1 & E2 & E3).
  assert (Hl' : m_renderStates (this (on v' s1)) !! chain_ptr chain = Some l').
  { cbn. rewrite Hstates. exact E1. }
  assert (Hrs' : heap (on v' s1) !! l' = Some (mkRenderState ring0 ti)).
  { cbn. congruence. }
  assert (Hr' : m_ready (this (on v' s1)) = true) by (cbn; congruence).
  rewrite (PaintFacts.paint_run amb chain inputTextures s l ring0 ti Hr Hl Hrs).
  rewrite (PaintFacts.paint_run amb chain inputTextures (on v' s1) l' ring0 ti Hr' Hl' Hrs').
  cbv zeta. cbn [this heap gl_next on]. rewrite Hprog, Hg.
  set (P := Z.of_nat (length (m_programs (this s)))).
  set (count := if is_nil ring0 then Z.to_nat (P + 1) else 0%nat).
  set (ring := ring0 ++ fresh_fbos (chain_size chain) (gl_next s) count).
  set (n1 := with_realTime (wallTime amb) (with_realTimeLast (m_realTime (this s)) (this s))).
  set (n1' := with_realTime (wallTime amb) (with_realTimeLast (m_realTime v') v')).
  destruct (at_ ring (Z.rem (ti + 1) (P + 1))) as [out|] eqn:Hout.
  2:{ split.
      - intros _. destruct (for_down_events _ _); reflexivity.
      - intros t sd evd. destruct (for_down_events _ _); discriminate. }
  destruct (for_down_events (pass_events n1 amb chain inputTextures ring ti) _)
    as [evp|] eqn:Hevp.
  2:{ split; [|discriminate]. intros _.
      destruct (for_down_events (pass_events n1' amb chain inputTextures ring ti) _)
        as [evp'|] eqn:Hevp'; [|reflexivity].
      exfalso.
      destruct (for_down_events_transfer
                  (pass_events n1' amb chain inputTextures ring ti)
                  (pass_events n1 amb chain inputTextures ring ti)
                  (length (m_programs (this s)))) as [? ?]; [|eauto|congruence].
      intros j. apply pass_events_transfer; cbn; congruence. }
  split; [discriminate|]. intros t sd evd [= <- <- <-].
  destruct (for_down_events_transfer
              (pass_events n1 amb chain inputTextures ring ti)
              (pass_events n1' amb chain inputTextures ring ti)
              (length (m_programs (this s)))) as [evp' Hevp']; [|eauto|].
  { intros j. apply pass_events_transfer; cbn; congruence. }
  rewrite Hevp'.
  set (new := mkRenderState ring (Z.rem (ti + 1) (P + 1))).
  eexists _, _, _, _. split; [reflexivity|].
  assert (Hne : l <> l') by congruence.
  cbn [this heap gl_next on].
  split.
  { apply (copyBackRenderState_present chain n1' _ l l' new).
    - exact Hl.
    - cbn. rewrite lookup_insert_ne by congruence.
      exists (mkRenderState ring0 ti). eapply lookup_weaken; eauto.
    - cbn. rewrite Hstates. exact E1.
    - cbn. apply lookup_insert_eq. }
  cbn. split; [reflexivity|]. split; [reflexivity|].
  intros p. unfold render_state. cbn.
  destruct (m_renderStates (this s) !! p) as [lp|] eqn:Hp; [|reflexivity].
  destruct (decide (lp = l)) as [->|Hnl].
  - rewrite !lookup_insert_eq. reflexivity.
  - rewrite !(lookup_insert_ne _ l) by congruence.
    destruct (Halloc _ _ Hp) as [rp Hrp].
    rewrite lookup_insert_ne by congruence.
    rewrite Hrp. eapply lookup_weaken; eauto.
Qed.

Lemma render_through_copy_witness :
  exists v s1 t sd evd s2 ev2 s3 ev3,
    createCopyForRendering "" q_zero q_zero s_two_chains =
      Some (v, s1, [EvLock; EvUnlock]) /\
    paint sample_ambient sample_chain [55] s_two_chains = Some (t, sd, evd) /\
    paint sample_ambient sample_chain [55] (on v s1) = Some (t, s2, ev2) /\
    copyBackRenderState sample_chain (this s2) (on (this s_two_chains) s2) =
      Some (tt, s3, ev3) /\
    render_state s3 (this s3) 7%nat = render_state sd (this sd) 7%nat.
Proof.
  destruct (render_through_copy "" q_zero q_zero sample_ambient sample_chain [55]
              s_two_chains s_two_chains_separate) as (v & s1 & Hrun & Hv & H).
  destruct (H v Hv eq_refl) as [_ Hsome].
  destruct (paint sample_ambient sample_chain [55] s_two_chains)
    as [[[t sd] evd]|] eqn:E; [|vm_compute in E; discriminate].
  destruct (Hsome t sd evd eq_refl) as (s2 & ev2 & s3 & ev3 & Hp & Hcb & _ & _ & Hst).
  exists v, s1, t, sd, evd, s2, ev2, s3, ev3.
  split; [exact Hrun|]. split; [reflexivity|]. split; [exact Hp|].
  split; [exact Hcb|apply Hst].
Defined.

End CopyFacts.

(** ** The directive grammar *)

Module GrammarFacts.
Import Text Grammar Patterns.
Local Open Scope list_scope.

Lemma append_String (c : ascii) (a b : string) : String c a +:+ b = String c (a +:+ b).
Proof. reflexivity. Qed.

Lemma append_empty_l (b : string) : "" +:+ b = b.
Proof. reflexivity. Qed.

Lemma append_empty_r (a : string) : a +:+ "" = a.
Proof. induction a as [|c a IH]; [reflexivity|]. rewrite append_String, IH. reflexivity. Qed.

Lemma append_assoc (a b c : string) : (a +:+ b) +:+ c = a +:+ (b +:+ c).
Proof.
  induction a as [|x a IH]; [reflexivity|]. rewrite !append_String, IH. reflexivity.
Qed.

Lemma all_chars_app (p : ascii -> bool) (a b : string) :
  all_chars p (a +:+ b) = all_chars p a && all_chars p b.
Proof.
  induction a as [|x a IH]; [reflexivity|].
  rewrite append_String. cbn [all_chars]. rewrite IH. apply andb_assoc.
Qed.

(** [span p] cuts a string after its longest prefix in [p]. *)
Lemma span_eq (p : ascii -> bool) (s : string) :
  s = fst (span p s) +:+ snd (span p s) /\
  all_chars p (fst (span p s)) = true /\
  starts_with p (snd (span p s)) = false.
Proof.
  induction s as [|c s (IH1 & IH2 & IH3)]; [repeat split|].
  cbn [span]. destruct (p c) eqn:Hc.
  - destruct (span p s) as [a b]. cbn [fst snd] in *. rewrite append_String, <- IH1.
    split; [reflexivity|]. split; [|exact IH3]. cbn [all_chars]. rewrite Hc. exact IH2.
  - cbn [fst snd]. split; [reflexivity|]. split; [reflexivity|exact Hc].
Qed.

Lemma span_app (p : ascii -> bool) (a b : string) :
  all_chars p a = true -> starts_with p b = false -> span p (a +:+ b) = (a, b).
Proof.
  induction a as [|c a IH]; intros Ha Hb.
  - rewrite append_empty_l. destruct b as [|c b]; [reflexivity|].
    cbn [span]. cbn in Hb. rewrite Hb. reflexivity.
  - cbn [all_chars] in Ha. apply andb_true_iff in Ha as [Hc Ha].
    rewrite append_String. cbn [span]. rewrite Hc, (IH Ha Hb). reflexivity.
Qed.

(** One pattern character that has no case partner outside ASCII. *)
Lemma strip_prefix_ci_cons (a : ascii) (lit : string) (b : ascii) (s : string) :
  case_partner a = None ->
  strip_prefix_ci (String a lit) (String b s) =
    if Ascii.eqb (to_lower a) (to_lower b) then strip_prefix_ci lit s else None.
Proof. intros H. cbn [strip_prefix_ci]. rewrite H. reflexivity. Qed.

(** For a literal without case partners outside ASCII, ignoring case is
    ignoring the case of ASCII letters. *)
Lemma strip_prefix_ci_eq (lit s r : string) :
  ascii_cases lit = true ->
  strip_prefix_ci lit s = Some r <-> exists kw, s = kw +:+ r /\ ci_eq lit kw = true.
Proof.
  revert s. induction lit as [|a lit IH]; intros s Hlit.
  - cbn. split.
    + intros [= ->]. exists "". split; reflexivity.
    + intros (kw & -> & H). destruct kw; [reflexivity|discriminate].
  - cbn [ascii_cases] in Hlit.
    destruct (case_partner a) eqn:Ha; [discriminate|].
    destruct s as [|b s].
    + cbn [strip_prefix_ci]. split; [discriminate|]. intros (kw & H & Hk).
      destruct kw; [discriminate|]. rewrite append_String in H. discriminate.
    + rewrite (strip_prefix_ci_cons _ _ _ _ Ha).
      destruct (Ascii.eqb (to_lower a) (to_lower b)) eqn:E.
      * rewrite (IH _ Hlit). split.
        -- intros (kw & -> & Hk). exists (String b kw). split; [reflexivity|].
           cbn [ci_eq]. rewrite E. exact Hk.
        -- intros (kw & H & Hk). destruct kw as [|b' kw]; [discriminate|].
           rewrite append_String in H. injection H as <- ->.
           cbn [ci_eq] in Hk. apply andb_true_iff in Hk as [_ Hk]. eauto.
      * split; [discriminate|]. intros (kw & H & Hk).
        destruct kw as [|b' kw]; [discriminate|].
        rewrite append_String in H. injection H as <- ->.
        cbn [ci_eq] in Hk. rewrite E in Hk. discriminate.
Qed.

(** A literal is matched piece by piece. *)
Lemma strip_prefix_ci_app (l1 l2 s : string) :
  strip_prefix_ci (l1 +:+ l2) s =
    match strip_prefix_ci l1 s with
    | Some r => strip_prefix_ci l2 r
    | None => None
    end.
Proof.
  revert s. induction l1 as [|a l1 IH]; intros s; [reflexivity|].
  rewrite append_String. cbn [strip_prefix_ci].
  destruct s as [|b s]; [reflexivity|].
  destruct (Ascii.eqb (to_lower a) (to_lower b)); [apply IH|].
  destruct (case_partner a) as [u|]; [|reflexivity].
  destruct (strip_prefix u (String b s)); [apply IH|reflexivity].
Qed.

(** The pattern letter s, ignoring case: an s in either case, or the
    long s. *)
Lemma strip_prefix_ci_s (s r : string) :
  strip_prefix_ci "s" s = Some r <->
  exists u, s = u +:+ r /\ (u = "s" \/ u = "S" \/ u = long_s).
Proof.
  split.
  - destruct s as [|b s]; [discriminate|]. cbn [strip_prefix_ci].
    destruct (Ascii.eqb (to_lower "s") (to_lower b)) eqn:E.
    + intros [= ->]. exists (String b ""). split; [reflexivity|].
      revert E. destruct b as [[] [] [] [] [] [] [] []]; vm_compute; intros E;
        try discriminate; auto.
    + change (case_partner "s") with (Some long_s). cbv beta iota.
      destruct (strip_prefix long_s (String b s)) as [r'|] eqn:Hp; [|discriminate].
      intros [= ->]. exists long_s. split; [|auto].
      revert Hp. unfold long_s. cbn [strip_prefix].
      destruct (Ascii.eqb_spec (ascii_of_nat 197) b) as [<-|]; [|discriminate].
      destruct s as [|c s]; [discriminate|].
      destruct (Ascii.eqb_spec (ascii_of_nat 191) c) as [<-|]; [|discriminate].
      intros [= ->]. reflexivity.
  - intros (u & -> & [ -> | [ -> | -> ] ]); reflexivity.
Qed.

(** The classes of blanks and of word characters are disjoint, and the
    hash sign is in neither, in any case. *)
Lemma word_not_space (c : ascii) : is_word c = true -> is_space c = false.
Proof. destruct c as [[] [] [] [] [] [] [] []]; vm_compute; congruence. Qed.

Lemma space_not_word (c : ascii) : is_space c = true -> is_word c = false.
Proof. destruct c as [[] [] [] [] [] [] [] []]; vm_compute; congruence. Qed.

Lemma hash_not_space (c : ascii) :
  Ascii.eqb (to_lower "#") (to_lower c) = true -> is_space c = false.
Proof. destruct c as [[] [] [] [] [] [] [] []]; vm_compute; congruence. Qed.

Lemma is_empty_false (s : string) : s <> "" -> is_empty s = false.
Proof. destruct s; [contradiction|reflexivity]. Qed.

Lemma is_empty_true (s : string) : is_empty s = true -> s = "".
Proof. destruct s; [reflexivity|discriminate]. Qed.

Lemma starts_with_app (p : ascii -> bool) (a b : string) :
  a <> "" -> starts_with p (a +:+ b) = starts_with p a.
Proof. destruct a; [contradiction|reflexivity]. Qed.

Lemma starts_with_all (p q : ascii -> bool) (a : string) :
  (forall c, p c = true -> q c = false) ->
  all_chars p a = true -> starts_with q a = false.
Proof.
  intros H. destruct a as [|c a]; [reflexivity|]. cbn. intros Ha.
  apply andb_true_iff in Ha as [Hc _]. auto.
Qed.

Lemma keyword_not_space (lit kw rest : string) :
  ci_eq (String "#" lit) kw = true -> starts_with is_space (kw +:+ rest) = false.
Proof.
  destruct kw as [|c kw]; [discriminate|]. cbn [ci_eq]. intros H.
  apply andb_true_iff in H as [H _]. rewrite append_String. cbn.
  apply hash_not_space. exact H.
Qed.

Lemma property_reg_sound (line name value : string) :
  property_reg line = Some (name, value) ->
  matches_property line name value /\ starts_with is_space value = false.
Proof.
  unfold property_reg.
  destruct (span_eq is_space line) as (L0 & A0 & _).
  destruct (span is_space line) as [ws0 r0]. cbn [fst snd] in *.
  destruct (strip_prefix_ci "#property" r0) as [r1|] eqn:E1; [|discriminate].
  apply strip_prefix_ci_eq in E1 as (kw & -> & Hkw); [|reflexivity].
  destruct (span_eq is_space r1) as (L1 & A1 & _).
  destruct (span is_space r1) as [ws1 r2]. cbn [fst snd] in *.
  destruct (span_eq is_word r2) as (L2 & A2 & _).
  destruct (span is_word r2) as [name' r3]. cbn [fst snd] in *.
  destruct (span_eq is_space r3) as (L3 & A3 & S3).
  destruct (span is_space r3) as [ws2 value']. cbn [fst snd] in *.
  destruct (is_empty ws1) eqn:N1; [discriminate|].
  destruct (is_empty name') eqn:N2; [discriminate|].
  destruct (is_empty ws2) eqn:N3; [discriminate|].
  cbn [orb]. intros [= <- <-]. split; [|exact S3].
  exists ws0, kw, ws1, ws2. split; [congruence|].
  repeat split; try assumption; intros ->; discriminate.
Qed.

Lemma property_reg_complete (line name value : string) :
  matches_property line name value -> starts_with is_space value = false ->
  property_reg line = Some (name, value).
Proof.
  intros (ws0 & kw & ws1 & ws2 & -> & A0 & Hkw & A1 & N1 & A2 & N2 & A3 & N3) Hv.
  unfold property_reg.
  rewrite (span_app is_space ws0 _ A0) by (eapply keyword_not_space; exact Hkw).
  rewrite (proj2 (strip_prefix_ci_eq "#property" (kw +:+ ws1 +:+ name +:+ ws2 +:+ value)
                    (ws1 +:+ name +:+ ws2 +:+ value) eq_refl)) by eauto.
  rewrite (span_app is_space ws1 _ A1).
  2:{ rewrite starts_with_app by exact N2.
      apply (starts_with_all is_word); [apply word_not_space|exact A2]. }
  rewrite (span_app is_word name _ A2).
  2:{ rewrite starts_with_app by exact N3.
      apply (starts_with_all is_space); [apply space_not_word|exact A3]. }
  rewrite (span_app is_space ws2 _ A3 Hv).
  rewrite !is_empty_false by assumption. reflexivity.
Qed.

(** X6. The matcher [property_reg] implements its pattern. It matches
    exactly the lines made of blanks, the keyword [#property] in any
    case, at least one blank, a name of at least one word character, at
    least one blank, and a value; and the groups it captures are the
    name and the value of that reading in which the value does not begin
    with a blank (the blanks before the value are taken greedily). *)
Theorem property_reg_captures (line : string) :
  (forall name value,
     property_reg line = Some (name, value) <->
     matches_property line name value /\ starts_with is_space value = false) /\
  (is_Some (property_reg line) <-> exists name value, matches_property line name value).
Proof.
  split.
  - intros name value. split; [apply property_reg_sound|].
    intros [H Hv]. apply property_reg_complete; assumption.
  - split.
    + intros [[name value] H]. exists name, value. apply (property_reg_sound _ _ _ H).
    + intros (name & value & ws0 & kw & ws1 & ws2 & -> & A0 & Hkw & A1 & N1 & A2 & N2 & A3 & N3).
      destruct (span_eq is_space value) as (Lv & Av & Sv).
      exists (name, snd (span is_space value)).
      apply property_reg_complete; [|exact Sv].
      exists ws0, kw, ws1, (ws2 +:+ fst (span is_space value)).
      split; [rewrite append_assoc, <- Lv; reflexivity|].
      repeat split; try assumption.
      * rewrite all_chars_app, A3, Av. reflexivity.
      * destruct ws2; [contradiction|discriminate].
Qed.

(** The literal of [buffershader_reg], piece by piece. *)
Lemma strip_buffershader (s r : string) :
  strip_prefix_ci "#buffershader" s = Some r <->
  exists pre u post,
    s = pre +:+ u +:+ post +:+ r /\
    ci_eq "#buffer" pre = true /\
    (u = "s" \/ u = "S" \/ u = long_s) /\
    ci_eq "hader" post = true.
Proof.
  change "#buffershader" with ("#buffer" +:+ "s" +:+ "hader").
  rewrite strip_prefix_ci_app. split.
  - destruct (strip_prefix_ci "#buffer" s) as [r1|] eqn:E1; [|discriminate].
    rewrite strip_prefix_ci_app.
    destruct (strip_prefix_ci "s" r1) as [r2|] eqn:E2; [|discriminate].
    intros E3.
    apply strip_prefix_ci_eq in E1 as (pre & -> & Hpre); [|reflexivity].
    apply strip_prefix_ci_s in E2 as (u & -> & Hu).
    apply strip_prefix_ci_eq in E3 as (post & -> & Hpost); [|reflexivity].
    exists pre, u, post. auto.
  - intros (pre & u & post & -> & Hpre & Hu & Hpost).
    rewrite (proj2 (strip_prefix_ci_eq "#buffer" (pre +:+ u +:+ post +:+ r)
                      (u +:+ post +:+ r) eq_refl)) by eauto.
    rewrite strip_prefix_ci_app.
    rewrite (proj2 (strip_prefix_ci_s (u +:+ post +:+ r) (post +:+ r))) by eauto.
    apply strip_prefix_ci_eq; [reflexivity|eauto].
Qed.

Lemma buffershader_reg_sound (line : string) :
  buffershader_reg line = true -> matches_buffershader line.
Proof.
  unfold buffershader_reg.
  destruct (span_eq is_space line) as (L0 & A0 & _).
  destruct (span is_space line) as [ws0 r0]. cbn [fst snd] in *.
  destruct (strip_prefix_ci "#buffershader" r0) as [r1|] eqn:E1; [|discriminate].
  apply strip_buffershader in E1 as (pre & u & post & -> & Hpre & Hu & Hpost).
  destruct (span_eq is_space r1) as (L1 & A1 & _).
  destruct (span is_space r1) as [ws1 r2]. cbn [fst snd] in *.
  intros H. apply is_empty_true in H. subst r2. rewrite append_empty_r in L1. subst r1.
  exists ws0, pre, u, post, ws1. repeat split; assumption.
Qed.

Lemma buffershader_reg_complete (line : string) :
  matches_buffershader line -> buffershader_reg line = true.
Proof.
  intros (ws0 & pre & u & post & ws1 & -> & A0 & Hpre & Hu & Hpost & A1).
  unfold buffershader_reg.
  rewrite (span_app is_space ws0 _ A0) by (eapply keyword_not_space; exact Hpre).
  rewrite (proj2 (strip_buffershader (pre +:+ u +:+ post +:+ ws1) ws1)) by eauto 10.
  rewrite <- (append_empty_r ws1) at 1.
  rewrite (span_app is_space ws1 "" A1 eq_refl). reflexivity.
Qed.

(** A line cannot be a property line and a buffer shader line. *)
Lemma directives_exclusive (line : string) :
  buffershader_reg line = true -> property_reg line = None.
Proof.
  unfold buffershader_reg, property_reg.
  destruct (span is_space line) as [ws0 r0].
  destruct r0 as [|c0 [|c1 r]]; [reflexivity| |].
  { rewrite (strip_prefix_ci_cons "#" _ c0 "" eq_refl).
    destruct (Ascii.eqb _ _); discriminate. }
  rewrite (strip_prefix_ci_cons "#" "buffershader" c0 _ eq_refl).
  rewrite (strip_prefix_ci_cons "#" "property" c0 _ eq_refl).
  destruct (Ascii.eqb (to_lower "#") (to_lower c0)); [|discriminate].
  rewrite (strip_prefix_ci_cons "b" "uffershader" c1 _ eq_refl).
  rewrite (strip_prefix_ci_cons "p" "roperty" c1 _ eq_refl).
  destruct (Ascii.eqb (to_lower "b") (to_lower c1)) eqn:Eb; [|discriminate].
  destruct (Ascii.eqb (to_lower "p") (to_lower c1)) eqn:Ep; [|reflexivity].
  apply Ascii.eqb_eq in Eb, Ep. rewrite <- Ep in Eb. discriminate.
Qed.

(** X7. The matcher [buffershader_reg] implements its pattern, matched
    without regard to case in UTF mode: it accepts exactly the lines
    made of blanks, the keyword and blanks, where the keyword is
    [#buffer] in any case, an s in either case or the long s (U+017F),
    and [hader] in any case. So a line whose keyword is written with the
    long s separates two passes like any other. No line is accepted by
    both matchers, so the order in which the reading loop tries them
    does not matter. *)
Theorem buffershader_reg_matches (line : string) :
  (buffershader_reg line = true <-> matches_buffershader line) /\
  (forall ws0 ws1,
     all_chars is_space ws0 = true -> all_chars is_space ws1 = true ->
     buffershader_reg (ws0 +:+ "#buffer" +:+ long_s +:+ "hader" +:+ ws1) = true) /\
  (buffershader_reg line = true -> property_reg line = None) /\
  (is_Some (property_reg line) -> buffershader_reg line = false).
Proof.
  split; [split; [apply buffershader_reg_sound|apply buffershader_reg_complete]|].
  split.
  { intros ws0 ws1 A0 A1. apply buffershader_reg_complete.
    exists ws0, "#buffer", long_s, "hader", ws1. repeat split; auto. }
  split; [apply directives_exclusive|].
  intros [x Hx]. destruct (buffershader_reg line) eqn:E; [|reflexivity].
  rewrite (directives_exclusive line E) in Hx. discriminate.
Qed.

Lemma buffershader_reg_matches_witness :
  buffershader_reg ("  #BUFFER" +:+ long_s +:+ "HADER ") = true.
Proof.
  apply (buffershader_reg_matches ("  #BUFFER" +:+ long_s +:+ "HADER ")).
  exists "  ", "#BUFFER", long_s, "HADER", " ". repeat split; auto.
Defined.

End GrammarFacts.

(** ** The passes of a source *)

Module LayoutFacts.
Import Text Grammar Values Node EffectNodeImpl Loader Observe Layout Samples MoreSamples.
Import MonadFacts LoaderFacts GrammarFacts.
Local Open Scope list_scope.

Lemma back_append_layout (passes : list (list string)) (x : string) :
  passes <> [] ->
  exists passes',
    back_append passes x = Some passes' /\ passes' <> [] /\
    length passes' = length passes /\
    concat passes' = concat passes ++ [x].
Proof.
  intros H. destruct (nonempty_snoc passes H) as (init & last & ->).
  exists (init ++ [last ++ [x]]). split; [apply back_append_snoc|].
  split; [destruct init; discriminate|]. split; [now rewrite !length_app|].
  rewrite !concat_app. cbn [concat]. rewrite !app_nil_r, app_assoc. reflexivity.
Qed.

Lemma parse_lines_layout (lines : list string) :
  forall (lineno : nat) (passes : list (list string)) (props : gmap string string)
         (s : Store),
    passes <> [] ->
    exists passes' props',
      parse_lines lines lineno passes props s =
        Some ((passes', props'), s, map debug_of (property_lines lines)) /\
      length passes' = (length passes + buffershader_count lines)%nat /\
      concat passes' =
        concat passes ++ imap (fun i => as_pass_line (lineno + i)) lines /\
      (forall name,
         props' !! name =
           match lookup_last name (property_lines lines) with
           | Some v => Some v
           | None => props !! name
           end).
Proof.
  induction lines as [|line lines IH]; intros lineno passes props s Hne.
  - exists passes, props. split; [reflexivity|].
    split; [cbn; lia|]. split; [cbn; now rewrite app_nil_r|]. reflexivity.
  - cbn [parse_lines]. unfold property_lines, buffershader_count.
    cbn [omap list_omap List.filter imap].
    fold (@omap list _ _ _ property_reg lines). fold (property_lines lines).
    unfold as_pass_line at 1, is_directive at 1. rewrite Nat.add_0_r.
    assert (Himap : forall l : list string,
              imap ((fun i => as_pass_line (lineno + i)) ∘ S) l =
              imap (fun i => as_pass_line (S lineno + i)) l).
    { intros l. apply imap_ext. intros i x _. cbn. f_equal. lia. }
    rewrite Himap.
    destruct (property_reg line) as [[name value]|] eqn:Hprop.
    + assert (Hb : buffershader_reg line = false).
      { destruct (buffershader_reg line) eqn:E; [|reflexivity].
        rewrite (directives_exclusive line E) in Hprop. discriminate. }
      rewrite Hb.
      destruct (back_append_layout passes (line_marker lineno) Hne)
        as (p1 & Hba & Hne1 & Hlen1 & Hcat1).
      destruct (IH (S lineno) p1 (<[name := value]> props) s Hne1)
        as (p2 & props2 & Hrun & Hlen2 & Hcat2 & Hprops2).
      exists p2, props2. split; [|split; [|split]].
      * repeat mstep. rewrite Hba. unfold qDebug. repeat mstep. rewrite Hrun. reflexivity.
      * rewrite Hlen2, Hlen1. reflexivity.
      * rewrite Hcat2, Hcat1, <- app_assoc. reflexivity.
      * intros nm. rewrite Hprops2. cbn [lookup_last].
        destruct (lookup_last nm (property_lines lines)); [reflexivity|].
        rewrite lookup_insert. destruct (decide (name = nm)); reflexivity.
    + destruct (buffershader_reg line) eqn:Hb.
      * destruct (IH (S lineno) (passes ++ [[line_marker lineno]]) props s)
          as (p2 & props2 & Hrun & Hlen2 & Hcat2 & Hprops2).
        { destruct passes; discriminate. }
        exists p2, props2. split; [exact Hrun|]. split; [|split; [|exact Hprops2]].
        -- rewrite Hlen2, length_app. cbn [length]. unfold buffershader_count. lia.
        -- rewrite Hcat2, concat_app. cbn [concat]. rewrite app_nil_r, <- app_assoc.
           reflexivity.
      * destruct (back_append_layout passes line Hne) as (p1 & Hba & Hne1 & Hlen1 & Hcat1).
        destruct (IH (S lineno) p1 props s Hne1)
          as (p2 & props2 & Hrun & Hlen2 & Hcat2 & Hprops2).
        exists p2, props2. split; [|split; [|split; [|exact Hprops2]]].
        -- repeat mstep. rewrite Hba. exact Hrun.
        -- rewrite Hlen2, Hlen1. reflexivity.
        -- rewrite Hcat2, Hcat1, <- app_assoc. reflexivity.
Qed.

(** The number of passes of a parsed source. *)
Lemma parse_source_count (text : string) (s : Store) passes props ev :
  parse_source text s = Some ((passes, props), s, ev) ->
  length passes = S (buffershader_count (readLines text)).
Proof.
  unfold parse_source.
  destruct (parse_lines_layout (readLines text) O [["#line 0"]] {["inputCount" := "1"]} s)
    as (passes' & props' & Hrun & Hlen & _); [discriminate|].
  rewrite Hrun. intros [= <- <- <-]. exact Hlen.
Qed.

(** X8. The reading loop of [loadProgram], on any text. It returns,
    leaves the store alone and writes one debug line per property line,
    in order. The number of passes is one more than the number of buffer
    shader lines. Every source line takes exactly one line of one pass,
    in order, after the initial marker: the passes laid end to end are
    the marker [#line 0] followed by the source lines, with each
    directive line replaced by the marker that carries its line number,
    counted from 0. The property map holds, for each name, the value of
    the last property line naming it; [inputCount] is 1 when no property
    line names it, and no other name is present. *)
Theorem parse_source_layout (text : string) (s : Store) :
  let lines := readLines text in
  exists passes props,
    parse_source text s =
      Some ((passes, props), s, map debug_of (property_lines lines)) /\
    length passes = S (buffershader_count lines) /\
    concat passes = "#line 0" :: imap as_pass_line lines /\
    length (concat passes) = S (length lines) /\
    (forall name,
       props !! name =
         match lookup_last name (property_lines lines) with
         | Some v => Some v
         | None => if decide (name = "inputCount") then Some "1" else None
         end).
Proof.
  cbv zeta. unfold parse_source.
  destruct (parse_lines_layout (readLines text) O [["#line 0"]] {["inputCount" := "1"]} s)
    as (passes & props & Hrun & Hlen & Hcat & Hprops); [discriminate|].
  exists passes, props. split; [exact Hrun|]. split; [exact Hlen|].
  split; [exact Hcat|]. split.
  - rewrite Hcat. cbn [concat app length]. rewrite length_imap. reflexivity.
  - intros name. rewrite Hprops.
    destruct (lookup_last name (property_lines (readLines text))); [reflexivity|].
    destruct (decide (name = "inputCount")) as [->|Hne].
    + apply lookup_singleton_eq.
    + apply lookup_singleton_ne. congruence.
Qed.

End LayoutFacts.

(** ** Loads from the node's side *)

Module LoadFacts.
Import Text Grammar Values Node EffectNodeImpl Loader Observe Layout Samples MoreSamples.
Import MonadFacts LoaderFacts GrammarFacts LayoutFacts.
Local Open Scope list_scope.

(** A load whose [loadProgram] returns true: the worker flushes and
    emits [initialized], and the slot connected to it sets ready. *)
Lemma load_succeeded (fs : gmap string FileEntry) (glc : GLCompiler) (s s1 : Store)
    (ev : list Event) :
  loadProgram fs glc (m_name (this s)) s = Some (true, s1, ev) ->
  load fs glc s =
    Some (tt, mkStore (with_ready true (this s1)) (heap s1) (gl_next s1),
          EvGL makeCurrent :: ev ++
          [EvGL glFlush; EvEmit initialized; EvAssign F_ready]).
Proof.
  intros Hrun. unfold load.
  assert (Hinit : initialize fs glc s =
            Some (tt, s1, EvGL makeCurrent :: ev ++ [EvGL glFlush; EvEmit initialized])).
  { unfold initialize, gl. mstep. mstep.
    rewrite (bind_run _ _ _ _ _ _ Hrun). reflexivity. }
  rewrite Hinit. cbn [existsb]. rewrite existsb_app. cbn [existsb is_initialized].
  rewrite !orb_true_r. cbn [onInitialized].
  unfold onInitialized. rewrite bind_get_this. unfold set_this.
  rewrite bind_get, bind_put. cbn [event].
  cbn [app]. rewrite <- app_assoc. reflexivity.
Qed.

Lemma join_marked (pass : list string) :
  marked pass -> exists n rest, join nl pass = line_marker n +:+ rest.
Proof.
  intros (n & rest & ->). exists n. destruct rest as [|x rest].
  - exists "". cbn [join]. symmetry. apply append_empty_r.
  - eexists. cbn [join]. reflexivity.
Qed.

(** The fragment source of a pass that begins with a marker begins with
    the header, a line break, and that marker. *)
Lemma program_of_marked_pass (h : string) (pass : list string) :
  marked pass ->
  exists n,
    String.prefix (h +:+ nl +:+ line_marker n)
                  (fragment_source (program_of_pass h pass)) = true.
Proof.
  intros Hm. destruct (join_marked pass Hm) as (n & rest & E). exists n.
  cbn [program_of_pass fragment_source]. rewrite E.
  replace (h +:+ nl +:+ line_marker n +:+ rest)
    with ((h +:+ nl +:+ line_marker n) +:+ rest)
    by (rewrite !append_assoc; reflexivity).
  apply prefix_append.
Qed.

(** A load of a node marked unready returns, and when it made the node
    ready it has read the effect file of the node's name. *)
Lemma load_returns (fs : gmap string FileEntry) (glc : GLCompiler) (s : Store) :
  m_ready (this s) = false ->
  exists s' ev,
    load fs glc s = Some (tt, s', ev) /\
    (m_ready (this s') = true ->
     is_Some (QFile_open fs (effect_path (m_name (this s))))).
Proof.
  intros Hready.
  destruct (loadProgram_cases fs glc (m_name (this s)) s Hready)
    as [(pre & msg & Hrun & Hdbg & _)
       |(h & text & passes & props & dbg & Hrun & _ & _ & Hf & _)].
  - rewrite (load_failed fs glc s pre msg Hrun Hdbg).
    eexists _, _. split; [reflexivity|]. congruence.
  - rewrite (load_succeeded fs glc s _ _ Hrun).
    eexists _, _. split; [reflexivity|]. eauto.
Qed.

(** X9. A load (the worker's [initialize] and the slot it triggers) of
    a node marked unready always returns, touches no render state and
    creates no texture. It begins by making the context current. Either
    it ends with ready still false, and then the store is the one before
    the load, and the context was not flushed; or it ends with ready
    true, and then the header and the effect file of the node's name were
    read, the node holds one program per pass, that is one more than the
    source has buffer shader lines, every program compiled and linked,
    every fragment source begins with the header, a line break and a line
    marker, the program list was assigned before [glFlush], [glFlush]
    came before the signal [initialized], ready was set last, and name,
    input count, intensity and chains are as before. *)
Theorem load_outcome (fs : gmap string FileEntry) (glc : GLCompiler) (s : Store) :
  m_ready (this s) = false ->
  exists s' ev,
    load fs glc s = Some (tt, s', ev) /\
    heap s' = heap s /\ gl_next s' = gl_next s /\
    head ev = Some (EvGL makeCurrent) /\
    (m_ready (this s') = false ->
       s' = s /\ gl_calls ev = [makeCurrent] /\ assigned ev = [] /\
       last ev = Some (EvDebug dbg_load_program_failed)) /\
    (m_ready (this s') = true ->
       exists h text dbg,
         QFile_open fs header_path = Some h /\
         QFile_open fs (effect_path (m_name (this s))) = Some text /\
         length (m_programs (this s')) = S (buffershader_count (readLines text)) /\
         forallb (compiled_and_linked glc) (m_programs (this s')) = true /\
         Forall (fun p => vertex_source p = vertexString /\
                          exists n, String.prefix (h +:+ nl +:+ line_marker n)
                                                  (fragment_source p) = true)
                (m_programs (this s')) /\
         forallb is_debug dbg = true /\
         ev = [EvGL makeCurrent] ++ dbg ++
              [EvLock; EvAssign F_programs; EvUnlock;
               EvGL glFlush; EvEmit initialized; EvAssign F_ready] /\
         this s' = with_ready true (with_programs (m_programs (this s')) (this s))).
Proof.
  intros Hready.
  destruct (loadProgram_cases fs glc (m_name (this s)) s Hready)
    as [(pre & msg & Hrun & Hdbg & _)
       |(h & text & passes & props & dbg & Hrun & Hh & Hex & Hf & Hparse & Hne & Hdbg & Hok)].
  - rewrite (load_failed fs glc s pre msg Hrun Hdbg).
    eexists _, _. split; [reflexivity|]. split; [reflexivity|]. split; [reflexivity|].
    split; [reflexivity|]. split; [|congruence].
    intros _. destruct (debug_only pre Hdbg) as (Hs & Ha & Hg).
    split; [reflexivity|]. split; [|split].
    + rewrite GLFacts.gl_calls_cons_gl, !GLFacts.gl_calls_app, Hg. reflexivity.
    + unfold assigned. cbn [omap list_omap]. rewrite !omap_app.
      fold (assigned pre). rewrite Ha. reflexivity.
    + rewrite app_comm_cons. apply last_snoc.
  - rewrite (load_succeeded fs glc s _ _ Hrun).
    eexists _, _. split; [reflexivity|]. split; [reflexivity|]. split; [reflexivity|].
    split; [reflexivity|]. split; [discriminate|]. intros _.
    exists h, text, dbg. split; [exact Hh|]. split; [exact Hf|].
    cbn [this with_ready with_programs m_programs].
    pose proof (parse_source_count text s _ _ _ Hparse) as Hlen.
    destruct (parse_source_total text s) as (p0 & props0 & ev0 & Hrun0 & _ & Hmarked & _).
    rewrite Hparse in Hrun0. injection Hrun0 as <- <- <-.
    split; [rewrite length_map; exact Hlen|]. split; [|split; [|split; [exact Hdbg|split]]].
    + rewrite forallb_forall in Hok. apply forallb_forall. intros p Hp.
      apply in_map_iff in Hp as (pass & <- & Hpass). apply Hok, Hpass.
    + apply Forall_forall. intros p Hp. apply list_elem_of_fmap in Hp as (pass & -> & Hpass).
      split; [reflexivity|]. apply program_of_marked_pass.
      rewrite Forall_forall in Hmarked. apply Hmarked, Hpass.
    + cbn [app]. rewrite <- app_assoc. reflexivity.
    + destruct s as [[] ? ?]. reflexivity.
Qed.

Lemma load_outcome_witness :
  exists s' ev,
    load sample_files compiler_ok s_composite = Some (tt, s', ev) /\
    heap s' = heap s_composite /\ gl_next s' = gl_next s_composite /\
    head ev = Some (EvGL makeCurrent).
Proof.
  destruct (load_outcome sample_files compiler_ok s_composite eq_refl)
    as (s' & ev & Hrun & Hh & Hg & Hhd & _).
  exists s', ev. auto.
Defined.

(** X10. [reload], and [setName] with another name, make any node
    loadable: the load that follows always returns, whether the node was
    ready or not, and it reads the effect file of the name the node then
    has. A load of a node that is ready stops at the assertion of
    [loadProgram]: a second [initialize] without a [reload] or a
    [setName] in between does not return once the first one made the node
    ready. *)
Theorem reload_then_load (fs : gmap string FileEntry) (glc : GLCompiler) (s : Store)
    (n : string) :
  (exists s1 s2 ev,
     reload s = Some (tt, s1, [EvAssign F_ready; EvInvoke "initialize"]) /\
     m_name (this s1) = m_name (this s) /\
     load fs glc s1 = Some (tt, s2, ev) /\
     (m_ready (this s2) = true -> load fs glc s2 = None)) /\
  (n <> m_name (this s) ->
   exists s1 ev1 s2 ev,
     setName n s = Some (tt, s1, ev1) /\
     m_name (this s1) = n /\
     load fs glc s1 = Some (tt, s2, ev) /\
     (m_ready (this s2) = true ->
        is_Some (QFile_open fs (effect_path n)) /\ load fs glc s2 = None)) /\
  (m_ready (this s) = true -> load fs glc s = None).
Proof.
  assert (Hassert : forall s0, m_ready (this s0) = true -> load fs glc s0 = None).
  { intros s0 H0. unfold load, initialize, loadProgram, gl.
    rewrite bind_event, bind_get_this, bind_assoc, bind_get_this, H0. reflexivity. }
  split; [|split; [|apply Hassert]].
  - set (s1 := mkStore (with_ready false (this s)) (heap s) (gl_next s)).
    destruct (load_returns fs glc s1 eq_refl) as (s2 & ev & Hrun & _).
    exists s1, s2, ev. split; [destruct s; reflexivity|].
    split; [reflexivity|]. split; [exact Hrun|]. apply Hassert.
  - intros Hn.
    set (s1 := mkStore (with_name n (with_ready false (this s))) (heap s) (gl_next s)).
    destruct (load_returns fs glc s1 eq_refl) as (s2 & ev & Hrun & Hok).
    eexists s1, _, s2, ev. split.
    { unfold setName. rewrite bind_get_this.
      destruct (String.eqb_spec n (m_name (this s))) as [E|_]; [contradiction|].
      destruct s. reflexivity. }
    split; [reflexivity|]. split; [exact Hrun|].
    intros H2. split; [|apply Hassert, H2]. exact (Hok H2).
Qed.

Lemma reload_then_load_witness :
  exists s1 ev1 s2 ev,
    setName "composite" s_named = Some (tt, s1, ev1) /\
    m_name (this s1) = "composite" /\
    load sample_files compiler_ok s1 = Some (tt, s2, ev) /\
    (m_ready (this s2) = true ->
       is_Some (QFile_open sample_files (effect_path "composite")) /\
       load sample_files compiler_ok s2 = None).
Proof.
  apply (reload_then_load sample_files compiler_ok s_named "composite"). discriminate.
Defined.

End LoadFacts.

(** ** What a paint binds and what it leaves bound *)

Module DrawFacts.
Import Values Node EffectNodeImpl Observe Pipeline Samples MoreSamples.
Import MonadFacts PaintFacts GLFacts.
Local Open Scope list_scope.

(** After the loop over the inputs from [lo], the unit of every input it
    went through holds that input's texture, and no other unit has
    changed. *)
Lemma input_units (inputTextures : list GLuint) :
  forall count lo ein g,
    for_up_events (input_events inputTextures) lo count = Some ein ->
    (forall k, lo <= k < lo + Z.of_nat count ->
       exists t, at_ inputTextures k = Some t /\
                 gl_units (gl_run g (gl_calls ein)) !! k = Some t) /\
    (forall u, u < lo \/ lo + Z.of_nat count <= u ->
       gl_units (gl_run g (gl_calls ein)) !! u = gl_units g !! u).
Proof.
  induction count as [|c IH]; intros lo ein g.
  - intros [= <-]. split; [intros k Hk; lia|reflexivity].
  - cbn [for_up_events]. unfold input_events at 1.
    destruct (at_ inputTextures lo) as [t|] eqn:Ht; [|discriminate].
    destruct (for_up_events _ (lo + 1) c) as [es|] eqn:Hes; [|discriminate].
    intros [= <-]. cbn [app]. rewrite !gl_calls_cons_gl.
    cbn [gl_run fold_left gl_exec gl_active gl_units gl_program gl_framebuffer].
    match goal with |- context [fold_left gl_exec (gl_calls es) ?g1] =>
      fold (gl_run g1 (gl_calls es)); destruct (IH (lo + 1) es g1 Hes) as [Hset Hkeep] end.
    split.
    + intros k Hk. destruct (Z.eq_dec k lo) as [->|Hne].
      * exists t. split; [exact Ht|]. rewrite Hkeep by lia.
        cbn [gl_units]. apply lookup_insert_eq.
      * apply Hset. lia.
    + intros u Hu. rewrite Hkeep by lia. cbn [gl_units].
      apply lookup_insert_ne. lia.
Qed.

Lemma binds_only_keeps (a : list GLCall) :
  forallb binds_only a = true ->
  forall g, gl_uniforms (gl_run g a) = gl_uniforms g.
Proof.
  induction a as [|c a IH]; intros H g; [reflexivity|].
  cbn [forallb] in H. apply andb_true_iff in H as [Hc Ha].
  cbn [gl_run fold_left]. fold (gl_run (gl_exec g c) a).
  rewrite (IH Ha (gl_exec g c)).
  destruct c; try discriminate; reflexivity.
Qed.

Lemma binds_only_texture_only (a : list GLCall) :
  forallb binds_only a = true -> forallb texture_only a = true.
Proof.
  induction a as [|c a IH]; [reflexivity|].
  cbn [forallb]. intros H. apply andb_true_iff in H as [Hc Ha].
  rewrite (IH Ha). destruct c; try discriminate; reflexivity.
Qed.

Lemma for_up_events_binds_only (f : Z -> option (list Event)) :
  (forall k e, f k = Some e -> forallb binds_only (gl_calls e) = true) ->
  forall count lo es,
    for_up_events f lo count = Some es -> forallb binds_only (gl_calls es) = true.
Proof.
  intros Hf. induction count as [|c IH]; intros lo es.
  - intros [= <-]. reflexivity.
  - cbn [for_up_events]. destruct (f lo) as [e|] eqn:He; [|discriminate].
    destruct (for_up_events f (lo + 1) c) as [es'|] eqn:Hes; [|discriminate].
    intros [= <-]. rewrite gl_calls_app, forallb_app.
    rewrite (Hf _ _ He), (IH _ _ Hes). reflexivity.
Qed.

Lemma input_events_binds_only inputTextures k e :
  input_events inputTextures k = Some e -> forallb binds_only (gl_calls e) = true.
Proof.
  unfold input_events. destruct (at_ inputTextures k); [|discriminate].
  intros [= <-]. reflexivity.
Qed.

Lemma channel_events_binds_only ic ring ti P j k e :
  channel_events ic ring ti P j k = Some e -> forallb binds_only (gl_calls e) = true.
Proof.
  unfold channel_events. destruct (at_ ring _); [|discriminate].
  intros [= <-]. reflexivity.
Qed.

(** The uniforms after the ten [setUniformValue] calls of a pass. *)
Lemma uniforms_set (n : EffectNode) amb chain p (g : GLState) :
  let d := gl_run g (gl_calls (uniform_events n amb chain p)) in
  gl_units d = gl_units g /\ gl_program d = gl_program g /\
  gl_framebuffer d = gl_framebuffer g /\ gl_active d = gl_active g /\
  gl_uniforms d =
    <["iChannel" := UUintArray (iota (length (m_programs n)) (1 + m_inputCount n))]>
    (<["iResolution" := UVec2 (GLfloat_of_int (width (chain_size chain)))
                              (GLfloat_of_int (height (chain_size chain)))]>
    (<["iNoise" := UInt (m_inputCount n)]>
    (<["iInputs" := UUintArray (iota (Z.to_nat (m_inputCount n)) 0)]>
    (<["iAudio" := UVec4 (GLfloat_of_qreal (audioLow amb)) (GLfloat_of_qreal (audioMid amb))
                         (GLfloat_of_qreal (audioHi amb))
                         (GLfloat_of_qreal (audioLevel amb))]>
    (<["iFPS" := UFloat (GLfloat_of_qreal (FPS amb))]>
    (<["iTime" := UFloat (GLfloat_of_qreal (beat amb))]>
    (<["iStep" := UFloat (GLfloat_of_qreal (q_sub (m_realTime n) (m_realTimeLast n)))]>
    (<["iIntensityIntegral" := UFloat (GLfloat_of_qreal (m_intensityIntegral n))]>
    (<["iIntensity" := UFloat (GLfloat_of_qreal (m_intensity n))]>
       (gl_uniforms g)))))))))).
Proof. repeat split. Qed.

Ltac uniform_lookup :=
  repeat (rewrite lookup_insert_ne by discriminate); apply lookup_insert_eq.

(** The draw of one pass finds the inputs, the noise texture and the
    uniforms. *)
Lemma pass_draw_inputs (n : EffectNode) amb chain inputTextures ring ti j e :
  pass_events n amb chain inputTextures ring ti j = Some e ->
  forall g, exists d,
    gl_draws g (gl_calls e) = [d] /\
    draw_inputs n amb chain inputTextures d /\
    gl_reset (gl_run g (gl_calls e)).
Proof.
  unfold pass_events. cbv zeta.
  set (P := Z.of_nat (length (m_programs n))).
  destruct (at_ (m_programs n) j) as [p|] eqn:Hp; [|discriminate].
  destruct (at_ ring (fboIndex ti P j)) as [fbo|] eqn:Hfbo; [|discriminate].
  destruct (for_up_events (input_events inputTextures) 0 _) as [ein|] eqn:Hin;
    [|discriminate].
  destruct (for_up_events (channel_events _ _ _ _ _) 0 _) as [ech|] eqn:Hch;
    [|discriminate].
  intros [= <-] g.
  assert (Bin : forallb binds_only (gl_calls ein) = true).
  { eapply for_up_events_binds_only; [|exact Hin].
    intros k e. apply input_events_binds_only. }
  assert (Bch : forallb binds_only (gl_calls ech) = true).
  { eapply for_up_events_binds_only; [|exact Hch].
    intros k e. apply channel_events_binds_only. }
  pose proof (binds_only_texture_only _ Bin) as Tin.
  pose proof (binds_only_texture_only _ Bch) as Tch.
  set (g0 := gl_exec (gl_exec g (program_bind p)) (fbo_bind fbo)).
  set (g1 := gl_run g0 (gl_calls ein)).
  set (g2 := gl_run g1 [glActiveTexture (m_inputCount n); glBindTexture (noiseTexture chain)]).
  set (d0 := gl_run g2 (gl_calls ech)).
  set (d := gl_run d0 (gl_calls (uniform_events n amb chain p))).
  exists d. split; [|split].
  - cbn [app]. rewrite !gl_calls_cons_gl. cbn [gl_draws].
    fold g0. rewrite gl_calls_app, gl_draws_app.
    rewrite (gl_draws_none _ (texture_only_no_draw _ Tin)). cbn [app]. fold g1.
    rewrite !gl_calls_cons_gl. cbn [gl_draws].
    change (gl_exec (gl_exec g1 (glActiveTexture (m_inputCount n)))
              (glBindTexture (noiseTexture chain))) with g2.
    rewrite gl_calls_app, gl_draws_app.
    rewrite (gl_draws_none _ (texture_only_no_draw _ Tch)). cbn [app]. fold d0.
    reflexivity.
  - destruct (uniforms_set n amb chain p d0) as (Hdu & _ & _ & _ & Hun). fold d in Hdu, Hun.
    destruct (channel_units (m_inputCount n) ring ti P j _ _ _ g2 Hch) as [_ Hkeep].
    fold d0 in Hkeep.
    destruct (input_units inputTextures _ _ _ g0 Hin) as [Hset _]. fold g1 in Hset.
    assert (Hg2 : gl_units g2 = <[m_inputCount n := noiseTexture chain]> (gl_units g1))
      by reflexivity.
    unfold draw_inputs. rewrite Hdu, Hun. split; [|split].
    + intros k Hk. destruct (Hset k) as (t & Ht & Hu); [lia|].
      exists t. split; [exact Ht|]. rewrite Hkeep by lia. rewrite Hg2.
      rewrite lookup_insert_ne by lia. exact Hu.
    + rewrite Hkeep by lia. rewrite Hg2. apply lookup_insert_eq.
    + repeat split; uniform_lookup.
  - rewrite !gl_calls_cons_gl, gl_calls_app, !gl_calls_cons_gl, gl_calls_app.
    unfold gl_run. cbn [fold_left]. rewrite fold_left_app. cbn [fold_left].
    rewrite fold_left_app. split; [|split]; reflexivity.
Qed.

(** The draws of the loop over the passes, and the context after it. *)
Lemma passes_draw_inputs (n : EffectNode) amb chain inputTextures ring ti :
  forall count evp g,
    for_down_events (pass_events n amb chain inputTextures ring ti) count = Some evp ->
    Forall (draw_inputs n amb chain inputTextures) (gl_draws g (gl_calls evp)) /\
    ((0 < count)%nat -> gl_reset (gl_run g (gl_calls evp))).
Proof.
  induction count as [|c IH]; intros evp g.
  - intros [= <-]. split; [constructor|lia].
  - cbn [for_down_events].
    destruct (pass_events n amb chain inputTextures ring ti (Z.of_nat c)) as [e|] eqn:He;
      [|discriminate].
    destruct (for_down_events _ c) as [es|] eqn:Hes; [|discriminate].
    intros [= <-]. rewrite gl_calls_app, gl_draws_app, gl_run_app.
    destruct (pass_draw_inputs _ _ _ _ _ _ _ _ He g) as (d & Hd & Hok & Hreset).
    destruct (IH es (gl_run g (gl_calls e)) eq_refl) as [Hall Hend].
    rewrite Hd. split.
    + apply Forall_app. split; [apply Forall_singleton; exact Hok|exact Hall].
    + intros _. destruct c as [|c'].
      * cbn in Hes. injection Hes as <-. exact Hreset.
      * apply Hend. lia.
Qed.

Lemma gl_run_alloc (l : nat) (fbos : list QOpenGLFramebufferObject) (g : GLState) :
  gl_run g (gl_calls (alloc_events l fbos)) = g.
Proof. induction fbos as [|f fbos IH]; [reflexivity|exact IH]. Qed.



(** X12. A [paint] that returns, of a node with at least one program,
    leaves the context with no program and no framebuffer bound and with
    texture unit 0 active, whatever was bound or active before. *)
Theorem paint_resets_context amb chain inputTextures (s : Store) l rs t s' ev :
  m_ready (this s) = true ->
  m_renderStates (this s) !! chain_ptr chain = Some l ->
  heap s !! l = Some rs ->
  m_programs (this s) <> [] ->
  paint amb chain inputTextures s = Some (t, s', ev) ->
  forall g, gl_reset (gl_run g (gl_calls ev)).
Proof.
  intros Hready Hc Hl Hne Hrun g. destruct rs as [ring0 ti].
  destruct (RingFacts.paint_success _ _ _ _ _ _ _ _ _ _ Hready Hc Hl Hrun)
    as (evp & out & Hevp & Hout & -> & -> & ->).
  rewrite !gl_calls_app, !gl_run_app, gl_run_alloc.
  change (gl_calls [EvAssign (F_state l)]) with (@nil GLCall).
  cbn [gl_run fold_left].
  match goal with |- gl_reset (gl_run ?g1 (gl_calls evp)) =>
    apply (proj2 (passes_draw_inputs _ _ _ _ _ _ _ _ g1 Hevp)) end.
  cbn [m_programs with_realTime with_realTimeLast].
  destruct (m_programs (this s)); [contradiction|cbn; lia].
Qed.

Lemma paint_resets_context_witness :
  match paint sample_ambient sample_chain [55] s_two_chains with
  | Some (t, s', ev) =>
      gl_reset (gl_run (mkGL (Some (mkProgram "a" "b")) None 5 ∅ ∅) (gl_calls ev))
  | None => False
  end.
Proof.
  destruct (paint sample_ambient sample_chain [55] s_two_chains)
    as [[[t s'] ev]|] eqn:E; [|vm_compute in E; discriminate].
  apply (paint_resets_context sample_ambient sample_chain [55]
           s_two_chains 0%nat EffectNodeRenderState_new t s' ev
           eq_refl eq_refl eq_refl); [discriminate|exact E].
Defined.

End DrawFacts.

(** ** Edges: a value that is no number, a chain attached while rendering *)

Module EdgeFacts.
Import Values Node EffectNodeImpl Observe Pipeline Samples MoreSamples.
Import MonadFacts IntensityFacts StateFacts ChainFacts CopyFacts.
Local Open Scope list_scope.

Lemma q_eq_nan_r (v x : qreal) : q_is_nan x = true -> q_eq v x = false.
Proof.
  destruct x; try discriminate. intros _. unfold q_eq, SFeqb. destruct v; reflexivity.
Qed.

Lemma clamped_nan (x : qreal) : q_is_nan x = true -> clamped x = x.
Proof. destruct x; try discriminate. reflexivity. Qed.

(** X13. [setIntensity] with a value that is not a number: the value
    passes both comparisons of the clamp and differs from every stored
    value, itself included. So it is stored, and [intensityChanged] is
    emitted, on every such call, also when the intensity already is not
    a number; [intensity()] then returns it. A later call with a number
    stores that number, clamped. *)
Theorem setIntensity_not_a_number (s : Store) (x : qreal) :
  q_is_nan x = true ->
  let s1 := mkStore (with_intensity x (this s)) (heap s) (gl_next s) in
  let ev := [EvLock; EvAssign F_intensity; EvUnlock; EvEmit (intensityChanged x)] in
  setIntensity x s = Some (tt, s1, ev) /\
  setIntensity x s1 = Some (tt, s1, ev) /\
  intensity s1 = Some (x, s1, []) /\
  forall y, q_is_nan y = false ->
    setIntensity y s1 =
      Some (tt, mkStore (with_intensity (clamped y) (this s)) (heap s) (gl_next s),
            [EvLock; EvAssign F_intensity; EvUnlock; EvEmit (intensityChanged (clamped y))]).
Proof.
  intros Hx. cbv zeta. split; [|split; [|split]].
  - rewrite setIntensity_run, (clamped_nan x Hx), (q_eq_nan_r _ x Hx). reflexivity.
  - rewrite setIntensity_run, (clamped_nan x Hx), (q_eq_nan_r _ x Hx). reflexivity.
  - reflexivity.
  - intros y Hy. rewrite setIntensity_run. cbn [this with_intensity m_intensity].
    rewrite q_eq_sym, (q_eq_nan_r _ x Hx). reflexivity.
Qed.

Lemma setIntensity_not_a_number_witness :
  setIntensity S754_nan s_fresh =
    Some (tt, mkStore (with_intensity S754_nan (this s_fresh)) (heap s_fresh) (gl_next s_fresh),
          [EvLock; EvAssign F_intensity; EvUnlock; EvEmit (intensityChanged S754_nan)]).
Proof.
  exact (proj1 (setIntensity_not_a_number s_fresh S754_nan eq_refl)).
Defined.

(** X14. A chain that is attached to the node after the copy for
    rendering was made: the copy has no render state for it, so a [paint]
    of the copy for this chain returns the null texture, and
    [copyBackRenderState] for this chain finds the chain in the node,
    takes the copy's null pointer and stops at its dereference. *)
Theorem chain_attached_while_rendering (name : string) (realTime realTimeLast : qreal)
    amb (c : Chain) (inputTextures : list GLuint) (s : Store) :
  states_separate s (this s) ->
  m_renderStates (this s) !! chain_ptr c = None ->
  exists v s1 s2 ev d,
    createCopyForRendering name realTime realTimeLast s =
      Some (v, s1, [EvLock; EvUnlock]) /\
    chainsEdited [c] [] s1 = Some (tt, s2, ev) /\
    is_Some (m_renderStates (this s2) !! chain_ptr c) /\
    paint amb c inputTextures (on v s2) = Some (0, on v s2, [EvDebug d]) /\
    copyBackRenderState c v s2 = None.
Proof.
  intros Hsep Hc.
  destruct (createCopyForRendering_run name realTime realTimeLast s Hsep)
    as (v & s1 & Hrun & Ht & Hg & Hh & Hf & Hin & Hnone & Hvinj).
  assert (Hsep1 : states_separate s1 (this s1)).
  { destruct Hsep as [Hinj Halloc]. rewrite Ht. split; [exact Hinj|].
    intros p l Hp. destruct (Halloc p l Hp) as [r Hr]. exists r.
    eapply lookup_weaken; eauto. }
  destruct (add_all_run [c] s1 Hsep1) as (s2 & Hr2 & Hsep2 & Hf2 & _ & _ & Hin2 & _).
  assert (Hst : render_state s2 (this s2) (chain_ptr c) = Some EffectNodeRenderState_new).
  { apply Hin2. cbn. apply list_elem_of_singleton. reflexivity. }
  unfold render_state in Hst.
  destruct (m_renderStates (this s2) !! chain_ptr c) as [l|] eqn:Hl; [|discriminate].
  assert (Hvc : m_renderStates v !! chain_ptr c = None) by (apply Hnone, Hc).
  exists v, s1, s2. eexists.
  destruct (m_ready v) eqn:Hready.
  - exists (dbg_does_not_have_chain (chain_ptr c)).
    split; [exact Hrun|]. split; [|split; [eauto|split]].
    + rewrite chainsEdited_unfold, bind_event. fold (add_all [c]).
      rewrite (bind_run _ _ _ _ _ _ Hr2). reflexivity.
    + apply GuardFacts.paint_no_chain; [exact Hready|exact Hvc].
    + apply (copyBackRenderState_null c v s2 l Hl Hvc).
  - exists dbg_is_not_ready.
    split; [exact Hrun|]. split; [|split; [eauto|split]].
    + rewrite chainsEdited_unfold, bind_event. fold (add_all [c]).
      rewrite (bind_run _ _ _ _ _ _ Hr2). reflexivity.
    + apply GuardFacts.paint_not_ready. exact Hready.
    + apply (copyBackRenderState_null c v s2 l Hl Hvc).
Qed.

Lemma chain_attached_while_rendering_witness :
  exists v s1 s2 ev d,
    createCopyForRendering "" q_zero q_zero s_two_chains =
      Some (v, s1, [EvLock; EvUnlock]) /\
    chainsEdited [chain_nine] [] s1 = Some (tt, s2, ev) /\
    is_Some (m_renderStates (this s2) !! 9%nat) /\
    paint sample_ambient chain_nine [55] (on v s2) = Some (0, on v s2, [EvDebug d]) /\
    copyBackRenderState chain_nine v s2 = None.
Proof.
  apply (chain_attached_while_rendering "" q_zero q_zero sample_ambient chain_nine [55]
           s_two_chains s_two_chains_separate).
  reflexivity.
Defined.

End EdgeFacts.

(** ** Assigning an id to a shader_ref *)

Module ShaderRefFacts.
Import ShaderRef.
Local Open Scope list_scope.

Lemma value_lookup (w : World) (x : string) (a : nat) :
  vars w !! x = Some a -> value w x = impls w !! a.
Proof.
  intros H. unfold value, id. rewrite H. destruct (impls w !! a); reflexivity.
Qed.

Lemma value_none (w : World) (x : string) : vars w !! x = None -> value w x = None.
Proof. intros H. unfold value, id. rewrite H. reflexivity. Qed.

Lemma fresh_impl (w : World) : impls w !! fresh (dom (impls w)) = None.
Proof. apply not_elem_of_dom, is_fresh. Qed.

Lemma fresh_ne_live (w : World) (b : nat) :
  is_Some (impls w !! b) -> fresh (dom (impls w)) <> b.
Proof. intros [m Hm] E. rewrite <- E, fresh_impl in Hm. discriminate. Qed.

(** X15. [x = _id] on a [shader_ref] (the assignment from a [GLuint]).
    Afterwards [x.id()] is [_id] in every case. When the object of [x]
    held the id 0, the id is written into that object: no object is
    created or destroyed, and every variable that shares the object
    shows the new id as well. When the object held another id, [x] gets
    an object of its own with the new id: every other variable keeps its
    object and its id, and the old object is destroyed, with one
    [glDeleteShader] of the old id, exactly when no other variable shared
    it. *)
Theorem assign_effect (w : World) (x : string) (a : nat) (old _id : Z) :
  well_formed w ->
  vars w !! x = Some a ->
  impls w !! a = Some old ->
  exists w' ev,
    assign x _id w = Some (tt, w', ev) /\
    value w' x = Some _id /\
    well_formed w' /\
    (old = 0 ->
       ev = [] /\ vars w' = vars w /\ dom (impls w') = dom (impls w) /\
       (forall y, vars w !! y = Some a -> value w' y = Some _id) /\
       (forall y b, vars w !! y = Some b -> b <> a -> value w' y = value w y)) /\
    (old <> 0 ->
       (forall y, y <> x -> vars w' !! y = vars w !! y /\ value w' y = value w y) /\
       vars w' !! x <> Some a /\
       (shared w x -> ev = [] /\ impls w' !! a = Some old) /\
       (~ shared w x -> ev = [glDeleteShader old] /\ impls w' !! a = None)).
Proof.
  intros Hwf Hx Ha. unfold assign. rewrite Hx. cbv beta iota. rewrite Ha. cbv beta iota.
  destruct (Z.eqb_spec old 0) as [->|Hold]; cbn [negb].
  - (* the id is written into the shared object *)
    unfold impl_assign. rewrite Ha. cbn [Z.eqb].
    eexists _, _. split; [reflexivity|].
    split; [|split; [|split; [|intros; contradiction]]].
    + rewrite (value_lookup _ x a) by exact Hx. cbn. apply lookup_insert_eq.
    + intros y b Hy. cbn in *. destruct (Hwf y b Hy) as [m Hm].
      rewrite lookup_insert. case_decide; eauto.
    + intros _. split; [reflexivity|]. split; [reflexivity|]. split; [|split].
      * cbn. apply set_eq. intros k. rewrite dom_insert, elem_of_union, elem_of_singleton.
        split; [intros [->|H]; [apply elem_of_dom; eauto|exact H]|auto].
      * intros y Hy. rewrite (value_lookup _ y a) by exact Hy. cbn. apply lookup_insert_eq.
      * intros y b Hy Hb. rewrite (value_lookup _ y b), (value_lookup w y b) by exact Hy.
        cbn. apply lookup_insert_ne. congruence.
  - (* a new object for x *)
    unfold create_from, impl_new, impl_assign. cbn [impls vars].
    rewrite lookup_insert_eq. cbn [Z.eqb]. unfold set_m_d. cbn [vars impls]. rewrite Hx.
    pose proof (fresh_impl w) as Hfresh. pose proof (fresh_ne_live w) as Hlive.
   
    revert Hfresh Hlive. generalize (fresh (dom (impls w))). intros a' Hfresh Hlive.
    assert (Hne : a' <> a) by (apply Hlive; eauto).
    rewrite insert_insert_eq.
    assert (Hshared : map_Exists (fun _ v => v = a) (<[x := a']> (vars w)) <-> shared w x).
    { split.
      - intros (y & b & Hy & Hb). cbn in Hb. subst b.
        rewrite lookup_insert in Hy. case_decide as E.
        + congruence.
        + exists y, a. split; [congruence|]. split; [exact Hx|exact Hy].
      - intros (y & b & Hyx & Hxb & Hyb). rewrite Hx in Hxb. injection Hxb as <-.
        exists y, a. split; [|reflexivity]. rewrite lookup_insert_ne by congruence. exact Hyb. }
    unfold release. cbn [vars impls]. case_bool_decide as Hdec.
    + (* the old object is still shared *)
      eexists _, _. split; [reflexivity|].
      split; [|split; [|split; [intros; contradiction|]]].
      * rewrite (value_lookup _ x a') by apply lookup_insert_eq. cbn. apply lookup_insert_eq.
      * intros y b. cbn. rewrite lookup_insert. case_decide.
        -- intros [= <-]. rewrite lookup_insert_eq. eauto.
        -- intros Hy. destruct (Hwf y b Hy) as [m Hm]. exists m.
           rewrite lookup_insert_ne; [exact Hm|apply Hlive; eauto].
      * intros _. split; [|split; [|split]].
        -- intros y Hy. cbn. rewrite lookup_insert_ne by congruence. split; [reflexivity|].
           destruct (vars w !! y) as [b|] eqn:Hyb.
           ++ rewrite (value_lookup w y b Hyb).
              rewrite (value_lookup _ y b)
                by (cbn; rewrite lookup_insert_ne by congruence; exact Hyb).
              cbn. rewrite lookup_insert_ne by (apply Hlive; eauto). reflexivity.
           ++ rewrite (value_none w y Hyb). apply value_none.
              cbn. rewrite lookup_insert_ne by congruence. exact Hyb.
        -- cbn. rewrite lookup_insert_eq. intros [= E]. exact (Hne E).
        -- intros _. split; [reflexivity|]. cbn.
           rewrite lookup_insert_ne by congruence. exact Ha.
        -- intros Hn. exfalso. apply Hn, Hshared, Hdec.
    + (* x was the only owner *)
      rewrite lookup_insert_ne by congruence. rewrite Ha.
      eexists _, _. split; [reflexivity|].
      split; [|split; [|split; [intros; contradiction|]]].
      * rewrite (value_lookup _ x a') by apply lookup_insert_eq. cbn.
        rewrite lookup_delete_ne by congruence. apply lookup_insert_eq.
      * intros y b. cbn. rewrite lookup_insert. case_decide.
        -- intros [= <-]. rewrite lookup_delete_ne by congruence.
           rewrite lookup_insert_eq. eauto.
        -- intros Hy. destruct (Hwf y b Hy) as [m Hm]. exists m.
           assert (b <> a).
           { intros ->. apply Hdec. exists y, a. split; [|reflexivity].
             rewrite lookup_insert_ne by congruence. exact Hy. }
           rewrite lookup_delete_ne by congruence.
           rewrite lookup_insert_ne; [exact Hm|apply Hlive; eauto].
      * intros _. split; [|split; [|split]].
        -- intros y Hy. cbn. rewrite lookup_insert_ne by congruence. split; [reflexivity|].
           destruct (vars w !! y) as [b|] eqn:Hyb.
           ++ assert (b <> a).
              { intros ->. apply Hdec. exists y, a. split; [|reflexivity].
                rewrite lookup_insert_ne by congruence. exact Hyb. }
              rewrite (value_lookup w y b Hyb).
              rewrite (value_lookup _ y b)
                by (cbn; rewrite lookup_insert_ne by congruence; exact Hyb).
              cbn. rewrite lookup_delete_ne by congruence.
              rewrite lookup_insert_ne by (apply Hlive; eauto). reflexivity.
           ++ rewrite (value_none w y Hyb). apply value_none.
              cbn. rewrite lookup_insert_ne by congruence. exact Hyb.
        -- cbn. rewrite lookup_insert_eq. intros [= E]. exact (Hne E).
        -- intros Hs. exfalso. apply Hdec, Hshared, Hs.
        -- intros _. split; [reflexivity|]. cbn. apply lookup_delete_eq.
Qed.

Lemma assign_effect_witness :
  exists w' ev,
    assign "a" 5 MoreSamples.w_shared = Some (tt, w', ev) /\
    value w' "a" = Some 5 /\ value w' "b" = Some 5.
Proof.
  assert (Hwf : well_formed MoreSamples.w_shared).
  { intros x a Hx. cbn in Hx.
    destruct (decide (x = "a")); destruct (decide (x = "b"));
      simplify_map_eq; eexists; reflexivity. }
  destruct (assign_effect MoreSamples.w_shared "a" 0%nat 0 5 Hwf eq_refl eq_refl)
    as (w' & ev & Hrun & Hv & _ & H0 & _).
  destruct (H0 eq_refl) as (_ & _ & _ & Hsh & _).
  exists w', ev. split; [exact Hrun|]. split; [exact Hv|]. apply Hsh. reflexivity.
Defined.

End ShaderRefFacts.

(** ** The drag state of Flickable *)

Module FlickableFacts.
Import FlickableImpl.
Local Open Scope list_scope.

Lemma consistent_with_offsets (x y : number) (f : Flickable) :
  consistent f -> consistent (with_offsets x y f).
Proof. intros H. exact H. Qed.

Lemma applyTransformation_fst (lay : Layout) (f : Flickable) :
  exists x y, fst (applyTransformation lay f) = with_offsets x y f.
Proof. unfold applyTransformation. cbv zeta. eexists _, _. reflexivity. Qed.

Lemma drag_fst (lay : Layout) (x y : number) (f : Flickable) :
  exists x' y', fst (drag lay x y f) = with_offsets x' y' f.
Proof.
  unfold drag. cbv zeta.
  destruct (applyTransformation_fst lay
              (with_offsets
                 (js_sub (js_add (to_number (startDragOffsetX f)) x)
                         (to_number (startDragX f)))
                 (js_sub (js_add (to_number (startDragOffsetY f)) y)
                         (to_number (startDragY f))) f)) as (x' & y' & E).
  exists x', y'. rewrite E. reflexivity.
Qed.

Lemma consistent_startDrag_mouse (x y : number) (f : Flickable) :
  consistent f -> dragging f = false ->
  consistent (startDrag x y (set_mouseDrag true f)).
Proof.
  intros (Hd & Hx & _ & Ht) Hf. rewrite Hf in Hd. symmetry in Hd.
  apply orb_false_iff in Hd as [_ Htd].
  unfold consistent. cbn. rewrite Htd. repeat split; eauto; try (intros; discriminate).
Qed.

Lemma consistent_startDrag_touch (x y : number) (i : Z) (f : Flickable) :
  consistent f -> dragging f = false ->
  consistent (startDrag x y (set_touchId i (set_touchDrag true f))).
Proof.
  intros (Hd & Hx & _ & Ht) Hf. rewrite Hf in Hd. symmetry in Hd.
  apply orb_false_iff in Hd as [Hmd _].
  unfold consistent. cbn. rewrite Hmd. repeat split; eauto; try (intros; discriminate).
Qed.

Lemma consistent_end_mouse (f : Flickable) :
  consistent f -> mouseDrag f = true -> consistent (endDrag (set_mouseDrag false f)).
Proof.
  intros (Hd & Hx & _ & Ht) Hm. rewrite Hm in Hx. cbn in Hx.
  unfold consistent. cbn. rewrite Hx. repeat split; eauto; try (intros; discriminate).
Qed.

Lemma consistent_end_touch (f : Flickable) :
  consistent f -> touchDrag f = true -> consistent (endDrag (set_touchDrag false f)).
Proof.
  intros (Hd & Hx & _ & Ht) Hm. rewrite Hm, andb_true_r in Hx.
  unfold consistent. cbn. rewrite Hx. repeat split; eauto; try (intros; discriminate).
Qed.

Lemma touchStart_consistent (touches : list Touch) :
  forall f, consistent f -> consistent (fst (touchStart touches f)).
Proof.
  induction touches as [|t rest IH]; intros f Hf; [exact Hf|].
  cbn [touchStart]. destruct (on_surface t); cbn [negb]; [|apply IH, Hf].
  destruct (dragging f) eqn:Hd; cbn [negb]; [apply IH, Hf|].
  specialize (IH _ (consistent_startDrag_touch (pageX t) (pageY t) (identifier t) f Hf Hd)).
  destruct (touchStart rest _) as [f2 ev]. exact IH.
Qed.

Lemma touchEnd_consistent (touches : list Touch) :
  forall f, consistent f -> consistent (fst (touchEnd touches f)).
Proof.
  induction touches as [|t rest IH]; intros f Hf; [exact Hf|].
  cbn [touchEnd]. destruct (dragging f && touchDrag f && same_touch f t) eqn:E;
    [|apply IH, Hf].
  apply andb_true_iff in E as [E _]. apply andb_true_iff in E as [_ E].
  apply IH. apply consistent_end_touch; assumption.
Qed.

Lemma touchMove_consistent (lay : Layout) (touches : list Touch) :
  forall f, consistent f -> consistent (fst (touchMove lay touches f)).
Proof.
  induction touches as [|t rest IH]; intros f Hf; [exact Hf|].
  cbn [touchMove]. destruct (dragging f && touchDrag f && same_touch f t);
    [|apply IH, Hf].
  destruct (drag_fst lay (pageX t) (pageY t) f) as (x & y & E).
  destruct (drag lay (pageX t) (pageY t) f) as [f1 ev1]. cbn [fst] in E. subst f1.
  specialize (IH _ (consistent_with_offsets x y f Hf)).
  destruct (touchMove lay rest _) as [f2 ev2]. exact IH.
Qed.

Lemma handle_consistent (i : Input) (f : Flickable) :
  consistent f -> consistent (fst (handle i f)).
Proof.
  intros Hf. destruct i as [t b x y|b|lay x y|ts|ts|lay ts|lay]; cbn [handle].
  - unfold mouseDown. destruct t; cbn [negb]; [|exact Hf].
    destruct (dragging f) eqn:Hd; cbn [negb andb]; [exact Hf|].
    destruct (primary b); [|exact Hf].
    apply consistent_startDrag_mouse; assumption.
  - unfold mouseUp. destruct (dragging f && mouseDrag f && negb (primary b)) eqn:E;
      [|exact Hf].
    apply andb_true_iff in E as [E _]. apply andb_true_iff in E as [_ E].
    apply consistent_end_mouse; assumption.
  - unfold mouseMove. destruct (dragging f && mouseDrag f); [|exact Hf].
    destruct (drag_fst lay x y f) as (x' & y' & E).
    destruct (drag lay x y f) as [f1 ev1]. cbn [fst] in *. subst f1.
    apply consistent_with_offsets, Hf.
  - apply touchStart_consistent, Hf.
  - apply touchEnd_consistent, Hf.
  - apply touchMove_consistent, Hf.
  - destruct (applyTransformation_fst lay f) as (x & y & ->).
    apply consistent_with_offsets, Hf.
Qed.

Lemma run_consistent (inputs : list Input) :
  forall f, consistent f -> consistent (run inputs f).
Proof.
  induction inputs as [|i inputs IH]; intros f Hf; [exact Hf|].
  apply IH, handle_consistent, Hf.
Qed.

Lemma connected_consistent : consistent connected.
Proof. unfold consistent. cbn. repeat split; discriminate. Qed.

Lemma touch_ignored (lay : Layout) (touches : list Touch) (f : Flickable) :
  dragging f = true -> touchDrag f = false ->
  touchStart touches f = (f, []) /\ touchEnd touches f = (f, []) /\
  touchMove lay touches f = (f, []).
Proof.
  intros Hd Ht. induction touches as [|t rest (IH1 & IH2 & IH3)]; [repeat split|].
  cbn [touchStart touchEnd touchMove]. rewrite Hd, Ht. cbn [negb andb].
  destruct (on_surface t); cbn [negb]; auto.
Qed.

(** X16. The drag state of a [Flickable], after any sequence of mouse,
    touch and resize events from the state [connectedCallback] leaves:
    [dragging] holds exactly when the mouse or a touch drags, never both;
    while it holds, the start point and the start offset that [drag]
    reads have been assigned, and a touch drag knows its touch. So a
    drag that the mouse started ignores every touch event, and a drag
    that a touch started ignores every mouse event: the element and its
    transform stay as they are. *)
Theorem flickable_drags_exclude (inputs : list Input) :
  let f := run inputs connected in
  consistent f /\
  (mouseDrag f = true ->
     forall lay touches,
       touchStart touches f = (f, []) /\ touchEnd touches f = (f, []) /\
       touchMove lay touches f = (f, [])) /\
  (touchDrag f = true ->
     forall lay t b x y,
       mouseDown t b x y f = (f, []) /\ mouseUp b f = (f, []) /\
       mouseMove lay x y f = (f, [])).
Proof.
  cbv zeta. pose proof (run_consistent inputs connected connected_consistent) as Hc.
  split; [exact Hc|]. destruct Hc as (Hd & Hx & _ & _).
  set (f := run inputs connected) in *. split.
  - intros Hm lay touches. rewrite Hm in Hd, Hx. cbn in Hd, Hx.
    apply touch_ignored; assumption.
  - intros Ht lay t b x y. rewrite Ht in Hd, Hx.
    rewrite orb_true_r in Hd. rewrite andb_true_r in Hx.
    unfold mouseDown, mouseUp, mouseMove. rewrite Hd, Hx. cbn [negb andb].
    destruct t; repeat split.
Qed.

End FlickableFacts.

(** ** Loading into an effect slot *)

Module EffectSlotFacts.
Import EffectSlotImpl.
Local Open Scope list_scope.

Lemma fresh_object (s : Slot) : objects s !! fresh (dom (objects s)) = None.
Proof. apply not_elem_of_dom, is_fresh. Qed.

(** What [load] does, in one step. *)
Lemma load_run (name : string) (s : Slot) :
  let e := fresh (dom (objects s)) in
  load name s =
    Some (mkSlot (Some e)
            (<[e := mkUIEffect name (S754_zero false) (S754_zero false) true
                      (match uiEffect s with Some _ => true | None => false end)]>
               (objects s))).
Proof.
  cbv zeta. unfold load, createObject, place, update. cbn [objects uiEffect].
  repeat first [rewrite lookup_insert_eq | rewrite insert_insert_eq
               | progress cbn [objects uiEffect]].
  destruct (uiEffect s) as [p|];
    repeat first [rewrite lookup_insert_eq | rewrite insert_insert_eq
                 | progress cbn [objects uiEffect]];
    reflexivity.
Qed.

(** X17. [load(name)] of an effect slot always creates a new object,
    gives it the source [name], connects its key presses, makes it the
    slot's [uiEffect] and places it at the origin; every object that
    existed is left as it was. When the slot was empty the new object is
    alive. When the slot held an effect, [destroy()] is called on the new
    object, not on the one the slot held: the slot then refers to a
    destroyed object, and the previous effect, if it was alive, stays
    alive without being referred to. [unload()] destroys the object the
    slot refers to and empties the slot; on an empty slot it does
    nothing. *)
Theorem slot_load_unload (name : string) (s : Slot) :
  exists e o s',
    load name s = Some s' /\
    objects s !! e = None /\
    uiEffect s' = Some e /\
    objects s' !! e = Some o /\
    source o = name /\ keys_connected o = true /\
    x o = S754_zero false /\ y o = S754_zero false /\
    (forall p, p <> e -> objects s' !! p = objects s !! p) /\
    (uiEffect s = None -> alive s' e) /\
    (forall p, uiEffect s = Some p ->
       destroyed o = true /\ ~ alive s' e /\ (alive s p -> alive s' p) /\
       exists s'', unload s' = Some s'' /\ uiEffect s'' = None /\
                   (alive s p -> alive s'' p)) /\
    (uiEffect s = None ->
       exists s'', unload s' = Some s'' /\ uiEffect s'' = None /\ ~ alive s'' e).
Proof.
  pose proof (load_run name s) as Hrun. cbv zeta in Hrun.
  pose proof (fresh_object s) as Hfresh.
  revert Hrun Hfresh. generalize (fresh (dom (objects s))). intros e Hrun Hfresh.
  eexists e, _, _. split; [exact Hrun|]. split; [exact Hfresh|].
  cbn [uiEffect objects]. split; [reflexivity|]. split; [apply lookup_insert_eq|].
  cbn [source keys_connected x y destroyed].
  split; [reflexivity|]. split; [reflexivity|]. split; [reflexivity|]. split; [reflexivity|].
  split; [|split; [|split]].
  - intros p Hp. apply lookup_insert_ne. congruence.
  - intros ->. eexists. split; [apply lookup_insert_eq|reflexivity].
  - intros p ->. split; [reflexivity|].
    assert (Hpe : alive s p -> p <> e).
    { intros (o & Ho & _) ->. congruence. }
    split; [|split].
    + intros (o & Ho & Hd). cbn in Ho. rewrite lookup_insert_eq in Ho.
      injection Ho as <-. discriminate.
    + intros Hp. pose proof (Hpe Hp) as Hne. destruct Hp as (o & Ho & Hd).
      exists o. split; [|exact Hd]. cbn. rewrite lookup_insert_ne by congruence. exact Ho.
    + unfold unload, update. cbn [uiEffect objects]. rewrite lookup_insert_eq.
      eexists. split; [reflexivity|]. split; [reflexivity|].
      intros Hp. pose proof (Hpe Hp) as Hne. destruct Hp as (o & Ho & Hd).
      exists o. split; [|exact Hd]. cbn. rewrite !lookup_insert_ne by congruence. exact Ho.
  - intros ->. unfold unload, update. cbn [uiEffect objects]. rewrite lookup_insert_eq.
    eexists. split; [reflexivity|]. split; [reflexivity|].
    intros (o & Ho & Hd). cbn in Ho. rewrite lookup_insert_eq in Ho.
    injection Ho as <-. discriminate.
Qed.

End EffectSlotFacts.

(** ** From a new node to its first frame *)

Module LifecycleFacts.
Import Text Grammar Values Node EffectNodeImpl Loader Observe Pipeline Layout.
Import Samples MoreSamples.
Import MonadFacts StateFacts LoaderFacts ChainFacts LayoutFacts LoadFacts.
Local Open Scope list_scope.

(** X18. The life of a node up to its first frame. A node as the
    constructor leaves it is given a name, the worker loads the effect
    file of that name (the header and the file can be read and the
    context compiles and links every pass), a chain is attached, and the
    chain is painted with a texture for the single input. Then every
    step returns; after the load the node is ready and holds one program
    per pass, [P] in all, one more than the file has buffer shader lines;
    and the first paint creates [P + 1] textures and returns the second of
    them, leaving the cursor of the chain at 1. *)
Theorem first_frame (fs : gmap string FileEntry) (glc : GLCompiler)
    (integral realTime realTimeLast : qreal) (next : GLuint)
    (name h text : string) amb (c : Chain) (inputTextures : list GLuint) :
  name <> "" ->
  QFile_open fs header_path = Some h ->
  exists_and_isFile fs (effect_path name) = true ->
  QFile_open fs (effect_path name) = Some text ->
  (forall stage src, compiles glc stage src = true) ->
  (forall v f, links glc v f = true) ->
  inputTextures <> [] ->
  let s0 := mkStore (EffectNode_new integral realTime realTimeLast) ∅ next in
  let P := S (buffershader_count (readLines text)) in
  exists s1 ev1 s2 ev2 s3 ev3 s4 ev4,
    setName name s0 = Some (tt, s1, ev1) /\
    load fs glc s1 = Some (tt, s2, ev2) /\
    m_ready (this s2) = true /\
    length (m_programs (this s2)) = P /\
    chainsEdited [c] [] s2 = Some (tt, s3, ev3) /\
    paint amb c inputTextures s3 = Some (next + 1, s4, ev4) /\
    gl_next s4 = next + Z.of_nat P + 1 /\
    ringIndex s4 (this s4) (chain_ptr c) = Some 1.
Proof.
  intros Hname Hh Hex Hf Hcomp Hlink Hin. cbv zeta.
  set (s1 := mkStore (with_name name
                        (with_ready false (EffectNode_new integral realTime realTimeLast)))
                     ∅ next).
  assert (Hset : setName name
                   (mkStore (EffectNode_new integral realTime realTimeLast) ∅ next) =
                 Some (tt, s1,
                       [EvAssign F_ready; EvLock; EvAssign F_name; EvUnlock;
                        EvInvoke "initialize"; EvEmit (nameChanged name)])).
  { unfold setName. rewrite bind_get_this. cbn [this EffectNode_new m_name].
    destruct (String.eqb_spec name "") as [E|_]; [contradiction|]. reflexivity. }
  (* the load *)
  destruct (loadProgram_cases fs glc name s1 eq_refl)
    as [(pre & msg & Hrun & Hdbg & Hcause)
       |(h' & text' & passes & props & dbg & Hrun & Hh' & _ & Hf' & Hparse & Hne & _ & _)].
  { exfalso. destruct Hcause as [[E _]|[[[E|E] _]|(_ & h' & text' & passes & props & _ & _ & _ & E)]];
      try congruence.
    apply Bool.not_true_iff_false in E. apply E. apply forallb_forall. intros pass _.
    unfold compiled_and_linked. rewrite !Hcomp, Hlink. reflexivity. }
  rewrite Hh in Hh'. injection Hh' as <-. rewrite Hf in Hf'. injection Hf' as <-.
  pose proof (load_succeeded fs glc s1 _ _ Hrun) as Hload.
  cbn [this heap gl_next] in Hload.
  pose proof (parse_source_count text s1 _ _ _ Hparse) as Hlen.
  set (programs := map (program_of_pass h) passes) in *.
  set (n2 := with_ready true
               (with_programs programs
                  (with_name name
                     (with_ready false (EffectNode_new integral realTime realTimeLast))))).
  set (s2 := mkStore n2 ∅ next).
  assert (Hload2 : exists ev2, load fs glc s1 = Some (tt, s2, ev2)).
  { eexists. exact Hload. }
  destruct Hload2 as [ev2 Hload2].
  assert (Hplen : length programs = S (buffershader_count (readLines text))).
  { unfold programs. rewrite length_map. exact Hlen. }
  (* the chain *)
  assert (Hsep2 : states_separate s2 (this s2)) by (apply fresh_node_separate; reflexivity).
  destruct (add_all_run [c] s2 Hsep2) as (s3 & Hr3 & Hsep3 & Hf3 & Hg3 & _ & Hin3 & _).
  destruct (same_fields_eqs _ _ Hf3) as (Er & Ep & Ec & _).
  cbn [this s2 n2 m_ready m_programs m_inputCount with_ready with_programs with_name
       EffectNode_new] in Er, Ep, Ec.
  assert (Hst : render_state s3 (this s3) (chain_ptr c) = Some EffectNodeRenderState_new).
  { apply Hin3. cbn. apply list_elem_of_singleton. reflexivity. }
  unfold render_state in Hst.
  destruct (m_renderStates (this s3) !! chain_ptr c) as [l|] eqn:Hl; [|discriminate].
  (* the paint *)
  destruct (RingFacts.paint_ok amb c inputTextures s3 l [] 0)
    as (_ & out & ev4 & Hout & Hpaint);
    [exact Er|exact Hl|exact Hst|left; reflexivity|lia| |].
  { rewrite Ec. destruct inputTextures; [contradiction|cbn [length]; lia]. }
  cbv zeta in Hout, Hpaint. cbn [is_nil app] in Hout, Hpaint.
  rewrite Ep, Hplen, Hg3 in Hout, Hpaint. cbn [gl_next s2] in Hout, Hpaint.
  set (P := S (buffershader_count (readLines text))) in *.
  assert (Hmod : (0 + 1) mod (Z.of_nat P + 1) = 1).
  { apply Z.mod_small. lia. }
  rewrite Hmod in Hout, Hpaint.
  rewrite fresh_fbos_at in Hout by lia. injection Hout as <-. cbn [texture] in Hpaint.
  eexists s1, _, s2, ev2, s3, _, _, ev4.
  split; [exact Hset|]. split; [exact Hload2|]. split; [reflexivity|].
  split; [exact Hplen|]. split; [|split; [exact Hpaint|split]].
  - rewrite chainsEdited_unfold, bind_event. fold (add_all [c]).
    rewrite (bind_run _ _ _ _ _ _ Hr3). reflexivity.
  - cbn [gl_next]. lia.
  - unfold ringIndex, render_state. cbn [this heap m_renderStates with_realTime
      with_realTimeLast]. rewrite Hl, lookup_insert_eq. reflexivity.
Qed.

Lemma first_frame_witness :
  exists s1 ev1 s2 ev2 s3 ev3 s4 ev4,
    setName "purple" s_fresh = Some (tt, s1, ev1) /\
    load sample_files compiler_ok s1 = Some (tt, s2, ev2) /\
    m_ready (this s2) = true /\
    length (m_programs (this s2)) = 2%nat /\
    chainsEdited [sample_chain] [] s2 = Some (tt, s3, ev3) /\
    paint sample_ambient sample_chain [55] s3 = Some (2, s4, ev4) /\
    gl_next s4 = 4 /\
    ringIndex s4 (this s4) 7%nat = Some 1.
Proof.
  apply (first_frame sample_files compiler_ok q_zero q_zero q_zero 1
           "purple" "// header" source_example sample_ambient sample_chain [55]);
    try reflexivity; discriminate.
Defined.

End LifecycleFacts.

(** ** Where a paint stops, and what it leaves alone *)

Module PaintEdgeFacts.
Import Values Node EffectNodeImpl Observe Pipeline Samples MoreSamples.
Import MonadFacts PaintFacts GLFacts StateFacts ChainFacts.
Local Open Scope list_scope.

Lemma for_up_events_None (f : Z -> option (list Event)) :
  forall count lo k,
    lo <= k < lo + Z.of_nat count -> f k = None -> for_up_events f lo count = None.
Proof.
  induction count as [|c IH]; intros lo k Hk Hf; [lia|].
  cbn [for_up_events]. destruct (Z.eq_dec k lo) as [->|Hne].
  - rewrite Hf. reflexivity.
  - rewrite (IH (lo + 1) k) by (lia || exact Hf). destruct (f lo); reflexivity.
Qed.

Lemma for_down_events_None (f : Z -> option (list Event)) :
  forall count j,
    0 <= j < Z.of_nat count -> f j = None -> for_down_events f count = None.
Proof.
  induction count as [|c IH]; intros j Hj Hf; [lia|].
  cbn [for_down_events]. destruct (Z.eq_dec j (Z.of_nat c)) as [->|Hne].
  - rewrite Hf. reflexivity.
  - rewrite (IH j) by (lia || exact Hf). destruct (f (Z.of_nat c)); reflexivity.
Qed.

Lemma at_None {A} (v : list A) (i : Z) : Z.of_nat (length v) <= i -> at_ v i = None.
Proof.
  intros H. unfold at_. destruct (Z.ltb_spec i 0); [reflexivity|].
  apply lookup_ge_None. lia.
Qed.

Lemma pass_events_no_input (n : EffectNode) amb chain inputTextures ring ti j :
  Z.of_nat (length inputTextures) < m_inputCount n ->
  pass_events n amb chain inputTextures ring ti j = None.
Proof.
  intros Hin. unfold pass_events. cbv zeta.
  rewrite (for_up_events_None (input_events inputTextures) (Z.to_nat (m_inputCount n)) 0
             (Z.of_nat (length inputTextures))).
  - destruct (at_ (m_programs n) j); [|reflexivity].
    destruct (at_ ring _); reflexivity.
  - lia.
  - unfold input_events. rewrite at_None by lia. reflexivity.
Qed.

Lemma pass_events_no_slot (n : EffectNode) amb chain inputTextures ring ti j :
  at_ ring (fboIndex ti (Z.of_nat (length (m_programs n))) j) = None ->
  pass_events n amb chain inputTextures ring ti j = None.
Proof.
  intros H. unfold pass_events. cbv zeta. rewrite H.
  destruct (at_ (m_programs n) j); reflexivity.
Qed.

Lemma pass_events_no_channel (n : EffectNode) amb chain inputTextures ring ti j k :
  0 <= k < Z.of_nat (length (m_programs n)) ->
  at_ ring (chanIndex ti (Z.of_nat (length (m_programs n))) j k) = None ->
  pass_events n amb chain inputTextures ring ti j = None.
Proof.
  intros Hk H. unfold pass_events. cbv zeta.
  rewrite (for_up_events_None
             (channel_events (m_inputCount n) ring ti (Z.of_nat (length (m_programs n))) j)
             (length (m_programs n)) 0 k).
  - destruct (at_ (m_programs n) j); [|reflexivity].
    destruct (at_ ring (fboIndex ti (Z.of_nat (length (m_programs n))) j)); [|reflexivity].
    destruct (for_up_events (input_events _) _ _); reflexivity.
  - lia.
  - unfold channel_events. rewrite H. reflexivity.
Qed.

(** X19. A [paint] needs a texture for every input. For a ready node
    with at least one program and the chain attached, on a ring that is
    empty or full and a cursor that is not negative, the paint returns
    exactly when [inputTextures] has at least [m_inputCount] entries; with
    fewer, the first pass stops at [inputTextures.at(k)]. *)
Theorem paint_needs_inputs amb chain inputTextures (s : Store) (l : nat)
    (ring0 : list QOpenGLFramebufferObject) (ti : Z) :
  m_ready (this s) = true ->
  m_renderStates (this s) !! chain_ptr chain = Some l ->
  heap s !! l = Some (mkRenderState ring0 ti) ->
  ring0 = [] \/ length ring0 = S (length (m_programs (this s))) ->
  0 <= ti ->
  m_programs (this s) <> [] ->
  (is_Some (paint amb chain inputTextures s) <->
   m_inputCount (this s) <= Z.of_nat (length inputTextures)).
Proof.
  intros Hready Hc Hl Hring Hti Hne. split.
  - intros [r Hr]. destruct (Z.le_gt_cases (m_inputCount (this s))
                               (Z.of_nat (length inputTextures))) as [|Hlt]; [assumption|].
    exfalso. rewrite (paint_run _ _ _ _ _ _ _ Hready Hc Hl) in Hr. cbv zeta in Hr.
    rewrite (for_down_events_None _ (length (m_programs (this s))) 0) in Hr;
      [discriminate| |].
    + destruct (m_programs (this s)); [contradiction|cbn [length]; lia].
    + apply pass_events_no_input. cbn. lia.
  - intros Hin.
    destruct (RingFacts.paint_ok amb chain inputTextures s l ring0 ti
                Hready Hc Hl Hring Hti Hin) as (_ & out & ev & _ & Hrun).
    rewrite Hrun. eauto.
Qed.

Lemma paint_needs_inputs_witness :
  is_Some (paint sample_ambient sample_chain [55] s_two_chains) <-> 1 <= 1.
Proof.
  apply (paint_needs_inputs sample_ambient sample_chain [55] s_two_chains 0%nat [] 0).
  - reflexivity.
  - reflexivity.
  - reflexivity.
  - left. reflexivity.
  - lia.
  - discriminate.
Defined.

(** X20. The ring of a chain is created once, by the first paint, with
    one slot more than the node then had programs, and a later paint does
    not resize it. A paint that finds a ring with fewer slots than
    programs plus one (after a reload with more passes) does not return:
    some pass renders into, or reads a channel from, a slot the ring does
    not have. *)
Theorem paint_on_short_ring amb chain inputTextures (s : Store) (l : nat)
    (ring0 : list QOpenGLFramebufferObject) (ti : Z) :
  m_ready (this s) = true ->
  m_renderStates (this s) !! chain_ptr chain = Some l ->
  heap s !! l = Some (mkRenderState ring0 ti) ->
  ring0 <> [] ->
  (length ring0 <= length (m_programs (this s)))%nat ->
  0 <= ti ->
  paint amb chain inputTextures s = None.
Proof.
  intros Hready Hc Hl Hne Hlen Hti.
  rewrite (paint_run _ _ _ _ _ _ _ Hready Hc Hl). cbv zeta.
  rewrite (RingFacts.is_nil_false _ Hne). cbn [fresh_fbos]. rewrite app_nil_r.
  set (P := Z.of_nat (length (m_programs (this s)))).
  assert (HP : 0 < P).
  { unfold P. destruct ring0; [contradiction|]. cbn [length] in Hlen. lia. }
  set (n1 := with_realTime (wallTime amb) (with_realTimeLast (m_realTime (this s)) (this s))).
  assert (Hn1 : Z.of_nat (length (m_programs n1)) = P) by reflexivity.
  assert (Hout : at_ ring0 P = None) by (apply at_None; unfold P; lia).
  set (r := ti mod (P + 1)).
  assert (Hr : 0 <= r < P + 1) by (apply Z.mod_pos_bound; lia).
  assert (Hti_eq : ti = (P + 1) * (ti / (P + 1)) + r) by (apply Z.div_mod; lia).
  match goal with |- match ?a with _ => _ end = None =>
    assert (Hnone : a = None); [|rewrite Hnone; reflexivity] end.
  destruct (Z.eq_dec r P) as [HrP|HrP].
  - (* channel 0 of pass 0 is slot P *)
    apply (for_down_events_None _ _ 0); [lia|].
    apply (pass_events_no_channel n1 amb chain inputTextures ring0 ti 0 0);
      [rewrite Hn1; lia|].
    rewrite Hn1. unfold chanIndex. cbn [Z.ltb]. rewrite !Z.add_0_r.
    rewrite Z.rem_mod_nonneg by lia. fold r. rewrite HrP. exact Hout.
  - (* pass P - 1 - r renders into slot P *)
    apply (for_down_events_None _ _ (P - 1 - r)); [unfold P in *; lia|].
    apply pass_events_no_slot. rewrite Hn1. unfold fboIndex.
    rewrite Z.rem_mod_nonneg by lia.
    replace (ti + (P - 1 - r) + 1) with (P + (ti / (P + 1)) * (P + 1)) by lia.
    rewrite Z.mod_add by lia. rewrite Z.mod_small by lia. exact Hout.
Qed.

Lemma paint_on_short_ring_witness :
  paint sample_ambient sample_chain [55]
    (mkStore (two_pass_node {[7%nat := 0%nat]})
             {[0%nat := mkRenderState [sample_fbo 100; sample_fbo 101] 0]} 102) = None.
Proof.
  apply (paint_on_short_ring sample_ambient sample_chain [55] _ 0%nat
           [sample_fbo 100; sample_fbo 101] 0).
  - reflexivity.
  - reflexivity.
  - reflexivity.
  - discriminate.
  - cbn. lia.
  - lia.
Defined.

(** X21. A [paint] that returns touches one chain only. On a node whose
    render states are separate objects, the render state of every other
    chain is what it was, no chain is attached or detached, and of the
    node's own members only the two time stamps change. *)
Theorem paint_touches_one_chain amb chain inputTextures (s : Store) t s' ev :
  states_separate s (this s) ->
  paint amb chain inputTextures s = Some (t, s', ev) ->
  (forall p, p <> chain_ptr chain ->
     render_state s' (this s') p = render_state s (this s) p) /\
  m_renderStates (this s') = m_renderStates (this s) /\
  m_programs (this s') = m_programs (this s) /\
  m_ready (this s') = m_ready (this s) /\
  m_name (this s') = m_name (this s) /\
  m_inputCount (this s') = m_inputCount (this s) /\
  m_intensity (this s') = m_intensity (this s) /\
  m_intensityIntegral (this s') = m_intensityIntegral (this s) /\
  states_separate s' (this s').
Proof.
  intros Hsep Hrun. pose proof Hsep as [Hinj Halloc].
  destruct (m_ready (this s)) eqn:Hready.
  2:{ rewrite (GuardFacts.paint_not_ready _ _ _ _ Hready) in Hrun.
      injection Hrun as <- <- <-. rewrite Hready. repeat split; auto. }
  destruct (m_renderStates (this s) !! chain_ptr chain) as [l|] eqn:Hc.
  2:{ rewrite (GuardFacts.paint_no_chain _ _ _ _ Hready Hc) in Hrun.
      injection Hrun as <- <- <-. rewrite Hready. repeat split; auto. }
  destruct (Halloc _ _ Hc) as [[ring0 ti] Hl].
  destruct (RingFacts.paint_success _ _ _ _ _ _ _ _ _ _ Hready Hc Hl Hrun)
    as (evp & out & _ & _ & -> & -> & ->).
  cbn [this heap with_realTime with_realTimeLast m_renderStates m_programs m_ready m_name
       m_inputCount m_intensity m_intensityIntegral].
  split; [|repeat split; auto].
  - intros p Hp. unfold render_state.
    cbn [this heap with_realTime with_realTimeLast m_renderStates].
    destruct (m_renderStates (this s) !! p) as [lp|] eqn:Hlp; [|reflexivity].
    apply lookup_insert_ne. intros <-. apply Hp. eapply Hinj; eauto.
  - intros p lp Hp. cbn [heap].
    destruct (decide (lp = l)) as [->|Hn].
    + rewrite lookup_insert_eq. eauto.
    + rewrite lookup_insert_ne by congruence. eauto.
Qed.

Lemma paint_touches_one_chain_witness :
  match paint sample_ambient sample_chain [55] s_two_chains with
  | Some (t, s', ev) =>
      render_state s' (this s') 8%nat = Some EffectNodeRenderState_new
  | None => False
  end.
Proof.
  destruct (paint sample_ambient sample_chain [55] s_two_chains)
    as [[[t s'] ev]|] eqn:E; [|vm_compute in E; discriminate].
  destruct (paint_touches_one_chain sample_ambient sample_chain [55] s_two_chains t s' ev
              s_two_chains_separate E) as (H & _).
  rewrite (H 8%nat); [reflexivity|discriminate].
Defined.

End PaintEdgeFacts.

(** ** A rename while a load is being reported *)

Module RenameFacts.
Import Text Grammar Values Node EffectNodeImpl Loader Observe Pipeline Layout.
Import Samples MoreSamples.
Import MonadFacts StateFacts LoaderFacts LayoutFacts LoadFacts.
Local Open Scope list_scope.

Lemma setName_run (n : string) (s : Store) :
  n <> m_name (this s) ->
  setName n s =
    Some (tt, mkStore (with_name n (with_ready false (this s))) (heap s) (gl_next s),
          [EvAssign F_ready; EvLock; EvAssign F_name; EvUnlock;
           EvInvoke "initialize"; EvEmit (nameChanged n)]).
Proof.
  intros Hn. unfold setName. rewrite bind_get_this.
  destruct (String.eqb_spec n (m_name (this s))) as [E|_]; [contradiction|].
  destruct s. reflexivity.
Qed.

(** X22. A rename between a successful [initialize] and the run of
    [onInitialized], as can happen where the worker lives in a thread of
    its own, so that its signal [initialized] is queued for the node. In
    that order of events ([setName a], the worker's [initialize],
    [setName b], then [onInitialized]) the node ends up ready under the
    name [b] while its programs are those built from the file of [a]; and
    the [initialize] that [setName b] posted then stops at the assertion
    of [loadProgram], since ready is set. *)
Theorem rename_before_initialized_arrives (fs : gmap string FileEntry) (glc : GLCompiler)
    (s : Store) (a b h text : string) :
  a <> m_name (this s) ->
  b <> a ->
  QFile_open fs header_path = Some h ->
  exists_and_isFile fs (effect_path a) = true ->
  QFile_open fs (effect_path a) = Some text ->
  (forall stage src, compiles glc stage src = true) ->
  (forall v f, links glc v f = true) ->
  exists s1 ev1 s2 ev2 s3 ev3 s4 passes props dbg,
    setName a s = Some (tt, s1, ev1) /\
    initialize fs glc s1 = Some (tt, s2, ev2) /\
    signals ev2 = [initialized] /\
    setName b s2 = Some (tt, s3, ev3) /\
    m_ready (this s3) = false /\
    onInitialized s3 = Some (tt, s4, [EvAssign F_ready]) /\
    m_ready (this s4) = true /\
    m_name (this s4) = b /\
    parse_source text s1 = Some ((passes, props), s1, dbg) /\
    m_programs (this s4) = map (program_of_pass h) passes /\
    initialize fs glc s4 = None.
Proof.
  intros Ha Hb Hh Hex Hf Hcomp Hlink.
  set (s1 := mkStore (with_name a (with_ready false (this s))) (heap s) (gl_next s)).
  destruct (loadProgram_cases fs glc a s1 eq_refl)
    as [(pre & msg & Hrun & Hdbg & Hcause)
       |(h' & text' & passes & props & dbg & Hrun & Hh' & _ & Hf' & Hparse & Hne & Hdbg & _)].
  { exfalso.
    destruct Hcause as [[E _]|[[[E|E] _]|(_ & h' & text' & passes & props & _ & _ & _ & E)]];
      try congruence.
    apply Bool.not_true_iff_false in E. apply E. apply forallb_forall. intros pass _.
    unfold compiled_and_linked. rewrite !Hcomp, Hlink. reflexivity. }
  rewrite Hh in Hh'. injection Hh' as <-. rewrite Hf in Hf'. injection Hf' as <-.
  set (programs := map (program_of_pass h) passes) in *.
  set (s2 := mkStore (with_programs programs (this s1)) (heap s1) (gl_next s1)) in *.
  assert (Hinit : initialize fs glc s1 =
            Some (tt, s2, EvGL makeCurrent ::
                          (dbg ++ [EvLock; EvAssign F_programs; EvUnlock]) ++
                          [EvGL glFlush; EvEmit initialized])).
  { unfold initialize, gl. rewrite bind_event, bind_get_this.
    change (m_name (this s1)) with a. rewrite (bind_run _ _ _ _ _ _ Hrun). reflexivity. }
  set (s3 := mkStore (with_name b (with_ready false (this s2))) (heap s2) (gl_next s2)).
  set (s4 := mkStore (with_ready true (this s3)) (heap s3) (gl_next s3)).
  eexists s1, _, s2, _, s3, _, s4, passes, props, dbg.
  split; [apply setName_run; exact Ha|]. split; [exact Hinit|]. split.
  { destruct (debug_only dbg Hdbg) as (Hs & _).
    unfold signals. cbn [omap list_omap]. rewrite !omap_app. fold (signals dbg).
    rewrite Hs. reflexivity. }
  split; [apply setName_run; exact Hb|]. split; [reflexivity|].
  split; [reflexivity|]. split; [reflexivity|]. split; [reflexivity|].
  split; [exact Hparse|]. split; [reflexivity|].
  unfold initialize, loadProgram, gl.
  rewrite bind_event, bind_get_this, bind_assoc, bind_get_this. reflexivity.
Qed.

Lemma rename_before_initialized_arrives_witness :
  exists s1 ev1 s2 ev2 s3 ev3 s4 passes props dbg,
    setName "purple" s_fresh = Some (tt, s1, ev1) /\
    initialize sample_files compiler_ok s1 = Some (tt, s2, ev2) /\
    signals ev2 = [initialized] /\
    setName "composite" s2 = Some (tt, s3, ev3) /\
    m_ready (this s3) = false /\
    onInitialized s3 = Some (tt, s4, [EvAssign F_ready]) /\
    m_ready (this s4) = true /\
    m_name (this s4) = "composite" /\
    parse_source source_example s1 = Some ((passes, props), s1, dbg) /\
    m_programs (this s4) = map (program_of_pass "// header") passes /\
    initialize sample_files compiler_ok s4 = None.
Proof.
  apply (rename_before_initialized_arrives sample_files compiler_ok s_fresh
           "purple" "composite" "// header" source_example);
    try reflexivity; discriminate.
Defined.

End RenameFacts.

(** ** The header file *)

Module HeaderFacts.
Import Text Grammar Values Node EffectNodeImpl Loader Observe Samples MoreSamples.
Import MonadFacts LoaderFacts.
Local Open Scope list_scope.

(** X23. When the shared header cannot be opened, [loadProgram] of a
    node marked unready returns false at once, whatever the effect file
    holds: nothing is parsed or compiled, the store is unchanged, and the
    only event is one fatal signal. Its text names the path
    [../resources/effect_header.glsl], which is not the path that was
    tried, [../resources/glsl/effect_header.glsl]; the path tried does
    not occur in the message. The worker then writes its debug line and
    does not emit [initialized]. *)
Theorem missing_header (fs : gmap string FileEntry) (glc : GLCompiler)
    (name : string) (s : Store) :
  m_ready (this s) = false ->
  QFile_open fs header_path = None ->
  let msg := could_not_open "../resources/effect_header.glsl" in
  loadProgram fs glc name s = Some (false, s, [EvEmit (fatal msg)]) /\
  load fs glc (mkStore (with_name name (this s)) (heap s) (gl_next s)) =
    Some (tt, mkStore (with_name name (this s)) (heap s) (gl_next s),
          [EvGL makeCurrent; EvEmit (fatal msg); EvDebug dbg_load_program_failed]) /\
  contains header_path msg = false /\
  msg <> could_not_open header_path.
Proof.
  intros Hready Hh. cbv zeta.
  assert (Hrun : forall s0, m_ready (this s0) = false ->
            loadProgram fs glc (m_name (this s0)) s0 =
              Some (false, s0,
                    [] ++ [EvEmit (fatal (could_not_open "../resources/effect_header.glsl"))])).
  { intros s0 H0. unfold loadProgram. rewrite bind_get_this, H0. cbn [negb Q_ASSERT].
    rewrite bind_ret, Hh. reflexivity. }
  split; [|split; [|split]].
  - unfold loadProgram. rewrite bind_get_this, Hready. cbn [negb Q_ASSERT].
    rewrite bind_ret, Hh. reflexivity.
  - apply (load_failed fs glc _ [] _); [|reflexivity].
    apply (Hrun (mkStore (with_name name (this s)) (heap s) (gl_next s))). exact Hready.
  - vm_compute. reflexivity.
  - vm_compute. discriminate.
Qed.

Lemma missing_header_witness :
  loadProgram ∅ compiler_ok "purple" s_reloading =
    Some (false, s_reloading,
          [EvEmit (fatal (could_not_open "../resources/effect_header.glsl"))]).
Proof.
  exact (proj1 (missing_header ∅ compiler_ok "purple" s_reloading eq_refl eq_refl)).
Defined.

End HeaderFacts.
